(** * Experience replay buffers: ring store, flat priorities, sum tree

    A shallow embedding of [src/buffer.py]:
    - [ReplayBuffer]: fixed-capacity ring of transitions held in parallel
      numpy arrays;
    - [PrioritizedReplayBuffer]: the same ring with a flat priority array;
    - [SumTree] and [PERBufferSumTree]: priorities held in an array-encoded
      binary tree whose internal nodes cache the sum of their children.

    Numbers that the source keeps as floats are real numbers here (exact
    arithmetic); Python integers are [Z].  Objects mutated in place are
    threaded through a state-and-error monad that keeps the mutated object
    when an exception is raised.  The random number generator of numpy and
    of the [random] module is an explicit generator state behind the
    interface [RandomGen]. *)

From Stdlib Require Import String ZArith List Lia Reals Lra Bool Permutation.
Import ListNotations.
Open Scope Z_scope.

(** ** Exceptions and the state-and-error monad *)

Inductive exn : Type :=
| IndexError
| ValueError
| TypeError
| ZeroDivisionError
| RecursionError
| AssertionError (msg : string).

(** A computation on a mutable object of type [S]: it returns a value or
    raises, and in both cases leaves the object as mutated so far. *)
Definition M (S A : Type) : Type := S -> (exn + A) * S.

Definition ret {S A} (a : A) : M S A := fun s => (inr a, s).
Definition raise {S A} (e : exn) : M S A := fun s => (inl e, s).
Definition bind {S A B} (c : M S A) (k : A -> M S B) : M S B :=
  fun s => match c s with
           | (inr a, s') => k a s'
           | (inl e, s') => (inl e, s')
           end.
Definition get_self {S} : M S S := fun s => (inr s, s).
Definition modify {S} (f : S -> S) : M S unit := fun s => (inr tt, f s).
Definition lift {S A} (r : exn + A) : M S A := fun s => (r, s).

Notation "x <- c ;; k" := (bind c (fun x => k))
  (at level 61, c at next level, right associativity).
Notation "c ;;; k" := (bind c (fun _ => k))
  (at level 61, right associativity).

(** A [for] loop over a Python list: the body runs on each element in
    order and the loop stops at the first exception. *)
Fixpoint for_each {S A} (xs : list A) (body : A -> M S unit) : M S unit :=
  match xs with
  | [] => ret tt
  | x :: xs' => body x ;;; for_each xs' body
  end.

(** ** Python and numpy primitives *)

(** Python's index rule on a sequence of length [n]: [0 <= i < n] addresses
    position [i], [-n <= i < 0] addresses position [n + i], anything else is
    out of range. *)
Definition norm_index (n : nat) (i : Z) : option nat :=
  if (0 <=? i) && (i <? Z.of_nat n) then Some (Z.to_nat i)
  else if (- Z.of_nat n <=? i) && (i <? 0) then Some (Z.to_nat (Z.of_nat n + i))
  else None.

Fixpoint list_set {A} (a : list A) (k : nat) (x : A) : list A :=
  match a, k with
  | [], _ => []
  | _ :: a', O => x :: a'
  | y :: a', S k' => y :: list_set a' k' x
  end.

(** [a[i]] *)
Definition getitem {A} (a : list A) (i : Z) : exn + A :=
  match norm_index (length a) i with
  | Some k => match nth_error a k with
              | Some x => inr x
              | None => inl IndexError
              end
  | None => inl IndexError
  end.

(** [a[i] = x] *)
Definition setitem {A} (a : list A) (i : Z) (x : A) : exn + list A :=
  match norm_index (length a) i with
  | Some k => inr (list_set a k x)
  | None => inl IndexError
  end.

(** [a[idx]] for an integer index array [idx]. *)
Fixpoint take {A} (a : list A) (idx : list Z) : exn + list A :=
  match idx with
  | [] => inr []
  | i :: idx' =>
      match getitem a i, take a idx' with
      | inr x, inr xs => inr (x :: xs)
      | inl e, _ => inl e
      | _, inl e => inl e
      end
  end.

(** [a[idx] = vals] for an integer index array [idx]: numpy checks every
    index first and then assigns in order, so that the last value written
    to a repeated index stays. *)
Definition put {A} (a : list A) (idx : list Z) (vals : list A) : exn + list A :=
  if forallb (fun i => match norm_index (length a) i with
                       | Some _ => true | None => false end) idx
  then inr (fold_left (fun acc iv =>
                         match norm_index (length a) (fst iv) with
                         | Some k => list_set acc k (snd iv)
                         | None => acc
                         end) (combine idx vals) a)
  else inl IndexError.

(** [np.arange(n)] *)
Definition arange (n : Z) : list Z := map Z.of_nat (seq 0 (Z.to_nat n)).

(** [%] on numpy integer arrays: the sign follows the divisor and a zero
    divisor gives zero (with a warning, not an exception). *)
Definition np_mod (a n : Z) : Z := if n =? 0 then 0 else a mod n.

(** [%] on Python integers. *)
Definition py_mod (a n : Z) : exn + Z :=
  if n =? 0 then inl ZeroDivisionError else inr (a mod n).

(** [//] on Python integers with a positive divisor rounds down, as
    [Z.div] does. *)
Definition py_floordiv (a n : Z) : Z := a / n.

(** [arr.astype(np.uint8)] on integer samples. *)
Definition astype_uint8 (frame : list Z) : list Z :=
  map (fun x => x mod 256) frame.

(** A write of integer samples into an [np.int64] array: values of a
    wider unsigned type wrap around. *)
Definition astype_int64 (x : Z) : Z := (x + 2 ^ 63) mod 2 ^ 64 - 2 ^ 63.

Definition float_of_bool (b : bool) : R := if b then 1%R else 0%R.

(** ** ReplayBuffer *)

(** One observation: a (4, 84, 84) array of samples, flattened.  The
    frames handed to [push] are taken to have that shape, and the actions
    to be the elements of an integer array of at most 64 bits. *)
Definition Frame : Type := list Z.
Definition frame_len : nat := Z.to_nat (4 * 84 * 84).
Definition zero_frame : Frame := repeat 0 frame_len.

Record Transition : Type := mkTransition {
  t_state : Frame;
  t_action : Z;
  t_reward : R;
  t_next_state : Frame;
  t_done : bool
}.

Record ReplayBuffer : Type := mkReplayBuffer {
  capacity : Z;
  states : list Frame;
  actions : list Z;
  rewards : list R;
  next_states : list Frame;
  dones : list R;
  position : Z;
  size : Z
}.

(** [ReplayBuffer.__init__]; [np.zeros] refuses a negative dimension. *)
Definition ReplayBuffer_init (capacity : Z) : exn + ReplayBuffer :=
  if capacity <? 0 then inl ValueError
  else
    let n := Z.to_nat capacity in
    inr {| capacity := capacity;
           states := repeat zero_frame n;
           actions := repeat 0 n;
           rewards := repeat 0%R n;
           next_states := repeat zero_frame n;
           dones := repeat 0%R n;
           position := 0;
           size := 0 |}.

Definition set_states (v : list Frame) (b : ReplayBuffer) : ReplayBuffer :=
  mkReplayBuffer (capacity b) v (actions b) (rewards b) (next_states b)
                 (dones b) (position b) (size b).
Definition set_actions (v : list Z) (b : ReplayBuffer) : ReplayBuffer :=
  mkReplayBuffer (capacity b) (states b) v (rewards b) (next_states b)
                 (dones b) (position b) (size b).
Definition set_rewards (v : list R) (b : ReplayBuffer) : ReplayBuffer :=
  mkReplayBuffer (capacity b) (states b) (actions b) v (next_states b)
                 (dones b) (position b) (size b).
Definition set_next_states (v : list Frame) (b : ReplayBuffer) : ReplayBuffer :=
  mkReplayBuffer (capacity b) (states b) (actions b) (rewards b) v
                 (dones b) (position b) (size b).
Definition set_dones (v : list R) (b : ReplayBuffer) : ReplayBuffer :=
  mkReplayBuffer (capacity b) (states b) (actions b) (rewards b)
                 (next_states b) v (position b) (size b).
Definition set_position (v : Z) (b : ReplayBuffer) : ReplayBuffer :=
  mkReplayBuffer (capacity b) (states b) (actions b) (rewards b)
                 (next_states b) (dones b) v (size b).
Definition set_size (v : Z) (b : ReplayBuffer) : ReplayBuffer :=
  mkReplayBuffer (capacity b) (states b) (actions b) (rewards b)
                 (next_states b) (dones b) (position b) v.

(** The argument of [push]: one transition ([state.ndim == 3]) or a batch
    of them ([state.ndim == 4]). *)
Inductive PushArg : Type :=
| Single (t : Transition)
| Batched (ts : list Transition).

(** The [np.expand_dims] branch of [push]. *)
Definition expand_dims (arg : PushArg) : list Transition :=
  match arg with
  | Single t => [t]
  | Batched ts => ts
  end.

(** [ReplayBuffer.push] *)
Definition push (arg : PushArg) : M ReplayBuffer unit :=
  let batch := expand_dims arg in
  let batch_size := Z.of_nat (length batch) in
  self <- get_self ;;
  let idx := map (fun k => np_mod (k + position self) (capacity self))
                 (arange batch_size) in
  v <- lift (put (states self) idx (map (fun t => astype_uint8 (t_state t)) batch)) ;;
  modify (set_states v) ;;;
  v <- lift (put (actions self) idx
                 (map (fun t => astype_int64 (t_action t)) batch)) ;;
  modify (set_actions v) ;;;
  v <- lift (put (rewards self) idx (map t_reward batch)) ;;
  modify (set_rewards v) ;;;
  v <- lift (put (next_states self) idx
                 (map (fun t => astype_uint8 (t_next_state t)) batch)) ;;
  modify (set_next_states v) ;;;
  v <- lift (put (dones self) idx (map (fun t => float_of_bool (t_done t)) batch)) ;;
  modify (set_dones v) ;;;
  p <- lift (py_mod (position self + batch_size) (capacity self)) ;;
  modify (set_position p) ;;;
  modify (set_size (Z.min (size self + batch_size) (capacity self))).

(** [ReplayBuffer.__len__] *)
Definition len (b : ReplayBuffer) : Z := size b.

(** What [push] leaves in the arrays for one transition. *)
Record Row : Type := mkRow {
  r_state : Frame;
  r_action : Z;
  r_reward : R;
  r_next_state : Frame;
  r_done : R
}.

Definition store_row (t : Transition) : Row :=
  {| r_state := astype_uint8 (t_state t);
     r_action := astype_int64 (t_action t);
     r_reward := t_reward t;
     r_next_state := astype_uint8 (t_next_state t);
     r_done := float_of_bool (t_done t) |}.

(** The entry held at slot [s], read from the five arrays. *)
Definition row_at (b : ReplayBuffer) (s : nat) : option Row :=
  match nth_error (states b) s, nth_error (actions b) s,
        nth_error (rewards b) s, nth_error (next_states b) s,
        nth_error (dones b) s with
  | Some st, Some a, Some r, Some ns, Some d => Some (mkRow st a r ns d)
  | _, _, _, _, _ => None
  end.

(** A sequence of single-transition [push] calls. *)
Definition push_all (ts : list Transition) : M ReplayBuffer unit :=
  for_each ts (fun t => push (Single t)).

(** ** Random draws and floating-point power *)

(** The generator behind [np.random] and [random], as an explicit state.
    [np_random_randint low high size p replace] stands for the call
    [np.random.randint(low, high, size, p=p, replace=replace)] that the
    samplers make; it yields an index array or raises. *)
Class RandomGen (G : Type) : Type := {
  np_random_randint : Z -> Z -> Z -> option (list R) -> bool -> M G (list Z);
  np_random_shuffle : list Z -> M G (list Z);
  random_uniform : R -> R -> M G R
}.

(** What every generator guarantees about the values it returns: the draw
    respects the half-open range and the requested count, a draw without
    replacement has no repeated index, a shuffle permutes, and a uniform
    float lies between its bounds.  Nothing is said about when a draw
    raises. *)
Class RandomGenLaws (G : Type) `{RandomGen G} : Prop := {
  randint_range : forall low high n p replace g l g',
    np_random_randint low high n p replace g = (inr l, g') ->
    Z.of_nat (length l) = Z.max 0 n /\ Forall (fun i => low <= i < high) l;
  randint_distinct : forall low high n p g l g',
    np_random_randint low high n p false g = (inr l, g') -> NoDup l;
  shuffle_perm : forall l g,
    exists l' g', np_random_shuffle l g = (inr l', g') /\ Permutation l l';
  uniform_range : forall a b g,
    exists x g', random_uniform a b g = (inr x, g') /\ (Rmin a b <= x <= Rmax a b)%R
}.

(** The [**] operator on floats. *)
Class FloatPow : Type := { float_pow : R -> R -> R }.

Class FloatPowLaws `{FloatPow} : Prop := {
  float_pow_pos : forall x a, (0 < x)%R -> (0 < float_pow x a)%R
}.

(** A generator for deterministic runs: a draw of [n] indices from
    [[low, high)] returns [low, low+1, ...] and raises [ValueError] when
    the count is negative or the range is empty or too small; a shuffle
    leaves the order; a uniform float is the upper bound. *)
Definition first_fit_randint (low high n : Z) (p : option (list R))
    (replace : bool) : M unit (list Z) :=
  if n <? 0 then raise ValueError
  else if high <=? low then raise ValueError
  else if high - low <? n then raise ValueError
  else ret (map (fun k => low + k) (arange n)).

Definition first_fit_gen : RandomGen unit := {|
  np_random_randint := first_fit_randint;
  np_random_shuffle := fun l => ret l;
  random_uniform := fun a b => ret b
|}.

(** numpy as released: [randint] has no [p] or [replace] parameter and
    rejects the call with [TypeError] before drawing anything. *)
Definition numpy_gen : RandomGen unit := {|
  np_random_randint := fun _ _ _ _ _ => raise TypeError;
  np_random_shuffle := fun l => ret l;
  random_uniform := fun a b => ret a
|}.

(** [x ** a] on a non-negative base: the real power for [x > 0], and
    [0 ** 0 = 1], [0 ** a = 0] for [a > 0].  ([0 ** a] for [a < 0] is
    [inf] in numpy, which has no counterpart here; the value 0 given to it
    is never relied on.) *)
Definition np_power (x a : R) : R :=
  if Req_dec_T x 0 then (if Req_dec_T a 0 then 1%R else 0%R) else Rpower x a.

#[export] Instance real_pow : FloatPow := {| float_pow := np_power |}.

Definition eps6 : R := (1 / 1000000)%R.
Definition eps8 : R := (1 / 100000000)%R.

Fixpoint sum_R (l : list R) : R :=
  match l with
  | [] => 0%R
  | x :: l' => (x + sum_R l')%R
  end.

(** [arr.max()]; numpy refuses an empty array. *)
Definition np_max (l : list R) : exn + R :=
  match l with
  | [] => inl ValueError
  | x :: l' => inr (fold_left Rmax l' x)
  end.

(** Frames leave the buffer as floats scaled to [[0, 1]]. *)
Definition to_float_frame (f : Frame) : list R :=
  map (fun x => (IZR x / 255)%R) f.

(** ** Uniform sampling *)

Record Batch (D : Type) : Type := mkBatch {
  b_states : list (list R);
  b_actions : list Z;
  b_rewards : list R;
  b_next_states : list (list R);
  b_dones : list D
}.
Arguments mkBatch {D}.
Arguments b_states {D}.
Arguments b_actions {D}.
Arguments b_rewards {D}.
Arguments b_next_states {D}.
Arguments b_dones {D}.

(** The rows read at [indices], converted as [sample] converts them. *)
Definition gather {D} (conv : R -> D) (self : ReplayBuffer) (indices : list Z)
  : exn + Batch D :=
  match take (states self) indices, take (actions self) indices,
        take (rewards self) indices, take (next_states self) indices,
        take (dones self) indices with
  | inr st, inr a, inr r, inr ns, inr d =>
      inr (mkBatch (map to_float_frame st) a r (map to_float_frame ns) (map conv d))
  | inl e, _, _, _, _ => inl e
  | _, inl e, _, _, _ => inl e
  | _, _, inl e, _, _ => inl e
  | _, _, _, inl e, _ => inl e
  | _, _, _, _, inl e => inl e
  end.

Definition nonzero (x : R) : bool := if Req_dec_T x 0 then false else true.

(** The index draw of [ReplayBuffer.sample]. *)
Definition sample_indices {G} `{RandomGen G} (self : ReplayBuffer)
    (batch_size : Z) : M G (list Z) :=
  indices <- np_random_randint 0 (size self - 1) batch_size None false ;;
  np_random_shuffle indices.

(** [ReplayBuffer.sample] *)
Definition sample {G} `{RandomGen G} (self : ReplayBuffer) (batch_size : Z)
  : M G (Batch bool) :=
  indices <- sample_indices self batch_size ;;
  lift (gather nonzero self indices).

(** ** PrioritizedReplayBuffer *)

Record PrioritizedReplayBuffer : Type := mkPrioritizedReplayBuffer {
  base : ReplayBuffer;
  alpha : R;
  priorities : list R;
  max_priority : R
}.

Definition PrioritizedReplayBuffer_init (capacity : Z) (alpha : R)
  : exn + PrioritizedReplayBuffer :=
  match ReplayBuffer_init capacity with
  | inl e => inl e
  | inr b => inr {| base := b; alpha := alpha;
                    priorities := repeat 0%R (Z.to_nat capacity);
                    max_priority := 1%R |}
  end.

Definition set_base (v : ReplayBuffer) (b : PrioritizedReplayBuffer) :=
  mkPrioritizedReplayBuffer v (alpha b) (priorities b) (max_priority b).
Definition set_priorities (v : list R) (b : PrioritizedReplayBuffer) :=
  mkPrioritizedReplayBuffer (base b) (alpha b) v (max_priority b).
Definition set_max_priority (v : R) (b : PrioritizedReplayBuffer) :=
  mkPrioritizedReplayBuffer (base b) (alpha b) (priorities b) v.

(** A method of the parent class run on the child object. *)
Definition super {A} (c : M ReplayBuffer A) : M PrioritizedReplayBuffer A :=
  fun self => let (r, b') := c (base self) in (r, set_base b' self).

(** [PrioritizedReplayBuffer.push] *)
Definition prio_push (arg : PushArg) : M PrioritizedReplayBuffer unit :=
  self <- get_self ;;
  let start := position (base self) in
  super (push arg) ;;;
  let batch_size := match arg with
                    | Batched ts => Z.of_nat (length ts)
                    | Single _ => 1
                    end in
  let idxs := map (fun k => np_mod (k + start) (capacity (base self)))
                  (arange batch_size) in
  self <- get_self ;;
  v <- lift (put (priorities self) idxs
                 (repeat (max_priority self) (length idxs))) ;;
  modify (set_priorities v).

(** The sampling distribution built by [PrioritizedReplayBuffer.sample]:
    [priorities[:size] ** alpha], normalised by its sum, or the uniform
    distribution when the sum is zero. *)
Definition prob_sum `{FloatPow} (self : PrioritizedReplayBuffer) : R :=
  sum_R (map (fun p => float_pow p (alpha self))
             (firstn (Z.to_nat (size (base self))) (priorities self))).

Definition sample_probs `{FloatPow} (self : PrioritizedReplayBuffer) : list R :=
  let prios := firstn (Z.to_nat (size (base self))) (priorities self) in
  let probs := map (fun p => float_pow p (alpha self)) prios in
  if Req_dec_T (sum_R probs) 0
  then map (fun _ => (1 / IZR (size (base self)))%R) probs
  else map (fun p => (p / sum_R probs)%R) probs.

Record WeightedBatch : Type := mkWeightedBatch {
  wb_batch : Batch R;
  wb_weights : list R;
  wb_indices : list Z
}.

(** The importance weights of the flat variant. *)
Definition flat_weights `{FloatPow} (total : Z) (probs : list R)
    (indices : list Z) (beta : R) : exn + list R :=
  match take probs indices with
  | inl e => inl e
  | inr ps =>
      let weights := map (fun p => float_pow (IZR total * p) (- beta)) ps in
      match np_max weights with
      | inl e => inl e
      | inr m => inr (map (fun w => (w / (m + eps8))%R) weights)
      end
  end.

(** [PrioritizedReplayBuffer.sample] *)
Definition prio_sample {G} `{RandomGen G} `{FloatPow}
    (self : PrioritizedReplayBuffer) (batch_size : Z) (beta : R)
  : M G WeightedBatch :=
  let probs := sample_probs self in
  indices <- np_random_randint 0 (size (base self) - 1) batch_size
                               (Some probs) false ;;
  indices <- np_random_shuffle indices ;;
  batch <- lift (gather (fun d => d) (base self) indices) ;;
  weights <- lift (flat_weights (len (base self)) probs indices beta) ;;
  ret (mkWeightedBatch batch weights indices).

(** The priority stored by the flat variant for one TD error. *)
Definition clamp_priority (prio : R) : R := Rmin (Rabs prio + eps6) 1.

(** The body of the loop of [update_priorities], on one
    [(idx, prio)] pair. *)
Definition prio_update_one (ip : Z * R) : M PrioritizedReplayBuffer unit :=
  let priority := clamp_priority (snd ip) in
  self <- get_self ;;
  v <- lift (setitem (priorities self) (fst ip) priority) ;;
  modify (set_priorities v) ;;;
  modify (fun self => set_max_priority (Rmax (max_priority self) priority) self).

(** [PrioritizedReplayBuffer.update_priorities] *)
Definition prio_update_priorities (indices : list Z) (new_priorities : list R)
  : M PrioritizedReplayBuffer unit :=
  for_each (combine indices new_priorities) prio_update_one.

(** ** SumTree *)

Record SumTree : Type := mkSumTree {
  st_capacity : Z;
  tree : list R;
  data : list (option Transition);
  write : Z;
  n_entries : Z
}.

(** [SumTree.__init__]: [2 * capacity - 1] zeroed nodes and [capacity]
    empty payload slots. *)
Definition SumTree_init (capacity : Z) : exn + SumTree :=
  if 2 * capacity - 1 <? 0 then inl ValueError
  else inr {| st_capacity := capacity;
              tree := repeat 0%R (Z.to_nat (2 * capacity - 1));
              data := repeat None (Z.to_nat capacity);
              write := 0;
              n_entries := 0 |}.

Definition set_tree (v : list R) (t : SumTree) : SumTree :=
  mkSumTree (st_capacity t) v (data t) (write t) (n_entries t).
Definition set_data (v : list (option Transition)) (t : SumTree) : SumTree :=
  mkSumTree (st_capacity t) (tree t) v (write t) (n_entries t).
Definition set_write (v : Z) (t : SumTree) : SumTree :=
  mkSumTree (st_capacity t) (tree t) (data t) v (n_entries t).
Definition set_n_entries (v : Z) (t : SumTree) : SumTree :=
  mkSumTree (st_capacity t) (tree t) (data t) (write t) v.

(** [SumTree._propagate].  The method calls itself; [depth] is the number
    of nested calls the interpreter still allows, and running out of it is
    Python's [RecursionError]. *)
Fixpoint _propagate (depth : nat) (idx : Z) (change : R) : M SumTree unit :=
  match depth with
  | O => raise RecursionError
  | S depth' =>
      let parent := py_floordiv (idx - 1) 2 in
      self <- get_self ;;
      old <- lift (getitem (tree self) parent) ;;
      v <- lift (setitem (tree self) parent (old + change)%R) ;;
      modify (set_tree v) ;;;
      if negb (parent =? 0) then _propagate depth' parent change
      else ret tt
  end.

(** [SumTree._retrieve] *)
Fixpoint _retrieve (depth : nat) (self : SumTree) (idx : Z) (s : R) : exn + Z :=
  match depth with
  | O => inl RecursionError
  | S depth' =>
      let left := 2 * idx + 1 in
      let right := left + 1 in
      if Z.of_nat (length (tree self)) <=? left then inr idx
      else
        match getitem (tree self) left with
        | inl e => inl e
        | inr tl =>
            if Rle_dec s tl then _retrieve depth' self left s
            else _retrieve depth' self right (s - tl)%R
        end
  end.

(** [SumTree.total] *)
Definition total (self : SumTree) : exn + R := getitem (tree self) 0.

(** [SumTree.update] *)
Definition update (depth : nat) (idx : Z) (p : R) : M SumTree unit :=
  self <- get_self ;;
  old <- lift (getitem (tree self) idx) ;;
  let change := (p - old)%R in
  v <- lift (setitem (tree self) idx p) ;;
  modify (set_tree v) ;;;
  _propagate depth idx change.

(** [SumTree.add] *)
Definition add (depth : nat) (p : R) (d : Transition) : M SumTree unit :=
  self <- get_self ;;
  let idx := write self + st_capacity self - 1 in
  v <- lift (setitem (data self) (write self) (Some d)) ;;
  modify (set_data v) ;;;
  update depth idx p ;;;
  self <- get_self ;;
  w <- lift (py_mod (write self + 1) (st_capacity self)) ;;
  modify (set_write w) ;;;
  modify (fun self => set_n_entries (Z.min (n_entries self + 1) (st_capacity self)) self).

(** [SumTree.get] *)
Definition get (depth : nat) (self : SumTree) (s : R)
  : exn + (Z * R * option Transition) :=
  match _retrieve depth self 0 s with
  | inl e => inl e
  | inr idx =>
      let data_idx := idx - st_capacity self + 1 in
      match getitem (tree self) idx, getitem (data self) data_idx with
      | inr p, inr d => inr (idx, p, d)
      | inl e, _ => inl e
      | _, inl e => inl e
      end
  end.

(** ** PERBufferSumTree *)

Record PERBufferSumTree : Type := mkPERBufferSumTree {
  per_tree : SumTree;
  per_alpha : R;
  per_epsilon : R;
  per_max_priority : R
}.

Definition PERBufferSumTree_init (max_len : Z) (alpha : R)
  : exn + PERBufferSumTree :=
  match SumTree_init max_len with
  | inl e => inl e
  | inr t => inr {| per_tree := t; per_alpha := alpha;
                    per_epsilon := eps6; per_max_priority := 1%R |}
  end.

Definition set_per_tree (v : SumTree) (b : PERBufferSumTree) :=
  mkPERBufferSumTree v (per_alpha b) (per_epsilon b) (per_max_priority b).
Definition set_per_max_priority (v : R) (b : PERBufferSumTree) :=
  mkPERBufferSumTree (per_tree b) (per_alpha b) (per_epsilon b) v.

(** A method of the tree run on the buffer that owns it. *)
Definition on_tree {A} (c : M SumTree A) : M PERBufferSumTree A :=
  fun self => let (r, t') := c (per_tree self) in (r, set_per_tree t' self).

(** [PERBufferSumTree.push] *)
Definition per_push (depth : nat) (d : Transition) : M PERBufferSumTree unit :=
  self <- get_self ;;
  on_tree (add depth (per_max_priority self) d).

(** [PERBufferSumTree.__len__] *)
Definition per_len (self : PERBufferSumTree) : Z := n_entries (per_tree self).

(** The [while] loop of [PERBufferSumTree.sample].  It has no bound of its
    own: [rounds] is the number of iterations the model follows, and
    [None] means the loop was still running after that many. *)
Fixpoint sample_loop {G} `{RandomGen G} (rounds depth : nat) (t : SumTree)
    (batch_size : Z) (acc : list (Z * R * Transition))
  : M G (option (list (Z * R * Transition))) :=
  if batch_size <=? Z.of_nat (length acc) then ret (Some acc)
  else
    match rounds with
    | O => ret None
    | S rounds' =>
        tot <- lift (total t) ;;
        s <- random_uniform 0 tot ;;
        r <- lift (get depth t s) ;;
        match r with
        | (idx, p, Some d) =>
            sample_loop rounds' depth t batch_size (acc ++ [(idx, p, d)])
        | (_, _, None) => sample_loop rounds' depth t batch_size acc
        end
    end.

Record TreeBatch : Type := mkTreeBatch {
  tb_transitions : list Transition;
  tb_weights : list R;
  tb_idxs : list Z
}.

(** The importance weights of the tree variant. *)
Definition tree_weights `{FloatPow} (n : Z) (tot : R) (ps : list R) (beta : R)
  : exn + list R :=
  let weights := map (fun p => float_pow (IZR n * (p / tot)) (- beta)) ps in
  match np_max weights with
  | inl e => inl e
  | inr m => inr (map (fun w => (w / m)%R) weights)
  end.

(** [PERBufferSumTree.sample]; the result is [None] when the [while] loop
    outlasts [rounds]. *)
Definition per_sample {G} `{RandomGen G} `{FloatPow} (rounds depth : nat)
    (self : PERBufferSumTree) (batch_size : Z) (beta : R)
  : M G (option TreeBatch) :=
  if n_entries (per_tree self) <? batch_size
  then raise (AssertionError "Not enough in buffer")
  else
    r <- sample_loop rounds depth (per_tree self) batch_size [] ;;
    match r with
    | None => ret None
    | Some [] => raise ValueError
    | Some picked =>
        tot <- lift (total (per_tree self)) ;;
        weights <- lift (tree_weights (n_entries (per_tree self)) tot
                                      (map (fun x => snd (fst x)) picked) beta) ;;
        ret (Some (mkTreeBatch (map snd picked) weights
                               (map (fun x => fst (fst x)) picked)))
    end.

(** The priority stored by the tree variant for one TD error. *)
Definition tree_priority `{FloatPow} (self : PERBufferSumTree) (p : R) : R :=
  float_pow (Rabs p + per_epsilon self) (per_alpha self).

(** The body of the loop of [update_priorities], on one [(idx, p)]
    pair. *)
Definition per_update_one `{FloatPow} (depth : nat) (ip : Z * R)
  : M PERBufferSumTree unit :=
  self <- get_self ;;
  let new_p := tree_priority self (snd ip) in
  on_tree (update depth (fst ip) new_p) ;;;
  modify (fun self => set_per_max_priority (Rmax (per_max_priority self) new_p) self).

(** [PERBufferSumTree.update_priorities] *)
Definition per_update_priorities `{FloatPow} (depth : nat) (indices : list Z)
    (prios : list R) : M PERBufferSumTree unit :=
  for_each (combine indices prios) (per_update_one depth).

(** ** Predicates used in the statements *)

(** The shape of a buffer built by [ReplayBuffer_init] and only changed by
    [push]. *)
Record ring_shape (b : ReplayBuffer) : Prop := {
  rs_states : Z.of_nat (length (states b)) = capacity b;
  rs_actions : Z.of_nat (length (actions b)) = capacity b;
  rs_rewards : Z.of_nat (length (rewards b)) = capacity b;
  rs_next_states : Z.of_nat (length (next_states b)) = capacity b;
  rs_dones : Z.of_nat (length (dones b)) = capacity b;
  rs_position : capacity b = 0 /\ position b = 0 \/ 0 <= position b < capacity b;
  rs_size : 0 <= size b <= capacity b
}.

(** [ring_holds N ts b]: [b] is what the single pushes [ts] leave in a
    ring of capacity [N]: every push that is still retained, the [j]-th
    with [k - N <= j < k], lies at slot [j mod N]. *)
Definition ring_holds (N : Z) (ts : list Transition) (b : ReplayBuffer) : Prop :=
  let k := Z.of_nat (length ts) in
  ring_shape b /\ capacity b = N /\ position b = k mod N /\
  size b = Z.min k N /\
  forall j, Z.max 0 (k - N) <= j < k ->
            row_at b (Z.to_nat (j mod N))
            = nth_error (map store_row ts) (Z.to_nat j).

(** The value at position [i] of a float array ([0] outside it). *)
Definition node (t : list R) (i : Z) : R := nth (Z.to_nat i) t 0%R.
Arguments node : simpl never.

(** The sum of the leaves of a tree of capacity [N]: positions [N - 1]
    and up. *)
Definition leaf_sum (N : Z) (t : list R) : R :=
  sum_R (skipn (Z.to_nat (N - 1)) t).

(** The sum-tree invariant on a node array of capacity [N]. *)
Definition sum_invariant (N : Z) (t : list R) : Prop :=
  Z.of_nat (length t) = 2 * N - 1 /\
  (forall i, 0 <= i < N - 1 ->
             node t i = (node t (2 * i + 1) + node t (2 * i + 2))%R) /\
  node t 0 = leaf_sum N t.

(** The tree while [_propagate] is at [cur]: the parent of [cur], and
    with it the root, is still short by [change]. *)
Definition pending (N : Z) (t : list R) (cur : Z) (change : R) : Prop :=
  Z.of_nat (length t) = 2 * N - 1 /\
  (forall i, 0 <= i < N - 1 ->
             (node t i + (if i =? (cur - 1) / 2 then change else 0)
              = node t (2 * i + 1) + node t (2 * i + 2))%R) /\
  (node t 0 + change)%R = leaf_sum N t.

Definition same_fields (t t' : SumTree) : Prop :=
  st_capacity t' = st_capacity t /\ data t' = data t /\
  write t' = write t /\ n_entries t' = n_entries t /\
  length (tree t') = length (tree t).

(** A sequence of [update] calls. *)
Definition update_all (depth : nat) (ups : list (Z * R)) : M SumTree unit :=
  for_each ups (fun ip => update depth (fst ip) (snd ip)).

(** The TD error of the last pair that addresses index [i]. *)
Fixpoint last_write (i : Z) (pairs : list (Z * R)) : option R :=
  match pairs with
  | [] => None
  | (j, e) :: rest =>
      match last_write i rest with
      | Some e' => Some e'
      | None => if i =? j then Some e else None
      end
  end.

(** The shape of a flat priority buffer: a well-shaped ring and one
    priority per slot. *)
Definition prio_shape (self : PrioritizedReplayBuffer) : Prop :=
  ring_shape (base self) /\
  Z.of_nat (length (priorities self)) = capacity (base self).

(** The states of a flat priority buffer that the methods can produce,
    counting the state an interrupted call leaves behind.  [sample] reads
    the buffer and changes only the generator, so it adds no state. *)
Inductive flat_reachable : PrioritizedReplayBuffer -> Prop :=
| flat_init (N : Z) (a : R) (b : PrioritizedReplayBuffer) :
    PrioritizedReplayBuffer_init N a = inr b -> flat_reachable b
| flat_push (b b' : PrioritizedReplayBuffer) (arg : PushArg) (r : exn + unit) :
    flat_reachable b -> prio_push arg b = (r, b') -> flat_reachable b'
| flat_update (b b' : PrioritizedReplayBuffer) (indices : list Z)
              (tds : list R) (r : exn + unit) :
    flat_reachable b -> prio_update_priorities indices tds b = (r, b') ->
    flat_reachable b'.

(** The same for the sum-tree buffer. *)
Inductive per_reachable `{FloatPow} : PERBufferSumTree -> Prop :=
| per_init (N : Z) (a : R) (b : PERBufferSumTree) :
    PERBufferSumTree_init N a = inr b -> per_reachable b
| per_pushed (depth : nat) (b b' : PERBufferSumTree) (d : Transition)
             (r : exn + unit) :
    per_reachable b -> per_push depth d b = (r, b') -> per_reachable b'
| per_updated (depth : nat) (b b' : PERBufferSumTree) (indices : list Z)
              (tds : list R) (r : exn + unit) :
    per_reachable b -> per_update_priorities depth indices tds b = (r, b') ->
    per_reachable b'.

(** What holds in every reachable state of the flat variant: one
    priority per slot, the cursor equal to the size until the ring is
    full, positive priorities on the occupied slots. *)
Definition flat_inv (b : PrioritizedReplayBuffer) : Prop :=
  prio_shape b /\
  (size (base b) < capacity (base b) -> position (base b) = size (base b)) /\
  (forall i, 0 <= i < size (base b) -> (0 < node (priorities b) i)%R) /\
  (1 <= max_priority b)%R.

Definition tree_shape (t : SumTree) : Prop :=
  1 <= st_capacity t /\
  Z.of_nat (length (tree t)) = 2 * st_capacity t - 1 /\
  Z.of_nat (length (data t)) = st_capacity t /\
  0 <= write t < st_capacity t.

Definition per_inv (b : PERBufferSumTree) : Prop :=
  tree_shape (per_tree b) /\ (1 <= per_max_priority b)%R.



(** ** Concrete buffers for the examples *)

Definition demo_transition (a : Z) : Transition :=
  mkTransition zero_frame a 0%R zero_frame false.

Definition demo3 : list Transition :=
  [demo_transition 10; demo_transition 11; demo_transition 12].

(** A full ring of capacity 3. *)
Definition ring3 : ReplayBuffer :=
  mkReplayBuffer 3 [zero_frame; zero_frame; zero_frame] [10; 11; 12]
                 [0; 0; 0]%R [zero_frame; zero_frame; zero_frame]
                 [0; 0; 0]%R 0 3.

(** An empty ring of capacity 3. *)
Definition ring3_empty : ReplayBuffer :=
  mkReplayBuffer 3 [zero_frame; zero_frame; zero_frame] [0; 0; 0]
                 [0; 0; 0]%R [zero_frame; zero_frame; zero_frame]
                 [0; 0; 0]%R 0 0.

(** Flat priority buffers over them: seeded priorities, all-zero
    priorities on a full ring, and an empty buffer. *)
Definition flat3 : PrioritizedReplayBuffer :=
  mkPrioritizedReplayBuffer ring3 (6 / 10)%R [1; 1; 1]%R 1%R.


Definition flat3_empty : PrioritizedReplayBuffer :=
  mkPrioritizedReplayBuffer ring3_empty (6 / 10)%R [0; 0; 0]%R 1%R.

(** A full sum-tree buffer of capacity 4 in which every leaf holds the
    seed priority 1. *)
Definition tree4 : PERBufferSumTree :=
  mkPERBufferSumTree
    (mkSumTree 4 [4; 2; 2; 1; 1; 1; 1]%R
               [Some (demo_transition 0); Some (demo_transition 1);
                Some (demo_transition 2); Some (demo_transition 3)] 0 4)
    (6 / 10)%R eps6 1%R.

(** Fresh buffers, as the constructors build them, and the state after
    one push. *)
Definition ring2_fresh : ReplayBuffer :=
  mkReplayBuffer 2 [zero_frame; zero_frame] [0; 0] [0; 0]%R
                 [zero_frame; zero_frame] [0; 0]%R 0 0.

Definition flat2_fresh : PrioritizedReplayBuffer :=
  mkPrioritizedReplayBuffer ring2_fresh (6 / 10)%R [0; 0]%R 1%R.

Definition flat2_pushed : PrioritizedReplayBuffer :=
  snd (prio_push (Single (demo_transition 7)) flat2_fresh).

Definition tree4_fresh : PERBufferSumTree :=
  mkPERBufferSumTree
    (mkSumTree 4 [0; 0; 0; 0; 0; 0; 0]%R [None; None; None; None] 0 0)
    (6 / 10)%R eps6 1%R.

Definition tree4_pushed : PERBufferSumTree :=
  snd (per_push 1000 (demo_transition 7) tree4_fresh).

(** ** Further definitions *)

(** What [a[idx] = vals] leaves in [a] when every index is in range. *)
Definition scatter {A} (a : list A) (idx : list Z) (vals : list A) : list A :=
  fold_left (fun acc iv =>
               match norm_index (length a) (fst iv) with
               | Some k => list_set acc k (snd iv)
               | None => acc
               end) (combine idx vals) a.

(** The rings that [ReplayBuffer.__init__] and [push] can produce,
    counting the ring a [push] that raised leaves behind. *)
Inductive ring_reachable : ReplayBuffer -> Prop :=
| ring_init (N : Z) (b : ReplayBuffer) :
    ReplayBuffer_init N = inr b -> ring_reachable b
| ring_push (b b' : ReplayBuffer) (arg : PushArg) (r : exn + unit) :
    ring_reachable b -> push arg b = (r, b') -> ring_reachable b'.

(** Every stored sample is an 8-bit value. *)
Definition uint8_frame (f : Frame) : Prop := Forall (fun x => 0 <= x < 256) f.

Definition uint8_frames (b : ReplayBuffer) : Prop :=
  Forall uint8_frame (states b) /\ Forall uint8_frame (next_states b).

(** A sequence of single-transition pushes into the priority buffers. *)
Definition prio_push_all (ts : list Transition)
  : M PrioritizedReplayBuffer unit :=
  for_each ts (fun t => prio_push (Single t)).

Definition per_push_all (depth : nat) (ts : list Transition)
  : M PERBufferSumTree unit :=
  for_each ts (per_push depth).

(** The leaves below node [i] of a node array of length [n], from left to
    right, as [_retrieve] walks them; [depth] bounds the height. *)
Fixpoint leaves_under (depth : nat) (n : Z) (i : Z) : list Z :=
  match depth with
  | O => []
  | S depth' =>
      if n <=? 2 * i + 1 then [i]
      else leaves_under depth' n (2 * i + 1) ++ leaves_under depth' n (2 * i + 2)
  end.

(** The exploration rate [GameEnv.train] computes at the top of its loop
    from the frame count:
    [max(epsilon_min, epsilon_start - (epsilon_start - epsilon_min) *
    min(total_frames / epsilon_decay_frames, 1.0))].  [total_frames] is
    the integer counter of the loop and [epsilon_decay_frames] the
    configured number of frames; [/] raises on a zero divisor. *)
Definition train_epsilon (epsilon_start epsilon_min : R)
    (epsilon_decay_frames total_frames : Z) : exn + R :=
  if epsilon_decay_frames =? 0 then inl ZeroDivisionError
  else inr (Rmax epsilon_min
                 (epsilon_start
                  - (epsilon_start - epsilon_min)
                    * Rmin (IZR total_frames / IZR epsilon_decay_frames) 1))%R.

(** [tree_holds N ts b]: [b] is what the pushes [ts] leave in a sum-tree
    buffer of capacity [N]: the retained push [j] lies in payload slot
    [j mod N] and its leaf holds the seed priority 1; slots not yet
    written are empty with priority 0. *)
Definition tree_holds (N : Z) (ts : list Transition) (b : PERBufferSumTree)
  : Prop :=
  let k := Z.of_nat (length ts) in
  let t := per_tree b in
  st_capacity t = N /\ Z.of_nat (length (data t)) = N /\
  sum_invariant N (tree t) /\
  write t = k mod N /\ n_entries t = Z.min k N /\
  per_max_priority b = 1%R /\
  node (tree t) 0 = IZR (Z.min k N) /\
  (forall j, Z.max 0 (k - N) <= j < k ->
             nth_error (data t) (Z.to_nat (j mod N))
             = Some (nth_error ts (Z.to_nat j)) /\
             node (tree t) (N - 1 + j mod N) = 1%R) /\
  (forall s, k <= s < N ->
             nth_error (data t) (Z.to_nat s) = Some None /\
             node (tree t) (N - 1 + s) = 0%R).
(** * Properties *)

(** ** Lists addressed by Python indices *)

Lemma norm_index_in_range (n : nat) (i : Z) :
  0 <= i < Z.of_nat n -> norm_index n i = Some (Z.to_nat i).
Proof.
  intros Hi. unfold norm_index.
  destruct (0 <=? i) eqn:E1; [| apply Z.leb_gt in E1; lia].
  destruct (i <? Z.of_nat n) eqn:E2; [| apply Z.ltb_ge in E2; lia].
  reflexivity.
Qed.

Lemma norm_index_negative (n : nat) (i : Z) :
  - Z.of_nat n <= i < 0 -> norm_index n i = Some (Z.to_nat (Z.of_nat n + i)).
Proof.
  intros Hi. unfold norm_index.
  destruct (0 <=? i) eqn:E1; [apply Z.leb_le in E1; lia |].
  destruct (- Z.of_nat n <=? i) eqn:E2; [| apply Z.leb_gt in E2; lia].
  destruct (i <? 0) eqn:E3; [| apply Z.ltb_ge in E3; lia].
  reflexivity.
Qed.

Lemma norm_index_outside (n : nat) (i : Z) :
  i < - Z.of_nat n \/ Z.of_nat n <= i -> norm_index n i = None.
Proof.
  intros Hi. unfold norm_index.
  destruct (0 <=? i) eqn:E1, (i <? Z.of_nat n) eqn:E2,
           (- Z.of_nat n <=? i) eqn:E3, (i <? 0) eqn:E4; simpl; try reflexivity;
    rewrite ?Z.leb_le, ?Z.ltb_lt, ?Z.leb_gt, ?Z.ltb_ge in *; lia.
Qed.

Lemma norm_index_bound (n : nat) (i : Z) (k : nat) :
  norm_index n i = Some k -> (k < n)%nat.
Proof.
  unfold norm_index.
  destruct (0 <=? i) eqn:E1, (i <? Z.of_nat n) eqn:E2,
           (- Z.of_nat n <=? i) eqn:E3, (i <? 0) eqn:E4; simpl;
    intros Hk; inversion Hk; subst;
    rewrite ?Z.leb_le, ?Z.ltb_lt, ?Z.leb_gt, ?Z.ltb_ge in *; lia.
Qed.

Lemma list_set_length {A} (a : list A) (k : nat) (x : A) :
  length (list_set a k x) = length a.
Proof.
  revert k. induction a as [| y a IH]; intros [| k]; simpl; auto.
Qed.

Lemma nth_error_list_set_eq {A} (a : list A) (k : nat) (x : A) :
  (k < length a)%nat -> nth_error (list_set a k x) k = Some x.
Proof.
  revert k. induction a as [| y a IH]; intros [| k] Hk; simpl in *;
    try lia; auto. apply IH. lia.
Qed.

Lemma nth_error_list_set_neq {A} (a : list A) (k j : nat) (x : A) :
  k <> j -> nth_error (list_set a k x) j = nth_error a j.
Proof.
  revert k j. induction a as [| y a IH]; intros [| k] [| j] Hkj; simpl;
    try congruence; auto.
Qed.

Lemma nth_list_set_eq {A} (a : list A) (k : nat) (x d : A) :
  (k < length a)%nat -> nth k (list_set a k x) d = x.
Proof.
  intros Hk. apply nth_error_nth. now apply nth_error_list_set_eq.
Qed.

Lemma nth_list_set_neq {A} (a : list A) (k j : nat) (x d : A) :
  k <> j -> nth j (list_set a k x) d = nth j a d.
Proof.
  revert k j. induction a as [| y a IH]; intros [| k] [| j] Hkj; simpl;
    try congruence; auto.
Qed.

Lemma put_single {A} (a : list A) (i : Z) (v : A) (k : nat) :
  norm_index (length a) i = Some k -> put a [i] [v] = inr (list_set a k v).
Proof.
  intros Hk. unfold put. simpl. now rewrite Hk.
Qed.

Lemma fold_list_set_length {A} (n : nat) (l : list (Z * A)) (a : list A) :
  length (fold_left (fun acc iv =>
                       match norm_index n (fst iv) with
                       | Some k => list_set acc k (snd iv)
                       | None => acc
                       end) l a) = length a.
Proof.
  revert a. induction l as [| iv l IH]; intros a; simpl.
  - reflexivity.
  - rewrite IH. destruct (norm_index n (fst iv)); [apply list_set_length | reflexivity].
Qed.

Lemma put_length {A} (a : list A) (idx : list Z) (vals a' : list A) :
  put a idx vals = inr a' -> length a' = length a.
Proof.
  unfold put. destruct (forallb _ idx); [| discriminate].
  intros H. inversion H; subst; clear H. apply fold_list_set_length.
Qed.

(** ** The ring of [ReplayBuffer] *)

Lemma ReplayBuffer_init_shape (N : Z) (b : ReplayBuffer) :
  ReplayBuffer_init N = inr b ->
  ring_shape b /\ capacity b = N /\ position b = 0 /\ size b = 0.
Proof.
  unfold ReplayBuffer_init. destruct (N <? 0) eqn:E; [discriminate |].
  apply Z.ltb_ge in E. intros H. inversion H; subst; clear H.
  repeat split; simpl; rewrite ?repeat_length; try lia.
Qed.

(** One single-transition [push] on a buffer with room: the slot under
    the cursor is overwritten in each array, the cursor advances modulo
    the capacity and the size is clamped. *)
Lemma push_single_run (b : ReplayBuffer) (t : Transition) :
  ring_shape b -> 0 < capacity b ->
  let k := Z.to_nat (position b) in
  push (Single t) b =
  (inr tt,
   mkReplayBuffer (capacity b)
     (list_set (states b) k (astype_uint8 (t_state t)))
     (list_set (actions b) k (astype_int64 (t_action t)))
     (list_set (rewards b) k (t_reward t))
     (list_set (next_states b) k (astype_uint8 (t_next_state t)))
     (list_set (dones b) k (float_of_bool (t_done t)))
     ((position b + 1) mod capacity b)
     (Z.min (size b + 1) (capacity b))).
Proof.
  intros [H1 H2 H3 H4 H5 H6 H7] Hc k.
  assert (Hp : 0 <= position b < capacity b) by lia.
  assert (Hm : np_mod (0 + position b) (capacity b) = position b).
  { unfold np_mod. destruct (capacity b =? 0) eqn:E; [apply Z.eqb_eq in E; lia |].
    apply Z.mod_small. lia. }
  unfold push, bind, get_self, lift, modify. cbn [expand_dims length Z.of_nat].
  change (arange (Z.pos (Pos.of_succ_nat 0))) with [0].
  cbn [map]. rewrite Hm.
  rewrite (put_single (states b) _ _ k) by (apply norm_index_in_range; lia).
  rewrite (put_single (actions b) _ _ k) by (apply norm_index_in_range; lia).
  rewrite (put_single (rewards b) _ _ k) by (apply norm_index_in_range; lia).
  rewrite (put_single (next_states b) _ _ k) by (apply norm_index_in_range; lia).
  rewrite (put_single (dones b) _ _ k) by (apply norm_index_in_range; lia).
  unfold py_mod. destruct (capacity b =? 0) eqn:E; [apply Z.eqb_eq in E; lia |].
  reflexivity.
Qed.

Lemma row_at_overwrite (b : ReplayBuffer) (t : Transition) (k s : nat)
      (p sz : Z) :
  ring_shape b -> (k < Z.to_nat (capacity b))%nat ->
  row_at (mkReplayBuffer (capacity b)
            (list_set (states b) k (astype_uint8 (t_state t)))
            (list_set (actions b) k (astype_int64 (t_action t)))
            (list_set (rewards b) k (t_reward t))
            (list_set (next_states b) k (astype_uint8 (t_next_state t)))
            (list_set (dones b) k (float_of_bool (t_done t))) p sz) s
  = if Nat.eqb k s then Some (store_row t) else row_at b s.
Proof.
  intros [H1 H2 H3 H4 H5 _ _] Hk. unfold row_at. simpl.
  destruct (Nat.eqb k s) eqn:E.
  - apply Nat.eqb_eq in E. subst s.
    rewrite !nth_error_list_set_eq by lia. reflexivity.
  - apply Nat.eqb_neq in E.
    rewrite !nth_error_list_set_neq by assumption. reflexivity.
Qed.

Lemma ring_step (N : Z) (ts : list Transition) (b : ReplayBuffer)
      (t : Transition) :
  0 < N -> ring_holds N ts b ->
  exists b', push (Single t) b = (inr tt, b') /\ ring_holds N (ts ++ [t]) b'.
Proof.
  intros HN (Hs & Hc & Hp & Hz & Hrows).
  assert (Hpos : 0 <= position b < N).
  { rewrite Hp. apply Z.mod_pos_bound. lia. }
  eexists. split.
  { apply push_single_run; [assumption | lia]. }
  set (k := Z.of_nat (length ts)) in *.
  assert (Hk' : Z.of_nat (length (ts ++ [t])) = k + 1).
  { rewrite length_app. simpl. lia. }
  unfold ring_holds. rewrite Hk'. cbv zeta.
  split; [| split; [| split; [| split]]].
  - destruct Hs as [H1 H2 H3 H4 H5 H6 H7].
    constructor; simpl; rewrite ?list_set_length; try assumption.
    + right. apply Z.mod_pos_bound. lia.
    + lia.
  - simpl. assumption.
  - simpl. rewrite Hc, Hp. rewrite Zplus_mod_idemp_l. reflexivity.
  - simpl. rewrite Hz, Hc. lia.
  - intros j Hj.
    rewrite row_at_overwrite by (assumption || lia).
    rewrite map_app. simpl map.
    destruct (Z.eq_dec j k) as [Heq | Hne].
    + rewrite Heq. rewrite Hp, Nat.eqb_refl.
      rewrite nth_error_app2 by (rewrite length_map; lia).
      rewrite length_map. replace (Z.to_nat k - length ts)%nat with 0%nat by lia.
      reflexivity.
    + assert (Hdiff : Z.to_nat (position b) <> Z.to_nat (j mod N)).
      { rewrite Hp. intros Heq.
        apply Z2Nat.inj in Heq; try (apply Z.mod_pos_bound; lia).
        assert (Hd : (k - j) mod N = 0).
        { rewrite Zminus_mod, Heq, Z.sub_diag. apply Z.mod_0_l. lia. }
        rewrite Z.mod_small in Hd by lia. lia. }
      apply Nat.eqb_neq in Hdiff. rewrite Hdiff.
      rewrite Hrows by lia.
      rewrite nth_error_app1 by (rewrite length_map; lia).
      reflexivity.
Qed.

Lemma push_all_ring (N : Z) (ts pre : list Transition) (b : ReplayBuffer) :
  0 < N -> ring_holds N pre b ->
  exists b', push_all ts b = (inr tt, b') /\ ring_holds N (pre ++ ts) b'.
Proof.
  intros HN. revert pre b.
  induction ts as [| t ts IH]; intros pre b Hb.
  - exists b. rewrite app_nil_r. split; [reflexivity | assumption].
  - destruct (ring_step N pre b t HN Hb) as (b1 & Hrun & Hb1).
    destruct (IH (pre ++ [t]) b1 Hb1) as (b2 & Hrun2 & Hb2).
    exists b2. split.
    + unfold push_all in *. simpl. unfold bind at 1. rewrite Hrun. exact Hrun2.
    + rewrite <- app_assoc in Hb2. exact Hb2.
Qed.

Lemma ring_holds_init (N : Z) (b : ReplayBuffer) :
  ReplayBuffer_init N = inr b -> 0 < N -> ring_holds N [] b.
Proof.
  intros Hb HN. destruct (ReplayBuffer_init_shape N b Hb) as (Hs & Hc & Hp & Hz).
  unfold ring_holds. cbn [length Z.of_nat].
  split; [assumption | split; [assumption | split; [| split]]].
  - rewrite Hp. symmetry. apply Z.mod_0_l. lia.
  - lia.
  - intros j Hj. lia.
Qed.

(** The ring after any number of single pushes into a fresh buffer. *)
Lemma push_all_from_init (N : Z) (ts : list Transition) :
  0 < N ->
  exists b0 b, ReplayBuffer_init N = inr b0 /\
               push_all ts b0 = (inr tt, b) /\ ring_holds N ts b.
Proof.
  intros HN.
  destruct (ReplayBuffer_init N) as [e | b0] eqn:E.
  { unfold ReplayBuffer_init in E. destruct (N <? 0) eqn:E'; [| discriminate].
    apply Z.ltb_lt in E'. lia. }
  destruct (push_all_ring N ts [] b0 HN (ring_holds_init N b0 E HN)) as (b & Hrun & Hb).
  exists b0, b. auto.
Qed.

(** C2 (as amended): after [k > N] single pushes into a fresh buffer of
    capacity [N >= 1], every push succeeded, [len()] is [N], the cursor is
    [k mod N], and slot [s] holds the pushed transition number
    [k - N + ((s - k) mod N)] (counting from 0): the retained pushes
    [k - N .. k - 1] lie in ring order starting at the cursor. *)
Theorem push_ring_order (N : Z) (ts : list Transition) :
  0 < N -> N < Z.of_nat (length ts) ->
  let k := Z.of_nat (length ts) in
  exists b0 b,
    ReplayBuffer_init N = inr b0 /\
    push_all ts b0 = (inr tt, b) /\
    len b = N /\ position b = k mod N /\
    forall s, 0 <= s < N ->
              row_at b (Z.to_nat s)
              = nth_error (map store_row ts) (Z.to_nat (k - N + (s - k) mod N)) /\
              0 <= k - N + (s - k) mod N < k.
Proof.
  intros HN Hk k.
  destruct (push_all_from_init N ts HN) as (b0 & b & Hb0 & Hrun & Hring).
  destruct Hring as (Hs & Hc & Hp & Hz & Hrows). fold k in Hp, Hz, Hrows.
  exists b0, b. repeat split; try assumption.
  - unfold len. rewrite Hz. lia.
  - set (j := k - N + (s - k) mod N).
    assert (Hm : 0 <= (s - k) mod N < N) by (apply Z.mod_pos_bound; lia).
    assert (Hj : j mod N = s).
    { unfold j. replace (k - N + (s - k) mod N) with ((s - k) mod N + (k - N)) by lia.
      rewrite Zplus_mod_idemp_l.
      replace (s - k + (k - N)) with (s + (-1) * N) by lia.
      rewrite Z.mod_add by lia. apply Z.mod_small. lia. }
    rewrite <- Hj at 1. apply Hrows. unfold j. lia.
  - pose proof (Z.mod_pos_bound (s - k) N HN). lia.
  - pose proof (Z.mod_pos_bound (s - k) N HN). lia.
Qed.

(** ** SumTree: propagation *)

Lemma getitem_node (t : list R) (i : Z) :
  0 <= i < Z.of_nat (length t) -> getitem t i = inr (node t i).
Proof.
  intros Hi. unfold getitem, node.
  rewrite norm_index_in_range by assumption.
  destruct (nth_error t (Z.to_nat i)) eqn:E.
  - erewrite nth_error_nth by eassumption. reflexivity.
  - apply nth_error_None in E. lia.
Qed.

Lemma setitem_in_range {A} (t : list A) (i : Z) (x : A) :
  0 <= i < Z.of_nat (length t) ->
  setitem t i x = inr (list_set t (Z.to_nat i) x).
Proof.
  intros Hi. unfold setitem. now rewrite norm_index_in_range.
Qed.

Lemma node_list_set (t : list R) (p j : Z) (x : R) :
  0 <= p < Z.of_nat (length t) -> 0 <= j ->
  node (list_set t (Z.to_nat p) x) j = if j =? p then x else node t j.
Proof.
  intros Hp Hj. unfold node. destruct (j =? p) eqn:E.
  - apply Z.eqb_eq in E. subst j. apply nth_list_set_eq. lia.
  - apply Z.eqb_neq in E. apply nth_list_set_neq. lia.
Qed.

Lemma skipn_list_set_below {A} (t : list A) (n k : nat) (x : A) :
  (k < n)%nat -> skipn n (list_set t k x) = skipn n t.
Proof.
  revert n k. induction t as [| y t IH]; intros [| n] [| k] Hk; simpl;
    try lia; auto. apply IH. lia.
Qed.

Lemma sum_R_list_set (t : list R) (k : nat) (x : R) :
  (k < length t)%nat ->
  sum_R (list_set t k x) = (sum_R t + x - nth k t 0)%R.
Proof.
  revert k. induction t as [| y t IH]; intros [| k] Hk; simpl in *; try lia.
  - lra.
  - rewrite IH by lia. lra.
Qed.

Lemma sum_R_skipn_list_set (t : list R) (n k : nat) (x : R) :
  (n <= k < length t)%nat ->
  sum_R (skipn n (list_set t k x)) = (sum_R (skipn n t) + x - nth k t 0)%R.
Proof.
  revert n k. induction t as [| y t IH]; intros n k Hk; simpl in Hk; try lia.
  destruct n as [| n].
  - change (skipn 0 (list_set (y :: t) k x)) with (list_set (y :: t) k x).
    change (skipn 0 (y :: t)) with (y :: t).
    apply sum_R_list_set. simpl. lia.
  - destruct k as [| k]; [lia |]. simpl. apply IH. lia.
Qed.

Lemma propagate_step (d : nat) (cur : Z) (change : R) (t : SumTree)
      (old : R) (v : list R) :
  getitem (tree t) ((cur - 1) / 2) = inr old ->
  setitem (tree t) ((cur - 1) / 2) (old + change)%R = inr v ->
  _propagate (S d) cur change t =
  if negb ((cur - 1) / 2 =? 0)
  then _propagate d ((cur - 1) / 2) change (set_tree v t)
  else (inr tt, set_tree v t).
Proof.
  intros Hg Hs. simpl. unfold py_floordiv, bind, get_self, lift, modify.
  rewrite Hg, Hs. destruct ((cur - 1) / 2 =? 0); reflexivity.
Qed.

(** Propagation from a node below the root returns, given the depth the
    path needs; it adds [change] to the root, leaves every node from
    [cur] on untouched, and changes no other field. *)
Lemma propagate_run (depth : nat) (change : R) :
  forall (cur : Z) (t : SumTree),
    1 <= cur < Z.of_nat (length (tree t)) ->
    cur + 1 < 2 ^ Z.of_nat depth ->
    exists t', _propagate depth cur change t = (inr tt, t') /\
               same_fields t t' /\
               node (tree t') 0 = (node (tree t) 0 + change)%R /\
               forall j, (cur - 1) / 2 < j -> node (tree t') j = node (tree t) j.
Proof.
  induction depth as [| d IH]; intros cur t Hcur Hd.
  - simpl in Hd. lia.
  - assert (Hpar : 0 <= (cur - 1) / 2 < cur) by (Z.div_mod_to_equations; lia).
    set (parent := (cur - 1) / 2) in *.
    assert (Hin : 0 <= parent < Z.of_nat (length (tree t))) by lia.
    rewrite (propagate_step d cur change t _ _ (getitem_node _ _ Hin)
                            (setitem_in_range _ _ _ Hin)).
    fold parent.
    destruct (parent =? 0) eqn:E; simpl negb; cbv iota.
    + apply Z.eqb_eq in E. eexists. split; [reflexivity |].
      split; [| split].
      * unfold same_fields. simpl. rewrite list_set_length. auto.
      * simpl. rewrite node_list_set by lia. rewrite E. reflexivity.
      * intros j Hj. simpl. rewrite node_list_set by lia.
        destruct (j =? parent) eqn:E'; [apply Z.eqb_eq in E'; lia | reflexivity].
    + apply Z.eqb_neq in E.
      destruct (IH parent (set_tree (list_set (tree t) (Z.to_nat parent)
                                              (node (tree t) parent + change)%R) t))
        as (t' & Hrun & Hsame & Hroot & Hrest).
      * simpl. rewrite list_set_length. lia.
      * rewrite Nat2Z.inj_succ, Z.pow_succ_r in Hd by lia.
        unfold parent. Z.div_mod_to_equations. lia.
      * exists t'. split; [exact Hrun |]. split; [| split].
        -- destruct Hsame as (H1 & H2 & H3 & H4 & H5). simpl in *.
           rewrite list_set_length in H5. unfold same_fields. auto.
        -- rewrite Hroot. simpl. rewrite node_list_set by lia.
           destruct (0 =? parent) eqn:E'; [apply Z.eqb_eq in E'; lia | reflexivity].
        -- intros j Hj. rewrite Hrest by (Z.div_mod_to_equations; lia).
           simpl. rewrite node_list_set by lia.
           destruct (j =? parent) eqn:E'; [apply Z.eqb_eq in E'; lia | reflexivity].
Qed.

(** Propagation re-establishes the sum invariant: while it climbs, the
    only node that disagrees with its children is the parent of [cur],
    short by [change]. *)
Lemma propagate_restores (N : Z) (depth : nat) (change : R) :
  forall (cur : Z) (t t' : SumTree),
    1 <= cur <= 2 * N - 2 ->
    pending N (tree t) cur change ->
    _propagate depth cur change t = (inr tt, t') ->
    sum_invariant N (tree t').
Proof.
  induction depth as [| d IH]; intros cur t t' Hcur (Hlen & Hnodes & Hroot) Hrun.
  - simpl in Hrun. discriminate.
  - assert (Hpar : 0 <= (cur - 1) / 2 < cur /\ (cur - 1) / 2 < N - 1)
      by (Z.div_mod_to_equations; lia).
    set (parent := (cur - 1) / 2) in *.
    assert (Hin : 0 <= parent < Z.of_nat (length (tree t))) by lia.
    rewrite (propagate_step d cur change t _ _ (getitem_node _ _ Hin)
                            (setitem_in_range _ _ _ Hin)) in Hrun.
    fold parent in Hrun.
    assert (Hleaves : leaf_sum N (list_set (tree t) (Z.to_nat parent)
                                           (node (tree t) parent + change)%R)
                      = leaf_sum N (tree t)).
    { unfold leaf_sum. rewrite skipn_list_set_below by lia. reflexivity. }
    destruct (parent =? 0) eqn:E; simpl negb in Hrun; cbv iota in Hrun.
    + apply Z.eqb_eq in E. inversion Hrun; subst t'; clear Hrun. simpl.
      split; [rewrite list_set_length; exact Hlen |]. split.
      * intros i Hi. specialize (Hnodes i Hi).
        rewrite !node_list_set by lia.
        destruct (i =? parent) eqn:E1;
          destruct (2 * i + 1 =? parent) eqn:E2;
          destruct (2 * i + 2 =? parent) eqn:E3;
          rewrite ?Z.eqb_eq, ?Z.eqb_neq in *; try lia; subst; lra.
      * rewrite Hleaves, node_list_set by lia.
        destruct (0 =? parent) eqn:E'; [| apply Z.eqb_neq in E'; lia].
        rewrite E. exact Hroot.
    + apply Z.eqb_neq in E.
      refine (IH parent _ t' _ _ Hrun); [lia |]. simpl.
      split; [rewrite list_set_length; exact Hlen |]. split.
      * intros i Hi. specialize (Hnodes i Hi).
        rewrite !node_list_set by lia.
        destruct (i =? parent) eqn:E1;
          destruct (i =? (parent - 1) / 2) eqn:E0;
          destruct (2 * i + 1 =? parent) eqn:E2;
          destruct (2 * i + 2 =? parent) eqn:E3;
          rewrite ?Z.eqb_eq, ?Z.eqb_neq in *;
          try (exfalso; Z.div_mod_to_equations; lia);
          try rewrite <- E1; try rewrite <- E2; try rewrite <- E3; lra.
      * rewrite Hleaves, node_list_set by lia.
        destruct (0 =? parent) eqn:E'; [apply Z.eqb_eq in E'; lia | exact Hroot].
Qed.

Lemma update_unfold (depth : nat) (idx : Z) (p : R) (t : SumTree) :
  0 <= idx < Z.of_nat (length (tree t)) ->
  update depth idx p t =
  _propagate depth idx (p - node (tree t) idx)%R
             (set_tree (list_set (tree t) (Z.to_nat idx) p) t).
Proof.
  intros Hin. unfold update, bind, get_self, lift, modify.
  rewrite (getitem_node _ _ Hin), (setitem_in_range _ _ _ Hin). reflexivity.
Qed.

(** [update] on a node below the root. *)
Lemma update_run (depth : nat) (idx : Z) (p : R) (t : SumTree) :
  1 <= idx < Z.of_nat (length (tree t)) ->
  idx + 1 < 2 ^ Z.of_nat depth ->
  exists t', update depth idx p t = (inr tt, t') /\
             same_fields t t' /\
             node (tree t') 0 = (node (tree t) 0 + (p - node (tree t) idx))%R /\
             node (tree t') idx = p /\
             forall j, (idx - 1) / 2 < j -> j <> idx ->
                       node (tree t') j = node (tree t) j.
Proof.
  intros Hidx Hd. rewrite update_unfold by lia.
  destruct (propagate_run depth (p - node (tree t) idx)%R idx
              (set_tree (list_set (tree t) (Z.to_nat idx) p) t))
    as (t' & Hrun & Hsame & Hroot & Hrest).
  { simpl. rewrite list_set_length. lia. }
  { exact Hd. }
  assert (Hpar : 0 <= (idx - 1) / 2 < idx) by (Z.div_mod_to_equations; lia).
  exists t'. split; [exact Hrun |]. split; [| split; [| split]].
  - destruct Hsame as (H1 & H2 & H3 & H4 & H5). simpl in *.
    rewrite list_set_length in H5. unfold same_fields. auto.
  - rewrite Hroot. simpl. rewrite node_list_set by lia.
    destruct (0 =? idx) eqn:E; [apply Z.eqb_eq in E; lia | reflexivity].
  - rewrite Hrest by lia. simpl. rewrite node_list_set by lia.
    now rewrite Z.eqb_refl.
  - intros j Hj Hne. rewrite Hrest by lia. simpl. rewrite node_list_set by lia.
    destruct (j =? idx) eqn:E; [apply Z.eqb_eq in E; lia | reflexivity].
Qed.

Lemma update_keeps_invariant (N : Z) (depth : nat) (idx : Z) (p : R)
      (t t' : SumTree) :
  sum_invariant N (tree t) ->
  1 <= idx -> N - 1 <= idx <= 2 * N - 2 ->
  update depth idx p t = (inr tt, t') ->
  sum_invariant N (tree t').
Proof.
  intros (Hlen & Hnodes & Hroot) H1 Hidx Hrun.
  rewrite update_unfold in Hrun by lia.
  refine (propagate_restores N depth _ idx _ t' _ _ Hrun); [lia |].
  simpl. split; [rewrite list_set_length; exact Hlen |]. split.
  - intros i Hi. specialize (Hnodes i Hi).
    rewrite !node_list_set by lia.
    destruct (i =? idx) eqn:E1;
      destruct (i =? (idx - 1) / 2) eqn:E0;
      destruct (2 * i + 1 =? idx) eqn:E2;
      destruct (2 * i + 2 =? idx) eqn:E3;
      rewrite ?Z.eqb_eq, ?Z.eqb_neq in *;
      try (exfalso; Z.div_mod_to_equations; lia);
      try rewrite <- E1; try rewrite <- E2; try rewrite <- E3; lra.
  - unfold leaf_sum. rewrite sum_R_skipn_list_set by lia.
    rewrite node_list_set by lia.
    destruct (0 =? idx) eqn:E; [apply Z.eqb_eq in E; lia |].
    fold (leaf_sum N (tree t)). rewrite <- Hroot. unfold node. lra.
Qed.

Lemma sum_R_skipn_zeros (k n : nat) : sum_R (skipn k (repeat 0%R n)) = 0%R.
Proof.
  revert k. induction n as [| n IH]; intros [| k]; simpl; auto.
  - specialize (IH 0%nat). simpl in IH. rewrite IH. lra.
Qed.

Lemma node_zeros (n : nat) (i : Z) : node (repeat 0%R n) i = 0%R.
Proof. unfold node. apply nth_repeat. Qed.

Lemma SumTree_init_invariant (N : Z) :
  1 <= N ->
  exists t0, SumTree_init N = inr t0 /\ sum_invariant N (tree t0) /\
             st_capacity t0 = N.
Proof.
  intros HN. unfold SumTree_init.
  destruct (2 * N - 1 <? 0) eqn:E; [apply Z.ltb_lt in E; lia |].
  eexists. split; [reflexivity |]. cbn [tree st_capacity]. split; [| reflexivity].
  split; [rewrite repeat_length; lia |]. split.
  - intros i _. rewrite !node_zeros. lra.
  - unfold leaf_sum. rewrite node_zeros, sum_R_skipn_zeros. reflexivity.
Qed.

Lemma update_all_keeps_invariant (N : Z) (depth : nat) (ups : list (Z * R)) :
  2 <= N -> 2 * N <= 2 ^ Z.of_nat depth ->
  Forall (fun ip => N - 1 <= fst ip <= 2 * N - 2) ups ->
  forall t, sum_invariant N (tree t) ->
            exists t', update_all depth ups t = (inr tt, t') /\
                       sum_invariant N (tree t').
Proof.
  intros HN Hd Hups. induction Hups as [| [idx p] ups Hidx _ IH]; intros t Hinv.
  - exists t. split; [reflexivity | assumption].
  - cbn [fst] in Hidx.
    destruct (update_run depth idx p t) as (t1 & Hrun & _).
    { destruct Hinv as (Hlen & _). lia. }
    { lia. }
    pose proof (update_keeps_invariant N depth idx p t t1 Hinv ltac:(lia) Hidx Hrun)
      as Hinv1.
    destruct (IH t1 Hinv1) as (t' & Hrun' & Hinv').
    exists t'. split; [| exact Hinv'].
    unfold update_all in *. cbn [for_each]. unfold bind at 1. cbn [fst snd].
    rewrite Hrun. exact Hrun'.
Qed.

(** *** The root as a leaf *)

Lemma getitem_last {A} (t : list A) :
  (1 <= length t)%nat -> exists x, getitem t (-1) = inr x.
Proof.
  intros Hl. unfold getitem.
  rewrite norm_index_negative by lia.
  destruct (nth_error t _) eqn:E; [eauto |].
  apply nth_error_None in E. lia.
Qed.

(** From the root, or from index [-1], propagation never reaches the
    [parent == 0] exit: [(0 - 1) // 2] and [(-1 - 1) // 2] are both [-1],
    which numpy reads as the last node.  In a tree of more than one node
    the root itself is not written. *)
Lemma propagate_root_recursion (depth : nat) (change : R) :
  forall (cur : Z) (t : SumTree),
    cur = 0 \/ cur = -1 -> (1 <= length (tree t))%nat ->
    exists t', _propagate depth cur change t = (inl RecursionError, t') /\
               ((2 <= length (tree t))%nat ->
                node (tree t') 0 = node (tree t) 0).
Proof.
  induction depth as [| d IH]; intros cur t Hcur Hlen.
  - exists t. split; reflexivity.
  - assert (Hpar : (cur - 1) / 2 = -1) by (destruct Hcur; subst; reflexivity).
    destruct (getitem_last (tree t) Hlen) as (old & Hold).
    assert (Hset : setitem (tree t) (-1) (old + change)%R
                   = inr (list_set (tree t) (Z.to_nat (Z.of_nat (length (tree t)) + -1))
                                   (old + change)%R)).
    { unfold setitem. rewrite norm_index_negative by lia. reflexivity. }
    rewrite <- Hpar in Hold, Hset at 1.
    rewrite (propagate_step d cur change t _ _ Hold Hset).
    rewrite Hpar. simpl negb. cbv iota.
    destruct (IH (-1) (set_tree (list_set (tree t)
                                   (Z.to_nat (Z.of_nat (length (tree t)) + -1))
                                   (old + change)%R) t))
      as (t' & Hrun & Hroot).
    { now right. }
    { cbn. rewrite list_set_length. exact Hlen. }
    exists t'. split; [exact Hrun |]. intros H2.
    cbn in Hroot. rewrite list_set_length in Hroot. rewrite (Hroot H2).
    unfold node. apply nth_list_set_neq. lia.
Qed.

(** A tree of capacity 1 has one node, root and leaf at once.
    Propagation started on it walks the index [-1] for as long as the
    recursion depth allows, adds [change] to the node at each step, and
    ends in [RecursionError]. *)
Lemma propagate_single_node (depth : nat) (change : R) :
  forall (cur : Z) (t : SumTree) (x : R),
    cur = 0 \/ cur = -1 -> tree t = [x] ->
    _propagate depth cur change t
    = (inl RecursionError, set_tree [(x + INR depth * change)%R] t).
Proof.
  induction depth as [| d IH]; intros cur t x Hcur Htree.
  - cbn [_propagate INR]. unfold raise.
    replace (x + 0 * change)%R with x by ring.
    rewrite <- Htree. destruct t; reflexivity.
  - assert (Hpar : (cur - 1) / 2 = -1) by (destruct Hcur; subst; reflexivity).
    assert (Hold : getitem (tree t) ((cur - 1) / 2) = inr x)
      by (rewrite Hpar, Htree; reflexivity).
    assert (Hset : setitem (tree t) ((cur - 1) / 2) (x + change)%R
                   = inr [(x + change)%R])
      by (rewrite Hpar, Htree; reflexivity).
    rewrite (propagate_step d cur change t _ _ Hold Hset).
    rewrite Hpar. simpl negb. cbv iota.
    rewrite (IH (-1) (set_tree [(x + change)%R] t) (x + change)%R);
      [| now right | reflexivity].
    rewrite S_INR. unfold set_tree. cbn [st_capacity data write n_entries].
    replace (x + change + INR d * change)%R
      with (x + (INR d + 1) * change)%R by ring.
    reflexivity.
Qed.

Lemma update_single_node (depth : nat) (p : R) (t : SumTree) (x : R) :
  tree t = [x] ->
  update depth 0 p t
  = (inl RecursionError, set_tree [(p + INR depth * (p - x))%R] t).
Proof.
  intros Htree. rewrite update_unfold by (rewrite Htree; cbn; lia).
  rewrite (propagate_single_node depth _ 0 _ p); [| now left |].
  - unfold node. rewrite Htree. reflexivity.
  - cbn. rewrite Htree. reflexivity.
Qed.

(** C1: for every capacity [N >= 2], any sequence of [update] calls on
    leaf positions [N - 1 .. 2N - 2] of a fresh tree returns (given the
    recursion depth the tree needs) and leaves every internal node equal
    to the sum of its two children and the root equal to the sum of the
    leaves.  For capacity 1 the only leaf is the root, position
    [0 = N - 1], and [update] on it never returns: whatever the allowed
    recursion depth, it ends in [RecursionError]. *)
Theorem sum_tree_invariant_by_capacity :
  (forall (N : Z) (depth : nat) (ups : list (Z * R)),
      2 <= N -> 2 * N <= 2 ^ Z.of_nat depth ->
      Forall (fun ip => N - 1 <= fst ip <= 2 * N - 2) ups ->
      exists t0 t',
        SumTree_init N = inr t0 /\
        update_all depth ups t0 = (inr tt, t') /\
        (forall i, 0 <= i < N - 1 ->
                   node (tree t') i
                   = (node (tree t') (2 * i + 1) + node (tree t') (2 * i + 2))%R) /\
        total t' = inr (leaf_sum N (tree t'))) /\
  (forall (depth : nat) (p : R),
      exists t0 t',
        SumTree_init 1 = inr t0 /\
        1 - 1 <= 0 <= 2 * 1 - 2 /\
        update depth 0 p t0 = (inl RecursionError, t')).
Proof.
  split.
  - intros N depth ups HN Hd Hups.
    destruct (SumTree_init_invariant N ltac:(lia)) as (t0 & Hinit & Hinv & _).
    destruct (update_all_keeps_invariant N depth ups HN Hd Hups t0 Hinv)
      as (t' & Hrun & (Hlen & Hnodes & Hroot)).
    exists t0, t'. split; [exact Hinit |]. split; [exact Hrun |].
    split; [exact Hnodes |].
    unfold total. rewrite getitem_node by lia. now rewrite Hroot.
  - intros depth p.
    destruct (SumTree_init_invariant 1 ltac:(lia)) as (t0 & Hinit & (Hlen & _) & _).
    destruct (propagate_root_recursion depth (p - node (tree t0) 0)%R 0
                (set_tree (list_set (tree t0) (Z.to_nat 0) p) t0))
      as (t' & Hrun & _).
    { now left. }
    { simpl. rewrite list_set_length. lia. }
    exists t0, t'. split; [exact Hinit |]. split; [lia |].
    rewrite update_unfold by lia. exact Hrun.
Qed.

(** ** Priority updates *)

Lemma for_each_cons {S A} (x : A) (xs : list A) (body : A -> M S unit)
      (s s1 : S) :
  body x s = (inr tt, s1) -> for_each (x :: xs) body s = for_each xs body s1.
Proof.
  intros Hx. cbn [for_each]. unfold bind. now rewrite Hx.
Qed.

Lemma for_each_fails {S A} (x : A) (xs : list A) (body : A -> M S unit)
      (s s1 : S) (e : exn) :
  body x s = (inl e, s1) -> for_each (x :: xs) body s = (inl e, s1).
Proof.
  intros Hx. cbn [for_each]. unfold bind. now rewrite Hx.
Qed.

Lemma for_each_app {S A} (xs ys : list A) (body : A -> M S unit) (s s1 : S) :
  for_each xs body s = (inr tt, s1) ->
  for_each (xs ++ ys) body s = for_each ys body s1.
Proof.
  revert s. induction xs as [| x xs IH]; intros s Hrun.
  - cbn in Hrun. inversion Hrun. reflexivity.
  - cbn [for_each app] in *. unfold bind in *.
    destruct (body x s) as [[e | []] s']; [discriminate |].
    apply IH. exact Hrun.
Qed.

Lemma clamp_priority_range (e : R) : (eps6 <= clamp_priority e <= 1)%R.
Proof.
  unfold clamp_priority, eps6. pose proof (Rabs_pos e).
  split.
  - apply Rmin_glb; lra.
  - apply Rmin_r.
Qed.

Lemma per_update_one_run `{FloatPow} (depth : nat) (idx : Z) (e : R)
      (self : PERBufferSumTree) :
  1 <= idx < Z.of_nat (length (tree (per_tree self))) ->
  idx + 1 < 2 ^ Z.of_nat depth ->
  exists t',
    per_update_one depth (idx, e) self
    = (inr tt, mkPERBufferSumTree t' (per_alpha self) (per_epsilon self)
                 (Rmax (per_max_priority self) (tree_priority self e))) /\
    same_fields (per_tree self) t' /\
    node (tree t') 0
    = (node (tree (per_tree self)) 0
       + (tree_priority self e - node (tree (per_tree self)) idx))%R /\
    node (tree t') idx = tree_priority self e /\
    forall j, (idx - 1) / 2 < j -> j <> idx ->
              node (tree t') j = node (tree (per_tree self)) j.
Proof.
  intros Hidx Hd.
  destruct (update_run depth idx (tree_priority self e) (per_tree self) Hidx Hd)
    as (t' & Hrun & Hrest).
  exists t'. split; [| exact Hrest].
  unfold per_update_one, bind, get_self, on_tree, modify. cbn [fst snd].
  rewrite Hrun. reflexivity.
Qed.

(** C5 (as amended): on a sum-tree buffer of capacity 4 the leaf of slot 0
    is tree position [3 = capacity - 1], the index [sample] hands out.
    [update_priorities([3], [10.0])] returns, sets that leaf to
    [(10 + epsilon) ** alpha] and raises [total()] by exactly that value
    minus the priority the leaf held before. *)
Theorem per_update_leaf_changes_total `{FloatPow} (depth : nat)
        (self : PERBufferSumTree) :
  st_capacity (per_tree self) = 4 ->
  length (tree (per_tree self)) = 7%nat ->
  (3 <= depth)%nat ->
  exists self',
    per_update_priorities depth [3] [10%R] self = (inr tt, self') /\
    node (tree (per_tree self')) 3
    = float_pow (10 + per_epsilon self) (per_alpha self) /\
    total (per_tree self')
    = inr (node (tree (per_tree self)) 0
           + (float_pow (10 + per_epsilon self) (per_alpha self)
              - node (tree (per_tree self)) 3))%R.
Proof.
  intros Hcap Hlen Hdepth.
  assert (Hpow : 3 + 1 < 2 ^ Z.of_nat depth).
  { assert (Hle : 2 ^ 3 <= 2 ^ Z.of_nat depth) by (apply Z.pow_le_mono_r; lia).
    change (2 ^ 3) with 8 in Hle. lia. }
  destruct (per_update_one_run depth 3 10 self ltac:(rewrite Hlen; lia) Hpow)
    as (t' & Hrun & Hsame & Hroot & Hleaf & _).
  assert (Hp : tree_priority self 10 = float_pow (10 + per_epsilon self) (per_alpha self)).
  { unfold tree_priority. rewrite Rabs_pos_eq by lra. reflexivity. }
  eexists. split.
  { unfold per_update_priorities. cbn [combine].
    rewrite (for_each_cons _ _ _ _ _ Hrun). reflexivity. }
  cbn [per_tree]. rewrite <- Hp. split; [exact Hleaf |].
  unfold total. rewrite getitem_node.
  - rewrite Hroot. reflexivity.
  - destruct Hsame as (_ & _ & _ & _ & Hl). rewrite Hl, Hlen. lia.
Qed.

Lemma prio_update_one_run (i : Z) (e : R) (self : PrioritizedReplayBuffer) :
  0 <= i < Z.of_nat (length (priorities self)) ->
  prio_update_one (i, e) self
  = (inr tt,
     mkPrioritizedReplayBuffer (base self) (alpha self)
       (list_set (priorities self) (Z.to_nat i) (clamp_priority e))
       (Rmax (max_priority self) (clamp_priority e))).
Proof.
  intros Hi. unfold prio_update_one, bind, get_self, lift, modify. cbn [fst snd].
  rewrite (setitem_in_range _ _ _ Hi). reflexivity.
Qed.

Lemma Forall_combine_fst {A B} (P : A -> Prop) (xs : list A) (ys : list B) :
  Forall P xs -> Forall (fun xy => P (fst xy)) (combine xs ys).
Proof.
  intros Hxs. revert ys. induction Hxs as [| x xs Hx _ IH]; intros [| y ys];
    cbn [combine]; constructor; auto.
Qed.

Lemma prio_update_loop (pairs : list (Z * R)) :
  forall self,
    Forall (fun ip => 0 <= fst ip < Z.of_nat (length (priorities self))) pairs ->
    exists self',
      for_each pairs prio_update_one self = (inr tt, self') /\
      base self' = base self /\ alpha self' = alpha self /\
      length (priorities self') = length (priorities self) /\
      (forall i, 0 <= i ->
                 node (priorities self') i
                 = match last_write i pairs with
                   | Some e => clamp_priority e
                   | None => node (priorities self) i
                   end) /\
      max_priority self'
      = fold_left Rmax (map (fun ip => clamp_priority (snd ip)) pairs)
                  (max_priority self).
Proof.
  induction pairs as [| [i e] rest IH]; intros self Hall.
  - exists self. repeat split; reflexivity.
  - inversion Hall as [| ? ? Hi Hrest]; subst. cbn [fst] in Hi.
    pose proof (prio_update_one_run i e self Hi) as Hrun.
    set (s1 := mkPrioritizedReplayBuffer _ _ _ _) in Hrun.
    destruct (IH s1) as (self' & Hloop & Hb & Ha & Hl & Hnode & Hmax).
    { unfold s1. cbn [priorities]. rewrite list_set_length. exact Hrest. }
    exists self'. rewrite (for_each_cons _ _ _ _ _ Hrun).
    split; [exact Hloop |]. split; [exact Hb |]. split; [exact Ha |].
    split; [| split].
    + rewrite Hl. unfold s1. cbn [priorities]. apply list_set_length.
    + intros j Hj. rewrite (Hnode j Hj). cbn [last_write].
      destruct (last_write j rest); [reflexivity |].
      unfold s1. cbn [priorities]. rewrite node_list_set by lia.
      destruct (j =? i); reflexivity.
    + rewrite Hmax. reflexivity.
Qed.

Lemma per_update_loop `{FloatPow} (depth : nat) (N : Z) (pairs : list (Z * R)) :
  2 <= N -> 2 * N <= 2 ^ Z.of_nat depth ->
  Forall (fun ip => N - 1 <= fst ip <= 2 * N - 2) pairs ->
  forall self,
    Z.of_nat (length (tree (per_tree self))) = 2 * N - 1 ->
    exists self',
      for_each pairs (per_update_one depth) self = (inr tt, self') /\
      same_fields (per_tree self) (per_tree self') /\
      per_alpha self' = per_alpha self /\
      per_epsilon self' = per_epsilon self /\
      (forall i, N - 1 <= i ->
                 node (tree (per_tree self')) i
                 = match last_write i pairs with
                   | Some e => tree_priority self e
                   | None => node (tree (per_tree self)) i
                   end) /\
      per_max_priority self'
      = fold_left Rmax (map (fun ip => tree_priority self (snd ip)) pairs)
                  (per_max_priority self).
Proof.
  intros HN Hd Hall. induction Hall as [| [i e] rest Hi _ IH]; intros self Hlen.
  - exists self. unfold same_fields. repeat split; reflexivity.
  - cbn [fst] in Hi.
    destruct (per_update_one_run depth i e self ltac:(lia) ltac:(lia))
      as (t1 & Hrun & Hsame & _ & Hleaf & Hother).
    set (s1 := mkPERBufferSumTree _ _ _ _) in Hrun.
    assert (Hlen1 : Z.of_nat (length (tree (per_tree s1))) = 2 * N - 1).
    { unfold s1. cbn [per_tree]. destruct Hsame as (_ & _ & _ & _ & Hl).
      rewrite Hl. exact Hlen. }
    destruct (IH s1 Hlen1) as (self' & Hloop & Hsame' & Ha & He & Hnode & Hmax).
    assert (Hprio : forall x, tree_priority s1 x = tree_priority self x)
      by reflexivity.
    exists self'. rewrite (for_each_cons _ _ _ _ _ Hrun).
    split; [exact Hloop |]. split; [| split; [exact Ha | split; [exact He | split]]].
    + destruct Hsame as (A1 & A2 & A3 & A4 & A5).
      destruct Hsame' as (B1 & B2 & B3 & B4 & B5).
      unfold s1 in *. cbn [per_tree] in *. unfold same_fields.
      repeat split; congruence.
    + intros j Hj. rewrite (Hnode j Hj). cbn [last_write].
      destruct (last_write j rest); [apply Hprio |].
      unfold s1. cbn [per_tree].
      destruct (j =? i) eqn:E.
      * apply Z.eqb_eq in E. subst j. exact Hleaf.
      * apply Z.eqb_neq in E. apply Hother; [| exact E].
        Z.div_mod_to_equations. lia.
    + rewrite Hmax. reflexivity.
Qed.

(** C7: [update_priorities] on in-range indices returns and leaves, at
    each addressed entry, the priority computed from the last TD error
    given for it: [min(|e| + 1e-6, 1.0)], a value of [[1e-6, 1]], in the
    flat variant; [(|e| + epsilon) ** alpha] at the addressed leaf in the
    tree variant, for a tree with at least two leaves.  [max_priority]
    ends as the maximum of its old value and the new priorities.  With
    capacity 1 the tree variant does none of this: the only leaf is
    position 0, and [update_priorities([0], [e])] ends in
    [RecursionError] whatever the recursion depth, with the leaf at
    [(1 + depth)] times the new priority and [max_priority] as it
    was. *)
Theorem update_priorities_sets_entries `{FloatPow} :
  (forall (self : PrioritizedReplayBuffer) (indices : list Z) (tds : list R),
      Z.of_nat (length (priorities self)) = capacity (base self) ->
      Forall (fun i => 0 <= i < capacity (base self)) indices ->
      exists self',
        prio_update_priorities indices tds self = (inr tt, self') /\
        (forall i, 0 <= i < capacity (base self) ->
                   node (priorities self') i
                   = match last_write i (combine indices tds) with
                     | Some e => clamp_priority e
                     | None => node (priorities self) i
                     end) /\
        (forall e, clamp_priority e = Rmin (Rabs e + eps6) 1 /\
                   (eps6 <= clamp_priority e <= 1)%R) /\
        max_priority self'
        = fold_left Rmax
                    (map (fun ip => clamp_priority (snd ip)) (combine indices tds))
                    (max_priority self)) /\
  (forall (depth : nat) (self : PERBufferSumTree) (indices : list Z)
          (tds : list R),
      let N := st_capacity (per_tree self) in
      2 <= N -> 2 * N <= 2 ^ Z.of_nat depth ->
      Z.of_nat (length (tree (per_tree self))) = 2 * N - 1 ->
      Forall (fun i => N - 1 <= i <= 2 * N - 2) indices ->
      exists self',
        per_update_priorities depth indices tds self = (inr tt, self') /\
        (forall i, N - 1 <= i <= 2 * N - 2 ->
                   node (tree (per_tree self')) i
                   = match last_write i (combine indices tds) with
                     | Some e => float_pow (Rabs e + per_epsilon self) (per_alpha self)
                     | None => node (tree (per_tree self)) i
                     end) /\
        per_max_priority self'
        = fold_left Rmax
                    (map (fun ip => float_pow (Rabs (snd ip) + per_epsilon self)
                                              (per_alpha self))
                         (combine indices tds))
                    (per_max_priority self)) /\
  (forall (depth : nat) (a e : R),
      exists b0 b',
        PERBufferSumTree_init 1 a = inr b0 /\
        per_update_priorities depth [0] [e] b0 = (inl RecursionError, b') /\
        node (tree (per_tree b')) 0
        = (float_pow (Rabs e + eps6) a
           + INR depth * float_pow (Rabs e + eps6) a)%R /\
        per_max_priority b' = per_max_priority b0).
Proof.
  split; [| split].
  - intros self indices tds Hlen Hidx.
    destruct (prio_update_loop (combine indices tds) self)
      as (self' & Hrun & _ & _ & _ & Hnode & Hmax).
    { apply (Forall_combine_fst (fun i => 0 <= i < Z.of_nat (length (priorities self)))).
      rewrite Hlen. exact Hidx. }
    exists self'. split; [exact Hrun |]. split; [| split].
    + intros i Hi. apply Hnode. lia.
    + intros e. split; [reflexivity | apply clamp_priority_range].
    + exact Hmax.
  - intros depth self indices tds N HN Hd Hlen Hidx.
    destruct (per_update_loop depth N (combine indices tds) HN Hd
                (Forall_combine_fst (fun i => N - 1 <= i <= 2 * N - 2) _ _ Hidx)
                self Hlen)
      as (self' & Hrun & _ & _ & _ & Hnode & Hmax).
    exists self'. split; [exact Hrun |]. split.
    + intros i Hi. apply Hnode. lia.
    + exact Hmax.
  - intros depth a e. eexists. eexists. split; [reflexivity |].
    unfold per_update_priorities. cbn [combine for_each].
    unfold bind at 1. unfold per_update_one, bind, get_self, on_tree.
    cbn [fst snd per_tree].
    rewrite (update_single_node depth _ _ 0%R) by reflexivity.
    split; [reflexivity |]. split; [| reflexivity].
    unfold node, tree_priority. cbn. f_equal. ring.
Qed.

(** ** Sampling *)

Lemma bind_inr {S A B} (c : M S A) (k : A -> M S B) (s s' : S) (b : B) :
  bind c k s = (inr b, s') ->
  exists a s1, c s = (inr a, s1) /\ k a s1 = (inr b, s').
Proof.
  unfold bind. destruct (c s) as [[e | a] s1]; [discriminate |]. eauto.
Qed.

Lemma bind_inl {S A B} (c : M S A) (k : A -> M S B) (s s' : S) (e : exn) :
  c s = (inl e, s') -> bind c k s = (inl e, s').
Proof.
  intros Hc. unfold bind. now rewrite Hc.
Qed.

Lemma bind_step {S A B} (c : M S A) (k : A -> M S B) (s s1 : S) (a : A) :
  c s = (inr a, s1) -> bind c k s = k a s1.
Proof.
  intros Hc. unfold bind. now rewrite Hc.
Qed.

Lemma arange_length (n : Z) : Z.of_nat (length (arange n)) = Z.max 0 n.
Proof. unfold arange. rewrite length_map, length_seq. lia. Qed.

Lemma arange_In (n k : Z) : In k (arange n) <-> 0 <= k < n.
Proof.
  unfold arange. rewrite in_map_iff. split.
  - intros (j & <- & Hj). apply in_seq in Hj. lia.
  - intros Hk. exists (Z.to_nat k). split; [lia |]. apply in_seq. lia.
Qed.

Lemma arange_NoDup (n : Z) : NoDup (arange n).
Proof.
  unfold arange. apply Finite.Injective_map_NoDup.
  - intros x y Hxy. lia.
  - apply seq_NoDup.
Qed.

(** No list of distinct integers of a half-open range is longer than the
    range. *)
Lemma distinct_in_range_length (l : list Z) (low high : Z) :
  NoDup l -> Forall (fun i => low <= i < high) l ->
  Z.of_nat (length l) <= Z.max 0 (high - low).
Proof.
  intros Hnd Hall.
  assert (Hincl : incl l (map (fun k => low + k) (arange (high - low)))).
  { intros i Hi. rewrite Forall_forall in Hall. specialize (Hall i Hi).
    apply in_map_iff. exists (i - low). split; [lia |]. apply arange_In. lia. }
  pose proof (NoDup_incl_length Hnd Hincl) as Hle.
  rewrite length_map in Hle. pose proof (arange_length (high - low)). lia.
Qed.

Lemma first_fit_laws : @RandomGenLaws unit first_fit_gen.
Proof.
  constructor.
  - intros low high n p replace g l g'. cbn. unfold first_fit_randint.
    destruct (n <? 0) eqn:E0; [discriminate |].
    destruct (high <=? low) eqn:E1; [discriminate |].
    destruct (high - low <? n) eqn:E2; [discriminate |].
    apply Z.ltb_ge in E0, E2. apply Z.leb_gt in E1.
    unfold ret. intros Hl. inversion Hl; subst; clear Hl.
    rewrite length_map. split; [apply arange_length |].
    apply Forall_forall. intros i Hi. apply in_map_iff in Hi.
    destruct Hi as (k & <- & Hk). apply arange_In in Hk. lia.
  - intros low high n p g l g'. cbn. unfold first_fit_randint.
    destruct (n <? 0); [discriminate |].
    destruct (high <=? low); [discriminate |].
    destruct (high - low <? n); [discriminate |].
    unfold ret. intros Hl. inversion Hl; subst; clear Hl.
    apply Finite.Injective_map_NoDup; [| apply arange_NoDup].
    intros x y Hxy. lia.
  - intros l g. exists l, g. split; [reflexivity | apply Permutation_refl].
  - intros a b g. exists b, g. split; [reflexivity |].
    split; [apply Rmin_r | apply Rmax_r].
Qed.

Lemma numpy_laws : @RandomGenLaws unit numpy_gen.
Proof.
  constructor.
  - intros low high n p replace g l g'. cbn. discriminate.
  - intros low high n p g l g'. cbn. discriminate.
  - intros l g. exists l, g. split; [reflexivity | apply Permutation_refl].
  - intros a b g. exists a, g. split; [reflexivity |].
    split; [apply Rmin_l | apply Rmax_l].
Qed.

Section Draws.
Context {G : Type} `{RandomGenLaws G}.

(** A draw without replacement of more indices than the range holds
    cannot return. *)
Lemma draw_too_many (low high n : Z) (p : option (list R)) (g : G) :
  0 < n -> high - low < n ->
  exists e g', np_random_randint low high n p false g = (inl e, g').
Proof.
  intros Hn Hhl.
  destruct (np_random_randint low high n p false g) as [[e | l] g'] eqn:E.
  - eauto.
  - exfalso.
    destruct (randint_range _ _ _ _ _ _ _ _ E) as (Hlen & Hall).
    pose proof (randint_distinct _ _ _ _ _ _ _ E) as Hnd.
    pose proof (distinct_in_range_length l low high Hnd Hall). lia.
Qed.

(** What a returned draw followed by the shuffle looks like. *)
Lemma draw_then_shuffle (low high n : Z) (p : option (list R)) (g g' : G)
      (l : list Z) :
  (indices <- np_random_randint low high n p false ;;
   np_random_shuffle indices) g = (inr l, g') ->
  Z.of_nat (length l) = Z.max 0 n /\
  Forall (fun i => low <= i < high) l /\ NoDup l.
Proof.
  intros Hrun. apply bind_inr in Hrun. destruct Hrun as (l0 & g1 & Hdraw & Hsh).
  destruct (shuffle_perm l0 g1) as (l' & g2 & Hsh' & Hperm).
  rewrite Hsh' in Hsh. inversion Hsh; subst; clear Hsh.
  destruct (randint_range _ _ _ _ _ _ _ _ Hdraw) as (Hlen & Hall).
  pose proof (randint_distinct _ _ _ _ _ _ _ Hdraw) as Hnd.
  split; [| split].
  - rewrite <- (Permutation_length Hperm). exact Hlen.
  - apply (Permutation_Forall Hperm). exact Hall.
  - apply (Permutation_NoDup Hperm). exact Hnd.
Qed.

Lemma sample_indices_fails (self : ReplayBuffer) (n : Z) (g : G) :
  0 < n -> size self - 1 < n ->
  exists e g',
    np_random_randint 0 (size self - 1) n None false g = (inl e, g') /\
    sample_indices self n g = (inl e, g') /\
    sample self n g = (inl e, g').
Proof.
  intros Hn Hsz.
  destruct (draw_too_many 0 (size self - 1) n None g Hn ltac:(lia))
    as (e & g' & Hdraw).
  exists e, g'. split; [exact Hdraw |].
  assert (Hs : sample_indices self n g = (inl e, g')).
  { unfold sample_indices. now apply bind_inl. }
  split; [exact Hs |]. unfold sample. now apply bind_inl.
Qed.

Lemma prio_sample_fails `{FloatPow} (self : PrioritizedReplayBuffer)
      (n : Z) (beta : R) (g : G) :
  0 < n -> size (base self) - 1 < n ->
  exists e g',
    np_random_randint 0 (size (base self) - 1) n (Some (sample_probs self))
                      false g = (inl e, g') /\
    prio_sample self n beta g = (inl e, g').
Proof.
  intros Hn Hsz.
  destruct (draw_too_many 0 (size (base self) - 1) n (Some (sample_probs self))
                          g Hn ltac:(lia))
    as (e & g' & Hdraw).
  exists e, g'. split; [exact Hdraw |].
  unfold prio_sample. now apply bind_inl.
Qed.

Lemma prio_sample_indices `{FloatPow} (self : PrioritizedReplayBuffer)
      (n : Z) (beta : R) (g g' : G) (wb : WeightedBatch) :
  prio_sample self n beta g = (inr wb, g') ->
  Z.of_nat (length (wb_indices wb)) = Z.max 0 n /\
  Forall (fun i => 0 <= i < size (base self) - 1) (wb_indices wb) /\
  NoDup (wb_indices wb).
Proof.
  intros Hrun. unfold prio_sample in Hrun.
  apply bind_inr in Hrun. destruct Hrun as (l0 & g1 & Hdraw & Hrun).
  apply bind_inr in Hrun. destruct Hrun as (l & g2 & Hsh & Hrun).
  apply bind_inr in Hrun. destruct Hrun as (batch & g3 & _ & Hrun).
  apply bind_inr in Hrun. destruct Hrun as (w & g4 & _ & Hrun).
  unfold ret in Hrun. inversion Hrun; subst; clear Hrun. cbn [wb_indices].
  apply (draw_then_shuffle 0 (size (base self) - 1) n
                           (Some (sample_probs self)) g g2).
  rewrite (bind_step _ _ _ _ _ Hdraw). exact Hsh.
Qed.
End Draws.

(** C3 (what the code does instead): the indices that
    [ReplayBuffer.sample] and [PrioritizedReplayBuffer.sample] draw are
    pairwise distinct, but they come from [[0, size - 1)]: slot
    [size - 1] is never among them, and a call with
    [batch_size = size >= 1] cannot return. *)
Theorem sample_never_draws_last_slot {G : Type} `{RandomGenLaws G} `{FloatPow} :
  (forall (self : ReplayBuffer) (n : Z) (g g' : G) (l : list Z),
      sample_indices self n g = (inr l, g') ->
      NoDup l /\ Forall (fun i => 0 <= i < size self - 1) l /\
      ~ In (size self - 1) l) /\
  (forall (self : PrioritizedReplayBuffer) (n : Z) (beta : R) (g g' : G)
          (wb : WeightedBatch),
      prio_sample self n beta g = (inr wb, g') ->
      NoDup (wb_indices wb) /\
      Forall (fun i => 0 <= i < size (base self) - 1) (wb_indices wb) /\
      ~ In (size (base self) - 1) (wb_indices wb)) /\
  (forall (self : ReplayBuffer) (g : G),
      1 <= size self ->
      exists e g', sample self (size self) g = (inl e, g')) /\
  (forall (self : PrioritizedReplayBuffer) (beta : R) (g : G),
      1 <= size (base self) ->
      exists e g', prio_sample self (size (base self)) beta g = (inl e, g')).
Proof.
  split; [| split; [| split]].
  - intros self n g g' l Hrun.
    destruct (draw_then_shuffle _ _ _ _ _ _ _ Hrun) as (_ & Hall & Hnd).
    split; [exact Hnd |]. split; [exact Hall |].
    intros Hin. rewrite Forall_forall in Hall. specialize (Hall _ Hin). lia.
  - intros self n beta g g' wb Hrun.
    destruct (prio_sample_indices self n beta g g' wb Hrun) as (_ & Hall & Hnd).
    split; [exact Hnd |]. split; [exact Hall |].
    intros Hin. rewrite Forall_forall in Hall. specialize (Hall _ Hin). lia.
  - intros self g Hsz.
    destruct (sample_indices_fails self (size self) g ltac:(lia) ltac:(lia))
      as (e & g' & _ & _ & Hs). eauto.
  - intros self beta g Hsz.
    destruct (prio_sample_fails self (size (base self)) beta g ltac:(lia) ltac:(lia))
      as (e & g' & _ & Hs). eauto.
Qed.

(** C4 (what the code does): with fewer occupied slots than [batch_size],
    [sample] fails in all three variants and returns no batch.  Only the
    tree variant checks the occupancy, with its assertion
    ["Not enough in buffer"]; the uniform and the flat variant have no
    check and fail with whatever error their index draw raises. *)
Theorem sample_insufficient_data_fails {G : Type} `{RandomGenLaws G} `{FloatPow} :
  (forall (self : ReplayBuffer) (n : Z) (g : G),
      0 <= len self < n ->
      exists e g',
        np_random_randint 0 (size self - 1) n None false g = (inl e, g') /\
        sample self n g = (inl e, g')) /\
  (forall (self : PrioritizedReplayBuffer) (n : Z) (beta : R) (g : G),
      0 <= len (base self) < n ->
      exists e g',
        np_random_randint 0 (size (base self) - 1) n (Some (sample_probs self))
                          false g = (inl e, g') /\
        prio_sample self n beta g = (inl e, g')) /\
  (forall (rounds depth : nat) (self : PERBufferSumTree) (n : Z) (beta : R)
          (g : G),
      per_len self < n ->
      per_sample rounds depth self n beta g
      = (inl (AssertionError "Not enough in buffer"), g)).
Proof.
  split; [| split].
  - intros self n g Hsz. unfold len in Hsz.
    destruct (sample_indices_fails self n g ltac:(lia) ltac:(lia))
      as (e & g' & Hd & _ & Hs). eauto.
  - intros self n beta g Hsz. unfold len in Hsz.
    apply prio_sample_fails; lia.
  - intros rounds depth self n beta g Hsz. unfold per_len in Hsz.
    unfold per_sample.
    destruct (n_entries (per_tree self) <? n) eqn:E; [reflexivity |].
    apply Z.ltb_ge in E. lia.
Qed.

Lemma take_ok {A} (a : list A) (idx : list Z) :
  Forall (fun i => 0 <= i < Z.of_nat (length a)) idx ->
  exists xs, take a idx = inr xs /\ length xs = length idx.
Proof.
  induction 1 as [| i idx Hi _ (xs & Hxs & Hlen)].
  - exists []. split; reflexivity.
  - unfold getitem in *. cbn [take]. unfold getitem.
    rewrite norm_index_in_range by assumption.
    destruct (nth_error a (Z.to_nat i)) as [x |] eqn:E.
    + rewrite Hxs. exists (x :: xs). cbn [length]. split; [reflexivity | lia].
    + apply nth_error_None in E. lia.
Qed.

Lemma gather_ok {D} (conv : R -> D) (b : ReplayBuffer) (idx : list Z) :
  ring_shape b -> Forall (fun i => 0 <= i < capacity b) idx ->
  exists batch, gather conv b idx = inr batch.
Proof.
  intros [H1 H2 H3 H4 H5 _ _] Hidx. unfold gather.
  destruct (take_ok (states b) idx) as (x1 & -> & _); [now rewrite H1 |].
  destruct (take_ok (actions b) idx) as (x2 & -> & _); [now rewrite H2 |].
  destruct (take_ok (rewards b) idx) as (x3 & -> & _); [now rewrite H3 |].
  destruct (take_ok (next_states b) idx) as (x4 & -> & _); [now rewrite H4 |].
  destruct (take_ok (dones b) idx) as (x5 & -> & _); [now rewrite H5 |].
  eauto.
Qed.

Lemma map_const_repeat {A B} (c : B) (l : list A) :
  map (fun _ => c) l = repeat c (length l).
Proof. induction l as [| x l IH]; cbn; [reflexivity | now rewrite IH]. Qed.


Lemma sample_probs_length `{FloatPow} (self : PrioritizedReplayBuffer) :
  prio_shape self ->
  length (sample_probs self) = Z.to_nat (size (base self)).
Proof.
  intros (Hring & Hlen). destruct Hring as [_ _ _ _ _ _ Hsize].
  unfold sample_probs.
  destruct (Req_dec_T _ 0); rewrite !length_map, length_firstn; lia.
Qed.

(** [sample] of the flat variant returns whenever its index draw returns
    the [batch_size >= 1] indices asked for. *)
Lemma prio_sample_returns {G : Type} `{RandomGenLaws G} `{FloatPow}
      (self : PrioritizedReplayBuffer) (n : Z) (beta : R) (g g1 : G)
      (l : list Z) :
  prio_shape self -> 1 <= n ->
  np_random_randint 0 (size (base self) - 1) n (Some (sample_probs self))
                    false g = (inr l, g1) ->
  exists wb g2, prio_sample self n beta g = (inr wb, g2) /\
                Permutation l (wb_indices wb).
Proof.
  intros Hshape Hn Hdraw.
  pose proof (sample_probs_length self Hshape) as Hprobs.
  destruct Hshape as (Hring & Hlen).
  destruct (shuffle_perm l g1) as (l' & g2 & Hsh & Hperm).
  destruct (randint_range _ _ _ _ _ _ _ _ Hdraw) as (Hcount & Hall).
  pose proof (Permutation_Forall Hperm Hall) as Hall'.
  assert (Hsize : 0 <= size (base self) <= capacity (base self))
    by (destruct Hring; assumption).
  destruct (gather_ok (fun d : R => d) (base self) l' Hring) as (batch & Hbatch).
  { eapply Forall_impl; [| exact Hall']. cbv beta. intros i Hi. lia. }
  destruct (take_ok (sample_probs self) l') as (ps & Hps & Hpslen).
  { eapply Forall_impl; [| exact Hall']. cbv beta. intros i Hi.
    rewrite Hprobs. lia. }
  assert (Hne : ps <> []).
  { intros ->. cbn in Hpslen. rewrite <- (Permutation_length Hperm) in Hpslen. lia. }
  assert (Hw : exists w, flat_weights (len (base self)) (sample_probs self) l' beta
                         = inr w).
  { unfold flat_weights. rewrite Hps.
    destruct ps as [| p ps]; [contradiction |]. cbn [map np_max]. eauto. }
  destruct Hw as (w & Hw).
  exists (mkWeightedBatch batch w l'), g2. split; [| exact Hperm].
  unfold prio_sample. rewrite (bind_step _ _ _ _ _ Hdraw).
  rewrite (bind_step _ _ _ _ _ Hsh).
  unfold bind, lift, ret. rewrite Hbatch, Hw. reflexivity.
Qed.


(** ** Importance weights over exact reals *)

Lemma Rmax_div (a b c : R) :
  (0 < c)%R -> Rmax (a / c) (b / c) = (Rmax a b / c)%R.
Proof.
  intros Hc. assert (Hi : (0 < / c)%R) by now apply Rinv_0_lt_compat.
  unfold Rmax, Rdiv.
  destruct (Rle_dec (a * / c) (b * / c)) as [H1 | H1];
    destruct (Rle_dec a b) as [H2 | H2]; try reflexivity; nra.
Qed.

Lemma fold_Rmax_div (l : list R) (x c : R) :
  (0 < c)%R ->
  fold_left Rmax (map (fun w => (w / c)%R) l) (x / c)%R
  = (fold_left Rmax l x / c)%R.
Proof.
  intros Hc. revert x. induction l as [| y l IH]; intros x; cbn.
  - reflexivity.
  - rewrite Rmax_div by assumption. apply IH.
Qed.

Lemma fold_Rmax_bounds (l : list R) (x : R) :
  (x <= fold_left Rmax l x)%R /\
  Forall (fun y => (y <= fold_left Rmax l x)%R) l /\
  (fold_left Rmax l x = x \/ In (fold_left Rmax l x) l).
Proof.
  revert x. induction l as [| y l IH]; intros x; cbn.
  - split; [lra |]. split; [constructor | now left].
  - destruct (IH (Rmax x y)) as (H1 & H2 & H3).
    pose proof (Rmax_l x y). pose proof (Rmax_r x y).
    split; [lra |]. split; [constructor; [lra | exact H2] |].
    destruct H3 as [H3 | H3]; [| right; now right].
    rewrite H3. unfold Rmax. destruct (Rle_dec x y); [right; now left | now left].
Qed.

Lemma np_max_spec (l : list R) (m : R) :
  np_max l = inr m -> In m l /\ Forall (fun y => (y <= m)%R) l.
Proof.
  destruct l as [| x l]; [discriminate |]. cbn. intros Hm.
  inversion Hm; subst; clear Hm.
  destruct (fold_Rmax_bounds l x) as (H1 & H2 & H3).
  split.
  - destruct H3 as [-> | H3]; [now left | now right].
  - constructor; assumption.
Qed.

Lemma np_max_map_div (l : list R) (m c : R) :
  (0 < c)%R -> np_max l = inr m ->
  np_max (map (fun w => (w / c)%R) l) = inr (m / c)%R.
Proof.
  intros Hc. destruct l as [| x l]; [discriminate |]. cbn. intros Hm.
  inversion Hm; subst; clear Hm. now rewrite fold_Rmax_div.
Qed.

(** The tree variant divides by the batch maximum: over exact reals the
    largest returned weight is 1 and every weight is positive, for
    positive raw weights. *)
Lemma tree_weights_max `{FloatPowLaws} (n : Z) (tot : R) (ps : list R)
      (beta : R) (ws : list R) :
  Forall (fun p => (0 < IZR n * (p / tot))%R) ps ->
  tree_weights n tot ps beta = inr ws ->
  np_max ws = inr 1%R /\ Forall (fun w => (0 < w)%R) ws.
Proof.
  intros Hpos. unfold tree_weights.
  set (raw := map (fun p => float_pow (IZR n * (p / tot)) (- beta)) ps).
  assert (Hraw : Forall (fun w => (0 < w)%R) raw).
  { unfold raw. apply Forall_map. eapply Forall_impl; [| exact Hpos].
    cbv beta. intros p Hp. now apply float_pow_pos. }
  destruct (np_max raw) as [e | m] eqn:Em; [discriminate |].
  intros Hws. inversion Hws; subst; clear Hws.
  destruct (np_max_spec raw m Em) as (Hin & _).
  assert (Hm : (0 < m)%R).
  { rewrite Forall_forall in Hraw. now apply Hraw. }
  split.
  - rewrite (np_max_map_div raw m m Hm Em). f_equal. field. lra.
  - apply Forall_map. eapply Forall_impl; [| exact Hraw].
    cbv beta. intros w Hw. now apply Rdiv_lt_0_compat.
Qed.

(** The flat variant divides by the batch maximum plus [1e-8]: over
    exact reals every weight is positive and the largest one is
    [m / (m + 1e-8)], below 1. *)
Lemma flat_weights_max `{FloatPowLaws} (tot : Z) (probs : list R)
      (indices : list Z) (beta : R) (ps ws : list R) :
  take probs indices = inr ps ->
  Forall (fun p => (0 < IZR tot * p)%R) ps ->
  flat_weights tot probs indices beta = inr ws ->
  exists m, (0 < m)%R /\
            np_max ws = inr (m / (m + eps8))%R /\
            (m / (m + eps8) < 1)%R /\
            Forall (fun w => (0 < w)%R) ws.
Proof.
  intros Hps Hpos. unfold flat_weights. rewrite Hps.
  set (raw := map (fun p => float_pow (IZR tot * p) (- beta)) ps).
  assert (Hraw : Forall (fun w => (0 < w)%R) raw).
  { unfold raw. apply Forall_map. eapply Forall_impl; [| exact Hpos].
    cbv beta. intros p Hp. now apply float_pow_pos. }
  destruct (np_max raw) as [e | m] eqn:Em; [discriminate |].
  intros Hws. inversion Hws; subst; clear Hws.
  destruct (np_max_spec raw m Em) as (Hin & _).
  assert (Hm : (0 < m)%R).
  { rewrite Forall_forall in Hraw. now apply Hraw. }
  assert (He : (0 < m + eps8)%R) by (unfold eps8; lra).
  exists m. split; [exact Hm |]. split; [| split].
  - now apply np_max_map_div.
  - apply (Rmult_lt_reg_r (m + eps8)); [exact He |].
    unfold Rdiv. rewrite Rmult_assoc, Rinv_l by lra. unfold eps8. lra.
  - apply Forall_map. eapply Forall_impl; [| exact Hraw].
    cbv beta. intros w Hw. now apply Rdiv_lt_0_compat.
Qed.

(** ** Indices outside the priority array *)

Lemma setitem_length {A} (t v : list A) (i : Z) (x : A) :
  setitem t i x = inr v -> length v = length t.
Proof.
  unfold setitem. destruct (norm_index _ _); [| discriminate].
  intros Hv. inversion Hv. apply list_set_length.
Qed.

Lemma for_each_preserves {S A} (P : S -> Prop) (body : A -> M S unit) :
  (forall x s r s', P s -> body x s = (r, s') -> P s') ->
  forall xs s r s', P s -> for_each xs body s = (r, s') -> P s'.
Proof.
  intros Hbody. induction xs as [| x xs IH]; intros s r s' Hs Hrun.
  - cbn in Hrun. inversion Hrun; subst. exact Hs.
  - cbn [for_each] in Hrun. unfold bind in Hrun.
    destruct (body x s) as [[e | []] s1] eqn:E.
    + inversion Hrun; subst. eapply Hbody; eassumption.
    + eapply IH; [| exact Hrun]. eapply Hbody; eassumption.
Qed.

Lemma prio_update_one_shape (ip : Z * R) (self self' : PrioritizedReplayBuffer)
      (r : exn + unit) :
  prio_update_one ip self = (r, self') ->
  base self' = base self /\ alpha self' = alpha self /\
  length (priorities self') = length (priorities self) /\
  (max_priority self <= max_priority self')%R.
Proof.
  unfold prio_update_one, bind, get_self, lift, modify.
  destruct (setitem (priorities self) (fst ip) _) as [e | v] eqn:E;
    intros Hrun; inversion Hrun; subst; clear Hrun; cbn.
  - repeat split; try reflexivity; lra.
  - repeat split; try reflexivity.
    + eapply setitem_length; eassumption.
    + apply Rmax_l.
Qed.

Lemma prio_update_shape (pairs : list (Z * R))
      (self self' : PrioritizedReplayBuffer) (r : exn + unit) :
  for_each pairs prio_update_one self = (r, self') ->
  base self' = base self /\ alpha self' = alpha self /\
  length (priorities self') = length (priorities self) /\
  (max_priority self <= max_priority self')%R.
Proof.
  apply (for_each_preserves
           (fun s => base s = base self /\ alpha s = alpha self /\
                     length (priorities s) = length (priorities self) /\
                     (max_priority self <= max_priority s)%R)).
  - intros x s r0 s0 (H1 & H2 & H3 & H4) Hrun.
    destruct (prio_update_one_shape x s s0 r0 Hrun) as (K1 & K2 & K3 & K4).
    repeat split; try congruence. lra.
  - repeat split; try reflexivity; lra.
Qed.

(** Propagation changes nothing but tree nodes, whatever its outcome. *)
Lemma propagate_same_fields (depth : nat) (change : R) :
  forall (cur : Z) (t t' : SumTree) (r : exn + unit),
    _propagate depth cur change t = (r, t') -> same_fields t t'.
Proof.
  induction depth as [| d IH]; intros cur t t' r Hrun.
  - cbn in Hrun. inversion Hrun; subst. unfold same_fields. auto.
  - cbn [_propagate] in Hrun. unfold bind, get_self, lift, modify in Hrun.
    destruct (getitem (tree t) _) as [e | old];
      [inversion Hrun; subst; unfold same_fields; auto |].
    destruct (setitem (tree t) _ _) as [e | v] eqn:Ev;
      [inversion Hrun; subst; unfold same_fields; auto |].
    apply setitem_length in Ev.
    assert (Hs : same_fields t (set_tree v t)).
    { unfold same_fields. cbn. auto. }
    destruct (negb _).
    + apply IH in Hrun. destruct Hrun as (A1 & A2 & A3 & A4 & A5).
      destruct Hs as (B1 & B2 & B3 & B4 & B5).
      unfold same_fields. repeat split; congruence.
    + inversion Hrun; subst. exact Hs.
Qed.

Lemma update_same_fields (depth : nat) (idx : Z) (p : R) (t t' : SumTree)
      (r : exn + unit) :
  update depth idx p t = (r, t') -> same_fields t t'.
Proof.
  unfold update, bind, get_self, lift, modify.
  destruct (getitem (tree t) idx) as [e | old];
    [intros Hrun; inversion Hrun; subst; unfold same_fields; auto |].
  destruct (setitem (tree t) idx p) as [e | v] eqn:Ev;
    [intros Hrun; inversion Hrun; subst; unfold same_fields; auto |].
  apply setitem_length in Ev. intros Hrun.
  apply propagate_same_fields in Hrun. destruct Hrun as (A1 & A2 & A3 & A4 & A5).
  cbn in *. unfold same_fields. repeat split; congruence.
Qed.

Lemma per_update_one_shape `{FloatPow} (depth : nat) (ip : Z * R)
      (self self' : PERBufferSumTree) (r : exn + unit) :
  per_update_one depth ip self = (r, self') ->
  same_fields (per_tree self) (per_tree self') /\
  per_alpha self' = per_alpha self /\ per_epsilon self' = per_epsilon self /\
  (per_max_priority self <= per_max_priority self')%R.
Proof.
  unfold per_update_one, bind, get_self, on_tree, modify.
  destruct (update depth (fst ip) _ (per_tree self)) as [[e | []] t'] eqn:E;
    intros Hrun; inversion Hrun; subst; clear Hrun; cbn;
    apply update_same_fields in E; repeat split; try reflexivity;
    try (destruct E as (A1 & A2 & A3 & A4 & A5); assumption); try lra.
  apply Rmax_l.
Qed.

Lemma per_update_shape `{FloatPow} (depth : nat) (pairs : list (Z * R))
      (self self' : PERBufferSumTree) (r : exn + unit) :
  for_each pairs (per_update_one depth) self = (r, self') ->
  same_fields (per_tree self) (per_tree self') /\
  per_alpha self' = per_alpha self /\ per_epsilon self' = per_epsilon self /\
  (per_max_priority self <= per_max_priority self')%R.
Proof.
  apply (for_each_preserves
           (fun s => same_fields (per_tree self) (per_tree s) /\
                     per_alpha s = per_alpha self /\
                     per_epsilon s = per_epsilon self /\
                     (per_max_priority self <= per_max_priority s)%R)).
  - intros x s r0 s0 (H1 & H2 & H3 & H4) Hrun.
    destruct (per_update_one_shape depth x s s0 r0 Hrun) as (K1 & K2 & K3 & K4).
    split; [| repeat split; try congruence; lra].
    destruct H1 as (A1 & A2 & A3 & A4 & A5).
    destruct K1 as (B1 & B2 & B3 & B4 & B5).
    unfold same_fields. repeat split; congruence.
  - unfold same_fields. repeat split; try reflexivity; lra.
Qed.

Lemma combine_app_cons {A B} (xs xs' : list A) (ys ys' : list B) (x : A) (y : B) :
  length xs = length ys ->
  combine (xs ++ x :: xs') (ys ++ y :: ys')
  = combine xs ys ++ (x, y) :: combine xs' ys'.
Proof.
  revert ys. induction xs as [| a xs IH]; intros [| b ys] Hlen;
    cbn in *; try discriminate; [reflexivity |].
  f_equal. apply IH. lia.
Qed.

(** C9 (as amended): [update_priorities] stops with [IndexError] at the
    first pair whose index lies outside the priority array and writes
    nothing for that pair or the pairs after it.  The array is the
    [capacity] priorities in the flat variant and the [2 * capacity - 1]
    tree nodes in the tree variant, whose indices are tree positions. *)
Theorem update_priorities_outside_array `{FloatPow} :
  (forall (self s1 : PrioritizedReplayBuffer) (pre post : list Z)
          (pre_e post_e : list R) (i : Z) (e : R),
      Z.of_nat (length (priorities self)) = capacity (base self) ->
      length pre = length pre_e ->
      prio_update_priorities pre pre_e self = (inr tt, s1) ->
      i < - capacity (base self) \/ capacity (base self) <= i ->
      prio_update_priorities (pre ++ i :: post) (pre_e ++ e :: post_e) self
      = (inl IndexError, s1)) /\
  (forall (depth : nat) (self s1 : PERBufferSumTree) (pre post : list Z)
          (pre_e post_e : list R) (i : Z) (e : R),
      let N := st_capacity (per_tree self) in
      Z.of_nat (length (tree (per_tree self))) = 2 * N - 1 ->
      length pre = length pre_e ->
      per_update_priorities depth pre pre_e self = (inr tt, s1) ->
      i < - (2 * N - 1) \/ 2 * N - 1 <= i ->
      per_update_priorities depth (pre ++ i :: post) (pre_e ++ e :: post_e) self
      = (inl IndexError, s1)).
Proof.
  split.
  - intros self s1 pre post pre_e post_e i e Hlen Hpre Hrun Hi.
    unfold prio_update_priorities in *.
    rewrite combine_app_cons by assumption.
    rewrite (for_each_app _ _ _ _ _ Hrun).
    apply for_each_fails.
    destruct (prio_update_shape _ _ _ _ Hrun) as (_ & _ & Hl & _).
    unfold prio_update_one, bind, get_self, lift. cbn [fst snd].
    unfold setitem. rewrite norm_index_outside; [reflexivity |]. rewrite Hl. lia.
  - intros depth self s1 pre post pre_e post_e i e N Hlen Hpre Hrun Hi.
    unfold per_update_priorities in *.
    rewrite combine_app_cons by assumption.
    rewrite (for_each_app _ _ _ _ _ Hrun).
    apply for_each_fails.
    destruct (per_update_shape _ _ _ _ _ Hrun) as ((_ & _ & _ & _ & Hl) & _).
    unfold per_update_one, on_tree, update, bind, get_self, lift. cbn [fst snd].
    unfold getitem. rewrite norm_index_outside; [| rewrite Hl; lia].
    destruct s1; reflexivity.
Qed.

(** ** Priorities seeded by [push] *)

Lemma put_nil {A} (a : list A) (vals : list A) : put a [] vals = inr a.
Proof. reflexivity. Qed.

Lemma put_ok {A} (a : list A) (idx : list Z) (vals : list A) :
  Forall (fun i => 0 <= i < Z.of_nat (length a)) idx ->
  exists a', put a idx vals = inr a' /\ length a' = length a.
Proof.
  intros Hidx. unfold put.
  assert (Hall : forallb (fun i => match norm_index (length a) i with
                                   | Some _ => true | None => false end) idx = true).
  { apply forallb_forall. intros i Hi. rewrite Forall_forall in Hidx.
    rewrite norm_index_in_range by auto. reflexivity. }
  rewrite Hall. eexists. split; [reflexivity | apply fold_list_set_length].
Qed.

Lemma push_indices_in_range (pos cap n : Z) :
  0 < cap ->
  Forall (fun i => 0 <= i < cap) (map (fun k => np_mod (k + pos) cap) (arange n)).
Proof.
  intros Hcap. apply Forall_forall. intros i Hi. apply in_map_iff in Hi.
  destruct Hi as (k & <- & _). unfold np_mod.
  destruct (cap =? 0) eqn:E; [apply Z.eqb_eq in E; lia |].
  apply Z.mod_pos_bound. lia.
Qed.

(** [push] of any batch into a ring with room for at least one entry. *)
Lemma push_run_ok (b : ReplayBuffer) (arg : PushArg) :
  ring_shape b -> 0 < capacity b ->
  let B := Z.of_nat (length (expand_dims arg)) in
  exists b', push arg b = (inr tt, b') /\ ring_shape b' /\
             capacity b' = capacity b /\
             position b' = (position b + B) mod capacity b /\
             size b' = Z.min (size b + B) (capacity b).
Proof.
  intros [H1 H2 H3 H4 H5 H6 H7] Hcap B.
  unfold push, bind, get_self, lift, modify. fold B.
  set (idx := map (fun k => np_mod (k + position b) (capacity b)) (arange B)).
  assert (Hidx : Forall (fun i => 0 <= i < capacity b) idx)
    by (apply push_indices_in_range; exact Hcap).
  destruct (put_ok (states b) idx
                   (map (fun t => astype_uint8 (t_state t)) (expand_dims arg)))
    as (a1 & -> & L1); [now rewrite H1 |].
  destruct (put_ok (actions b) idx
                   (map (fun t => astype_int64 (t_action t)) (expand_dims arg)))
    as (a2 & -> & L2); [now rewrite H2 |].
  destruct (put_ok (rewards b) idx (map t_reward (expand_dims arg)))
    as (a3 & -> & L3); [now rewrite H3 |].
  destruct (put_ok (next_states b) idx
                   (map (fun t => astype_uint8 (t_next_state t)) (expand_dims arg)))
    as (a4 & -> & L4); [now rewrite H4 |].
  destruct (put_ok (dones b) idx
                   (map (fun t => float_of_bool (t_done t)) (expand_dims arg)))
    as (a5 & -> & L5); [now rewrite H5 |].
  unfold py_mod. destruct (capacity b =? 0) eqn:E; [apply Z.eqb_eq in E; lia |].
  eexists. split; [reflexivity |]. cbn.
  split; [| repeat split; reflexivity].
  constructor; cbn; try congruence.
  - right. apply Z.mod_pos_bound. lia.
  - lia.
Qed.

(** [push] into a ring of capacity zero raises and leaves the ring as it
    was. *)
Lemma push_zero_capacity (b : ReplayBuffer) (arg : PushArg) :
  ring_shape b -> capacity b = 0 ->
  exists e b', push arg b = (inl e, b') /\ ring_shape b' /\
               capacity b' = 0 /\ size b' = size b /\ position b' = position b.
Proof.
  intros Hs Hcap. pose proof Hs as [H1 H2 H3 H4 H5 H6 H7].
  unfold push, bind, get_self, lift, modify.
  destruct (expand_dims arg) as [| t ts].
  - cbn [length Z.of_nat map]. change (arange 0) with (@nil Z). cbn [map].
    rewrite !put_nil. unfold py_mod. rewrite Hcap. cbn [Z.eqb].
    eexists. eexists. split; [reflexivity |]. cbn.
    split; [| auto]. constructor; cbn; assumption.
  - assert (Hfail : forall (A : Type) (a : list A) (vals : list A) (rest : list Z),
               length a = 0%nat -> put a (0 :: rest) vals = inl IndexError).
    { intros A a vals rest Ha. unfold put. cbn [forallb]. rewrite Ha. reflexivity. }
    unfold arange. rewrite Nat2Z.id. cbn [length seq map].
    unfold np_mod at 1. rewrite Hcap. cbn [Z.eqb].
    rewrite Hfail by lia.
    exists IndexError, b. auto.
Qed.

Lemma node_list_set_nat (a : list R) (k : nat) (j : Z) (x : R) :
  (k < length a)%nat -> 0 <= j ->
  node (list_set a k x) j = if Nat.eqb k (Z.to_nat j) then x else node a j.
Proof.
  intros Hk Hj. unfold node. destruct (Nat.eqb k (Z.to_nat j)) eqn:E.
  - apply Nat.eqb_eq in E. subst k. now apply nth_list_set_eq.
  - apply Nat.eqb_neq in E. now apply nth_list_set_neq.
Qed.

(** Writing one value through an index array: the addressed entries hold
    the value, the others are as before. *)
Lemma fold_put_const (m : R) (n : nat) (idx : list Z) :
  Forall (fun i => 0 <= i < Z.of_nat n) idx ->
  forall (a : list R) (j : Z),
    length a = n -> 0 <= j ->
    node (fold_left (fun acc iv =>
                       match norm_index n (fst iv) with
                       | Some k => list_set acc k (snd iv)
                       | None => acc
                       end) (combine idx (repeat m (length idx))) a) j
    = if existsb (Z.eqb j) idx then m else node a j.
Proof.
  induction 1 as [| i idx Hi _ IH]; intros a j Ha Hj.
  - reflexivity.
  - cbn [length repeat combine fold_left fst snd existsb].
    rewrite norm_index_in_range by assumption.
    rewrite IH by (rewrite ?list_set_length; assumption).
    destruct (existsb (Z.eqb j) idx); [now rewrite orb_true_r |].
    rewrite orb_false_r, node_list_set by lia. reflexivity.
Qed.

Lemma put_const (m : R) (a a' : list R) (idx : list Z) (j : Z) :
  Forall (fun i => 0 <= i < Z.of_nat (length a)) idx ->
  put a idx (repeat m (length idx)) = inr a' -> 0 <= j ->
  node a' j = if existsb (Z.eqb j) idx then m else node a j.
Proof.
  intros Hidx Hput Hj. unfold put in Hput.
  destruct (forallb _ idx); [| discriminate].
  inversion Hput; subst; clear Hput. now apply fold_put_const.
Qed.

Lemma push_batch_size (arg : PushArg) :
  match arg with
  | Batched ts => Z.of_nat (length ts)
  | Single _ => 1
  end = Z.of_nat (length (expand_dims arg)).
Proof. destruct arg; reflexivity. Qed.

Lemma sum_R_pos (l : list R) :
  l <> [] -> Forall (fun x => (0 < x)%R) l -> (0 < sum_R l)%R.
Proof.
  intros Hne Hall. induction Hall as [| x l Hx Hall IH]; [contradiction |].
  cbn. destruct l as [| y l].
  - cbn. lra.
  - assert (0 < sum_R (y :: l))%R by (apply IH; discriminate). lra.
Qed.

Lemma firstn_all_positive (a : list R) (n : nat) :
  (n <= length a)%nat ->
  (forall i, 0 <= i < Z.of_nat n -> (0 < node a i)%R) ->
  Forall (fun x => (0 < x)%R) (firstn n a).
Proof.
  revert n. induction a as [| x a IH]; intros [| n] Hn Hpos; cbn in *;
    try constructor; try lia.
  - apply (Hpos 0). lia.
  - apply IH; [lia |]. intros i Hi.
    specialize (Hpos (i + 1) ltac:(lia)). unfold node in *.
    replace (Z.to_nat (i + 1)) with (S (Z.to_nat i)) in Hpos by lia.
    exact Hpos.
Qed.

Lemma flat_inv_init (N : Z) (a : R) (b : PrioritizedReplayBuffer) :
  PrioritizedReplayBuffer_init N a = inr b -> flat_inv b.
Proof.
  unfold PrioritizedReplayBuffer_init.
  destruct (ReplayBuffer_init N) as [e | b0] eqn:E; [discriminate |].
  intros Hb. inversion Hb; subst; clear Hb.
  destruct (ReplayBuffer_init_shape N b0 E) as (Hs & Hc & Hp & Hz).
  unfold flat_inv, prio_shape. cbn.
  split; [split; [exact Hs |] |].
  - rewrite repeat_length, Hc. destruct Hs as [_ _ _ _ _ _ Hsz]. lia.
  - split; [lia |]. split; [intros i Hi; lia | lra].
Qed.

Lemma prio_push_inv (b b' : PrioritizedReplayBuffer) (arg : PushArg)
      (r : exn + unit) :
  flat_inv b -> prio_push arg b = (r, b') ->
  flat_inv b' /\ max_priority b' = max_priority b /\
  (r = inr tt ->
   forall k, 0 <= k < Z.of_nat (length (expand_dims arg)) ->
             node (priorities b')
                  ((k + position (base b)) mod capacity (base b))
             = max_priority b).
Proof.
  intros ((Hring & Hlen) & Hcouple & Hpos & Hmax) Hrun.
  unfold prio_push, bind, get_self, super, lift, modify in Hrun.
  rewrite push_batch_size in Hrun.
  set (B := Z.of_nat (length (expand_dims arg))) in *.
  assert (Hcap : capacity (base b) = 0 \/ 0 < capacity (base b))
    by (destruct Hring; lia).
  destruct Hcap as [Hcap | Hcap].
  - destruct (push_zero_capacity (base b) arg Hring Hcap)
      as (e & b1 & Hpush & Hring1 & Hc1 & Hz1 & Hp1).
    rewrite Hpush in Hrun. inversion Hrun; subst; clear Hrun. cbn.
    split; [| split; [reflexivity | discriminate]].
    unfold flat_inv, prio_shape. cbn.
    split; [split; [exact Hring1 | congruence] |].
    split; [lia |]. split; [| exact Hmax].
    intros i Hi. apply Hpos. lia.
  - destruct (push_run_ok (base b) arg Hring Hcap)
      as (b1 & Hpush & Hring1 & Hc1 & Hp1 & Hz1).
    fold B in Hp1, Hz1. rewrite Hpush in Hrun. cbn in Hrun.
    set (idxs := map (fun k => np_mod (k + position (base b)) (capacity (base b)))
                     (arange B)) in *.
    assert (Hidx : Forall (fun i => 0 <= i < Z.of_nat (length (priorities b))) idxs).
    { rewrite Hlen. apply push_indices_in_range. exact Hcap. }
    destruct (put_ok (priorities b) idxs (repeat (max_priority b) (length idxs)) Hidx)
      as (v & Hput & Hvlen).
    rewrite Hput in Hrun. inversion Hrun; subst; clear Hrun. cbn.
    assert (Hv : forall j, 0 <= j ->
                           node v j = if existsb (Z.eqb j) idxs
                                      then max_priority b
                                      else node (priorities b) j).
    { intros j Hj. now apply (put_const _ (priorities b)). }
    assert (Hin : forall k, 0 <= k < B ->
                            existsb (Z.eqb ((k + position (base b))
                                              mod capacity (base b))) idxs = true).
    { intros k Hk. apply existsb_exists.
      exists ((k + position (base b)) mod capacity (base b)).
      split; [| apply Z.eqb_refl]. unfold idxs. apply in_map_iff.
      exists k. split; [| apply arange_In; lia].
      unfold np_mod. destruct (capacity (base b) =? 0) eqn:E;
        [apply Z.eqb_eq in E; lia | reflexivity]. }
    split; [| split; [reflexivity |]].
    + unfold flat_inv, prio_shape. cbn.
      assert (Hsz : 0 <= size (base b) <= capacity (base b))
        by (destruct Hring; assumption).
      split; [split; [exact Hring1 | lia] |].
      split; [| split; [| exact Hmax]].
      * intros Hlt. rewrite Hz1, Hc1 in *.
        rewrite Hp1, Hcouple by lia. rewrite Z.mod_small by lia. lia.
      * intros j Hj. rewrite Hv by lia.
        destruct (existsb (Z.eqb j) idxs) eqn:Ej; [lra |].
        destruct (Z_lt_ge_dec j (size (base b))) as [Hlt | Hge];
          [apply Hpos; lia |].
        exfalso. rewrite Hz1 in Hj.
        specialize (Hin (j - size (base b)) ltac:(lia)).
        rewrite Hcouple in Hin by lia.
        replace (j - size (base b) + size (base b)) with j in Hin by lia.
        rewrite Z.mod_small in Hin by lia. congruence.
    + intros _ k Hk. rewrite Hv by (apply Z.mod_pos_bound; lia).
      now rewrite Hin.
Qed.

Lemma prio_update_one_inv (ip : Z * R) (s s' : PrioritizedReplayBuffer)
      (r : exn + unit) :
  flat_inv s -> prio_update_one ip s = (r, s') -> flat_inv s'.
Proof.
  intros ((Hring & Hlen) & Hcouple & Hpos & Hmax) Hrun.
  unfold prio_update_one, bind, get_self, lift, modify, setitem in Hrun.
  destruct (norm_index (length (priorities s)) (fst ip)) as [k |] eqn:Ek;
    inversion Hrun; subst; clear Hrun; cbn.
  - apply norm_index_bound in Ek.
    unfold flat_inv, prio_shape. cbn. rewrite list_set_length.
    split; [split; assumption |]. split; [exact Hcouple |]. split.
    + intros i Hi. rewrite node_list_set_nat by lia.
      destruct (Nat.eqb k (Z.to_nat i)); [| now apply Hpos].
      pose proof (clamp_priority_range (snd ip)). unfold eps6 in *. lra.
    + pose proof (Rmax_l (max_priority s) (clamp_priority (snd ip))). lra.
  - unfold flat_inv, prio_shape. auto.
Qed.

Lemma flat_reachable_inv (b : PrioritizedReplayBuffer) :
  flat_reachable b -> flat_inv b.
Proof.
  induction 1 as [N a b Hinit | b b' arg r _ IH Hrun | b b' idx tds r _ IH Hrun].
  - eapply flat_inv_init; eassumption.
  - eapply prio_push_inv; eassumption.
  - unfold prio_update_priorities in Hrun.
    eapply (for_each_preserves flat_inv); [| exact IH | exact Hrun].
    intros x s r0 s0. apply prio_update_one_inv.
Qed.

Lemma flat_inv_prob_sum `{FloatPowLaws} (b : PrioritizedReplayBuffer) :
  flat_inv b -> 0 < size (base b) ->
  (0 < prob_sum b)%R /\
  sample_probs b
  = map (fun p => (p / prob_sum b)%R)
        (map (fun p => float_pow p (alpha b))
             (firstn (Z.to_nat (size (base b))) (priorities b))).
Proof.
  intros ((Hring & Hlen) & _ & Hpos & _) Hsz.
  assert (Hsize : 0 <= size (base b) <= capacity (base b))
    by (destruct Hring; assumption).
  assert (Hsum : (0 < prob_sum b)%R).
  { unfold prob_sum. apply sum_R_pos.
    - intros Hnil. apply (f_equal (@length R)) in Hnil.
      rewrite length_map, length_firstn in Hnil. cbn in Hnil. lia.
    - apply Forall_map.
      eapply Forall_impl; [| apply (firstn_all_positive (priorities b)
                                      (Z.to_nat (size (base b))))].
      + intros x Hx. now apply float_pow_pos.
      + lia.
      + intros i Hi. apply Hpos. lia. }
  split; [exact Hsum |].
  unfold sample_probs. fold (prob_sum b).
  destruct (Req_dec_T (prob_sum b) 0) as [Hz | _]; [lra | reflexivity].
Qed.

Lemma getitem_inr_nonneg {A} (t : list A) (i : Z) (x : A) :
  0 <= i -> getitem t i = inr x -> i < Z.of_nat (length t).
Proof.
  intros Hi. unfold getitem.
  destruct (Z_lt_ge_dec i (Z.of_nat (length t))) as [Hlt | Hge]; [auto |].
  rewrite norm_index_outside by lia. discriminate.
Qed.

(** Propagation from a node below the root only writes to proper
    ancestors, whatever its outcome. *)
Lemma propagate_untouched (depth : nat) (change : R) :
  forall (cur : Z) (t t' : SumTree) (r : exn + unit),
    1 <= cur ->
    _propagate depth cur change t = (r, t') ->
    forall j, (cur - 1) / 2 < j -> node (tree t') j = node (tree t) j.
Proof.
  induction depth as [| d IH]; intros cur t t' r Hcur Hrun j Hj.
  - cbn in Hrun. inversion Hrun; subst. reflexivity.
  - assert (Hpar : 0 <= (cur - 1) / 2 < cur) by (Z.div_mod_to_equations; lia).
    cbn [_propagate] in Hrun. unfold py_floordiv, bind, get_self, lift, modify in Hrun.
    destruct (getitem (tree t) ((cur - 1) / 2)) as [e | old] eqn:Eg;
      [inversion Hrun; subst; reflexivity |].
    pose proof (getitem_inr_nonneg _ _ _ (proj1 Hpar) Eg) as Hin.
    rewrite setitem_in_range in Hrun by lia.
    assert (Hset : node (list_set (tree t) (Z.to_nat ((cur - 1) / 2))
                                  (old + change)%R) j = node (tree t) j).
    { rewrite node_list_set by lia.
      destruct (j =? (cur - 1) / 2) eqn:E; [apply Z.eqb_eq in E; lia | reflexivity]. }
    destruct ((cur - 1) / 2 =? 0) eqn:E; cbn [negb] in Hrun.
    + inversion Hrun; subst. cbn. exact Hset.
    + apply Z.eqb_neq in E.
      assert (Hp1 : 1 <= (cur - 1) / 2) by lia.
      rewrite (IH _ _ _ _ Hp1 Hrun j) by (Z.div_mod_to_equations; lia).
      cbn. exact Hset.
Qed.

(** An [update] that returns has written [p] at the addressed node. *)
Lemma update_success_leaf (depth : nat) (idx : Z) (p : R) (t t' : SumTree) :
  0 <= idx < Z.of_nat (length (tree t)) ->
  update depth idx p t = (inr tt, t') ->
  1 <= idx /\ node (tree t') idx = p.
Proof.
  intros Hidx Hrun. rewrite update_unfold in Hrun by assumption.
  assert (H1 : 1 <= idx).
  { destruct (Z.eq_dec idx 0) as [-> | Hne]; [| lia].
    destruct (propagate_root_recursion depth (p - node (tree t) 0)%R 0
                (set_tree (list_set (tree t) (Z.to_nat 0) p) t))
      as (t1 & Hfail & _).
    - now left.
    - cbn. rewrite list_set_length. lia.
    - rewrite Hfail in Hrun. discriminate. }
  split; [exact H1 |].
  rewrite (propagate_untouched _ _ _ _ _ _ H1 Hrun idx)
    by (Z.div_mod_to_equations; lia).
  cbn. rewrite node_list_set by lia. now rewrite Z.eqb_refl.
Qed.

Lemma same_fields_shape (t t' : SumTree) :
  same_fields t t' -> tree_shape t -> tree_shape t'.
Proof.
  intros (A1 & A2 & A3 & A4 & A5) (B1 & B2 & B3 & B4).
  unfold tree_shape. rewrite A1, A2, A3, A5. auto.
Qed.

(** [add], whatever its outcome, keeps the shape of the tree; when it
    returns, the leaf under the cursor holds the priority given. *)
Lemma add_shape (depth : nat) (p : R) (d : Transition) (t t' : SumTree)
      (r : exn + unit) :
  tree_shape t -> add depth p d t = (r, t') ->
  tree_shape t' /\
  (r = inr tt ->
   node (tree t') (write t + st_capacity t - 1) = p).
Proof.
  intros Hs Hrun. pose proof Hs as (Hc & Hlt & Hld & Hw).
  unfold add, bind, get_self, lift, modify in Hrun.
  rewrite setitem_in_range in Hrun by lia.
  set (t0 := set_data _ t) in Hrun.
  assert (Hs0 : tree_shape t0).
  { unfold tree_shape, t0. cbn. rewrite list_set_length. auto. }
  destruct (update depth (write t + st_capacity t - 1) p t0)
    as [[e | []] t1] eqn:Eu.
  - inversion Hrun; subst; clear Hrun.
    split; [| discriminate].
    apply update_same_fields in Eu. eapply same_fields_shape; eassumption.
  - pose proof Eu as Hsame. apply update_same_fields in Hsame.
    pose proof (same_fields_shape _ _ Hsame Hs0) as (C1 & C2 & C3 & C4).
    unfold py_mod in Hrun.
    destruct (st_capacity t1 =? 0) eqn:E; [apply Z.eqb_eq in E; lia |].
    inversion Hrun; subst; clear Hrun. cbn. split.
    + unfold tree_shape. cbn. repeat split; try assumption;
        apply Z.mod_pos_bound; lia.
    + intros _. apply (update_success_leaf depth _ p t0 t1); [| exact Eu].
      unfold t0. cbn. lia.
Qed.

Lemma per_inv_init (N : Z) (a : R) (b : PERBufferSumTree) :
  PERBufferSumTree_init N a = inr b -> per_inv b.
Proof.
  unfold PERBufferSumTree_init, SumTree_init.
  destruct (2 * N - 1 <? 0) eqn:E; [discriminate |]. apply Z.ltb_ge in E.
  intros Hb.
  assert (Hb' : b = mkPERBufferSumTree
                      (mkSumTree N (repeat 0%R (Z.to_nat (2 * N - 1)))
                                 (repeat None (Z.to_nat N)) 0 0) a eps6 1%R)
    by congruence.
  rewrite Hb'. unfold per_inv, tree_shape.
  cbn [per_tree per_max_priority st_capacity tree data write].
  rewrite !repeat_length. split; [| lra]. repeat split; lia.
Qed.

Lemma per_push_inv (depth : nat) (d : Transition) (b b' : PERBufferSumTree)
      (r : exn + unit) :
  per_inv b -> per_push depth d b = (r, b') ->
  per_inv b' /\ per_max_priority b' = per_max_priority b /\
  (r = inr tt ->
   node (tree (per_tree b'))
        (write (per_tree b) + st_capacity (per_tree b) - 1)
   = per_max_priority b).
Proof.
  intros (Hs & Hmax) Hrun. unfold per_push, bind, get_self, on_tree in Hrun.
  destruct (add depth (per_max_priority b) d (per_tree b)) as [r0 t'] eqn:Ea.
  inversion Hrun; subst; clear Hrun. cbn.
  destruct (add_shape _ _ _ _ _ _ Hs Ea) as (Hs' & Hleaf).
  unfold per_inv. cbn. auto.
Qed.

Lemma per_update_inv `{FloatPow} (depth : nat) (indices : list Z) (tds : list R)
      (b b' : PERBufferSumTree) (r : exn + unit) :
  per_inv b -> per_update_priorities depth indices tds b = (r, b') ->
  per_inv b' /\ (per_max_priority b <= per_max_priority b')%R.
Proof.
  intros (Hs & Hmax) Hrun. unfold per_update_priorities in Hrun.
  destruct (per_update_shape _ _ _ _ _ Hrun) as (Hsame & _ & _ & Hle).
  split; [| exact Hle]. split; [| lra].
  eapply same_fields_shape; eassumption.
Qed.

Lemma per_reachable_inv `{FloatPow} (b : PERBufferSumTree) :
  per_reachable b -> per_inv b.
Proof.
  induction 1 as [N a b Hinit | depth b b' d r _ IH Hrun
                  | depth b b' idx tds r _ IH Hrun].
  - eapply per_inv_init; eassumption.
  - eapply per_push_inv; eassumption.
  - eapply per_update_inv; eassumption.
Qed.

(** [push] of the flat variant returns on every buffer with room for an
    entry. *)
Lemma prio_push_returns (b : PrioritizedReplayBuffer) (arg : PushArg) :
  prio_shape b -> 0 < capacity (base b) ->
  exists b', prio_push arg b = (inr tt, b').
Proof.
  intros (Hring & Hlen) Hcap.
  unfold prio_push, bind, get_self, super, lift, modify.
  rewrite push_batch_size.
  destruct (push_run_ok (base b) arg Hring Hcap) as (b1 & Hpush & _).
  rewrite Hpush. cbn [set_base base priorities max_priority].
  set (idxs := map _ (arange _)).
  assert (Hidx : Forall (fun i => 0 <= i < Z.of_nat (length (priorities b))) idxs).
  { rewrite Hlen. apply push_indices_in_range. exact Hcap. }
  destruct (put_ok (priorities b) idxs (repeat (max_priority b) (length idxs)) Hidx)
    as (v & Hput & _).
  rewrite Hput. eexists. reflexivity.
Qed.

(** [push] of the tree variant returns on every tree with at least two
    leaves, given the recursion depth for its height. *)
Lemma per_push_returns (depth : nat) (d : Transition) (b : PERBufferSumTree) :
  tree_shape (per_tree b) ->
  2 <= st_capacity (per_tree b) ->
  2 * st_capacity (per_tree b) <= 2 ^ Z.of_nat depth ->
  exists b', per_push depth d b = (inr tt, b').
Proof.
  intros (Hc & Hlt & Hld & Hw) HN Hd.
  unfold per_push, bind, get_self, on_tree.
  unfold add, bind, get_self, lift, modify.
  rewrite setitem_in_range by lia.
  set (t0 := set_data _ (per_tree b)).
  destruct (update_run depth (write (per_tree b) + st_capacity (per_tree b) - 1)
              (per_max_priority b) t0) as (t1 & Hup & Hsame & _).
  { unfold t0. cbn [tree set_data]. lia. }
  { lia. }
  change (write t0) with (write (per_tree b)).
  change (st_capacity t0) with (st_capacity (per_tree b)).
  rewrite Hup. destruct Hsame as (S1 & _). unfold py_mod.
  destruct (st_capacity t1 =? 0) eqn:E;
    [apply Z.eqb_eq in E; unfold t0 in S1; cbn in S1; lia |].
  eexists. reflexivity.
Qed.

(** [push] on a tree of capacity 1: the payload is stored, then the
    update of the only node ends in [RecursionError]; the cursor and
    [n_entries] are not advanced. *)
Lemma per_push_single_node (depth : nat) (d : Transition)
      (b : PERBufferSumTree) (x : R) :
  tree_shape (per_tree b) -> st_capacity (per_tree b) = 1 ->
  tree (per_tree b) = [x] ->
  per_push depth d b
  = (inl RecursionError,
     set_per_tree
       (set_tree [(per_max_priority b
                   + INR depth * (per_max_priority b - x))%R]
                 (set_data [Some d] (per_tree b))) b).
Proof.
  intros (Hc & Hlt & Hld & Hw) Hcap Htree.
  assert (Hw0 : write (per_tree b) = 0) by lia.
  assert (Hdata : exists y, data (per_tree b) = [y]).
  { destruct (data (per_tree b)) as [| y [| z l]]; cbn in Hld; try lia.
    now exists y. }
  destruct Hdata as (y & Hdata).
  unfold per_push, bind, get_self, on_tree.
  unfold add, bind, get_self, lift, modify.
  rewrite Hw0, Hcap, Hdata.
  change (setitem [y] 0 (Some d)) with (@inr exn _ [Some d]).
  cbn [Z.add Z.sub Z.pos_sub Z.opp].
  rewrite (update_single_node depth _ _ x) by exact Htree.
  reflexivity.
Qed.

(** C10: in both priority variants [max_priority] starts at 1 and never
    decreases, so it is at least 1 in every state the methods can
    produce.  A [push] of the flat variant on a buffer of capacity
    [>= 1], and a [push] of the tree variant on a tree of capacity
    [>= 2], returns and has written that value, at least 1, to the slots
    (the leaf) it filled; in the flat variant the powered priorities of a
    non-empty buffer have a positive sum, so [sample] normalises by it
    and never takes the uniform fallback.  On a tree of capacity 1 no
    [push] returns: each ends in [RecursionError] with its payload
    stored, and after the second one the leaf of the payload just written
    is below 1. *)
Theorem max_priority_never_below_one `{FloatPowLaws} :
  (forall N a b, PrioritizedReplayBuffer_init N a = inr b ->
                 max_priority b = 1%R) /\
  (forall b, flat_reachable b ->
             (1 <= max_priority b)%R /\
             (0 < size (base b) ->
              (0 < prob_sum b)%R /\
              sample_probs b
              = map (fun p => (p / prob_sum b)%R)
                    (map (fun p => float_pow p (alpha b))
                         (firstn (Z.to_nat (size (base b))) (priorities b))))) /\
  (forall b b' arg r,
      flat_reachable b -> prio_push arg b = (r, b') ->
      max_priority b' = max_priority b /\
      (r = inr tt ->
       forall k, 0 <= k < Z.of_nat (length (expand_dims arg)) ->
                 node (priorities b')
                      ((k + position (base b)) mod capacity (base b))
                 = max_priority b /\
                 (1 <= max_priority b)%R)) /\
  (forall b b' indices tds r,
      prio_update_priorities indices tds b = (r, b') ->
      (max_priority b <= max_priority b')%R) /\
  (forall N a b, PERBufferSumTree_init N a = inr b ->
                 per_max_priority b = 1%R) /\
  (forall b, per_reachable b -> (1 <= per_max_priority b)%R) /\
  (forall depth b b' d r,
      per_reachable b -> per_push depth d b = (r, b') ->
      per_max_priority b' = per_max_priority b /\
      (r = inr tt ->
       node (tree (per_tree b'))
            (write (per_tree b) + st_capacity (per_tree b) - 1)
       = per_max_priority b /\
       (1 <= per_max_priority b)%R)) /\
  (forall depth b b' indices tds r,
      per_update_priorities depth indices tds b = (r, b') ->
      (per_max_priority b <= per_max_priority b')%R) /\
  (forall b arg,
      flat_reachable b -> 0 < capacity (base b) ->
      exists b', prio_push arg b = (inr tt, b')) /\
  (forall depth b d,
      per_reachable b ->
      2 <= st_capacity (per_tree b) ->
      2 * st_capacity (per_tree b) <= 2 ^ Z.of_nat depth ->
      exists b',
        per_push depth d b = (inr tt, b') /\
        node (tree (per_tree b'))
             (write (per_tree b) + st_capacity (per_tree b) - 1)
        = per_max_priority b /\
        (1 <= per_max_priority b)%R) /\
  (forall depth b d,
      per_reachable b -> st_capacity (per_tree b) = 1 ->
      exists b', per_push depth d b = (inl RecursionError, b')) /\
  (forall depth a d1 d2,
      exists b0 b1 b2,
        PERBufferSumTree_init 1 a = inr b0 /\
        per_push (S depth) d1 b0 = (inl RecursionError, b1) /\
        per_push (S depth) d2 b1 = (inl RecursionError, b2) /\
        data (per_tree b2) = [Some d2] /\
        (node (tree (per_tree b2)) 0 < 1)%R /\
        (1 <= per_max_priority b2)%R).
Proof.
  repeat match goal with |- _ /\ _ => split end.
  - intros N a b Hb. unfold PrioritizedReplayBuffer_init in Hb.
    destruct (ReplayBuffer_init N); [discriminate |].
    inversion Hb; subst. reflexivity.
  - intros b Hb. apply flat_reachable_inv in Hb.
    split; [apply Hb |]. intros Hsz. now apply flat_inv_prob_sum.
  - intros b b' arg r Hb Hrun. apply flat_reachable_inv in Hb.
    destruct (prio_push_inv b b' arg r Hb Hrun) as (_ & Hmax & Hslots).
    split; [exact Hmax |]. intros Hr k Hk.
    split; [now apply Hslots | apply Hb].
  - intros b b' indices tds r Hrun.
    apply (prio_update_shape _ _ _ _ Hrun).
  - intros N a b Hb. unfold PERBufferSumTree_init in Hb.
    destruct (SumTree_init N); [discriminate |].
    inversion Hb; subst. reflexivity.
  - intros b Hb. apply per_reachable_inv in Hb. apply Hb.
  - intros depth b b' d r Hb Hrun. apply per_reachable_inv in Hb.
    destruct (per_push_inv depth d b b' r Hb Hrun) as (_ & Hmax & Hleaf).
    split; [exact Hmax |]. intros Hr.
    split; [now apply Hleaf | apply Hb].
  - intros depth b b' indices tds r Hrun.
    apply (per_update_shape _ _ _ _ _ Hrun).
  - intros b arg Hb Hcap. apply flat_reachable_inv in Hb.
    apply prio_push_returns; [apply Hb | exact Hcap].
  - intros depth b d Hb HN Hd. apply per_reachable_inv in Hb.
    destruct (per_push_returns depth d b (proj1 Hb) HN Hd) as (b' & Hrun).
    destruct (per_push_inv depth d b b' (inr tt) Hb Hrun) as (_ & _ & Hleaf).
    exists b'. split; [exact Hrun |]. split; [now apply Hleaf | apply Hb].
  - intros depth b d Hb Hcap. apply per_reachable_inv in Hb.
    destruct Hb as (Hs & _). pose proof Hs as (_ & Hlt & _).
    assert (Htree : exists x, tree (per_tree b) = [x]).
    { rewrite Hcap in Hlt.
      destruct (tree (per_tree b)) as [| x [| z l]];
        cbn [length] in Hlt; try lia.
      now exists x. }
    destruct Htree as (x & Htree).
    eexists. apply (per_push_single_node depth d b x Hs Hcap Htree).
  - intros depth a d1 d2.
    set (b0 := mkPERBufferSumTree (mkSumTree 1 [0%R] [None] 0 0) a eps6 1%R).
    assert (Hs0 : tree_shape (per_tree b0)) by (unfold tree_shape; cbn; lia).
    pose proof (per_push_single_node (S depth) d1 b0 0%R Hs0 eq_refl eq_refl)
      as Hrun1.
    set (b1 := set_per_tree _ b0) in Hrun1.
    assert (Hs1 : tree_shape (per_tree b1)) by (unfold tree_shape; cbn; lia).
    pose proof (per_push_single_node (S depth) d2 b1 _ Hs1 eq_refl eq_refl)
      as Hrun2.
    exists b0, b1. eexists.
    split; [reflexivity |]. split; [exact Hrun1 |]. split; [exact Hrun2 |].
    split; [reflexivity |]. split; [| cbn; lra].
    unfold node. cbn [per_tree set_per_tree tree set_tree nth Z.to_nat
                      per_max_priority b1 b0].
    pose proof (pos_INR depth) as Hpos. rewrite S_INR. nra.
Qed.

(** ** The concrete buffers *)

Lemma real_pow_laws : @FloatPowLaws real_pow.
Proof.
  constructor. intros x a Hx. cbn. unfold np_power.
  destruct (Req_dec_T x 0) as [Hz | _]; [lra |].
  unfold Rpower. apply exp_pos.
Qed.


Lemma ring3_shape : ring_shape ring3.
Proof. constructor; cbn; lia. Qed.

Lemma flat3_shape : prio_shape flat3.
Proof. split; [apply ring3_shape | reflexivity]. Qed.



(** numpy as released turns every [sample] of the uniform and of the flat
    variant down: the draw raises [TypeError] before anything else
    happens. *)
Lemma numpy_sample_raises (self : ReplayBuffer)
      (pself : PrioritizedReplayBuffer) (n : Z) (beta : R) :
  @sample unit numpy_gen self n tt = (inl TypeError, tt) /\
  @prio_sample unit numpy_gen real_pow pself n beta tt = (inl TypeError, tt).
Proof. split; reflexivity. Qed.

(** ** Examples and counterexamples *)

Lemma sum_tree_invariant_by_capacity_witness :
  (exists t0 t',
      SumTree_init 4 = inr t0 /\
      update_all 3 [(3, 1%R); (5, 2%R); (3, 7%R)] t0 = (inr tt, t') /\
      node (tree t') 0 = (node (tree t') 1 + node (tree t') 2)%R /\
      total t' = inr (leaf_sum 4 (tree t'))) /\
  (exists t0 t',
      SumTree_init 1 = inr t0 /\
      update 1000 0 1%R t0 = (inl RecursionError, t')).
Proof.
  destruct sum_tree_invariant_by_capacity as (Hge2 & Hone).
  split.
  - destruct (Hge2 4 3%nat [(3, 1%R); (5, 2%R); (3, 7%R)])
      as (t0 & t' & H0 & H1 & H2 & H3).
    { lia. }
    { cbn. lia. }
    { repeat constructor; cbn; lia. }
    exists t0, t'. split; [exact H0 |]. split; [exact H1 |].
    split; [exact (H2 0 ltac:(lia)) | exact H3].
  - destruct (Hone 1000%nat 1%R) as (t0 & t' & H0 & _ & H1).
    exists t0, t'. split; [exact H0 | exact H1].
Defined.

Lemma push_ring_order_witness :
  exists b0 b,
    ReplayBuffer_init 2 = inr b0 /\
    push_all demo3 b0 = (inr tt, b) /\
    len b = 2 /\ position b = 1 /\
    row_at b 0 = Some (store_row (demo_transition 12)) /\
    row_at b 1 = Some (store_row (demo_transition 11)).
Proof.
  destruct (push_ring_order 2 demo3) as (b0 & b & H0 & H1 & H2 & H3 & H4);
    [lia | cbn; lia |].
  exists b0, b.
  split; [exact H0 |]. split; [exact H1 |]. split; [exact H2 |].
  split; [exact H3 |]. split.
  - exact (proj1 (H4 0 ltac:(lia))).
  - exact (proj1 (H4 1 ltac:(lia))).
Defined.

(** With capacity 2 and the three pushes [demo3], slot 0 ends up holding
    the push number 2, not the push number [3 - 2 + 0 = 1] (nor the push
    number 0). *)
Lemma push_ring_slot_counterexample :
  exists b0 b,
    ReplayBuffer_init 2 = inr b0 /\
    push_all demo3 b0 = (inr tt, b) /\
    2 < Z.of_nat (length demo3) /\
    row_at b 0 = nth_error (map store_row demo3) 2 /\
    row_at b 0 <> nth_error (map store_row demo3) (Z.to_nat (3 - 2 + 0)) /\
    row_at b 0 <> nth_error (map store_row demo3) 0.
Proof.
  destruct (push_all_from_init 2 demo3 ltac:(lia)) as (b0 & b & H0 & H1 & Hring).
  destruct Hring as (_ & _ & _ & _ & Hrows).
  assert (Hslot : row_at b 0 = nth_error (map store_row demo3) 2).
  { exact (Hrows 2 ltac:(cbn; lia)). }
  exists b0, b. split; [exact H0 |]. split; [exact H1 |].
  split; [cbn; lia |]. split; [exact Hslot |].
  rewrite Hslot. split; intros Heq;
    apply (f_equal (option_map r_action)) in Heq; cbn in Heq; discriminate.
Qed.

Lemma sample_never_draws_last_slot_witness :
  (@sample_indices unit first_fit_gen ring3 2 tt = (inr [0; 1], tt) /\
   ~ In (size ring3 - 1) [0; 1]) /\
  (exists wb, @prio_sample unit first_fit_gen real_pow flat3 2 (4 / 10) tt
              = (inr wb, tt) /\
              ~ In (size (base flat3) - 1) (wb_indices wb)) /\
  (exists e g', @sample unit first_fit_gen ring3 (size ring3) tt = (inl e, g')) /\
  (exists e g', @prio_sample unit first_fit_gen real_pow flat3
                             (size (base flat3)) (4 / 10) tt = (inl e, g')).
Proof.
  destruct (@sample_never_draws_last_slot unit first_fit_gen first_fit_laws real_pow)
    as (H1 & H2 & H3 & H4).
  split; [| split; [| split]].
  - split; [reflexivity |].
    exact (proj2 (proj2 (H1 ring3 2 tt tt [0; 1] eq_refl))).
  - destruct (@prio_sample_returns unit first_fit_gen first_fit_laws real_pow
                flat3 2 (4 / 10)%R tt tt [0; 1] flat3_shape ltac:(lia) eq_refl)
      as (wb & [] & Hrun & _).
    exists wb. split; [exact Hrun |].
    exact (proj2 (proj2 (H2 flat3 2 (4 / 10)%R tt tt wb Hrun))).
  - apply (H3 ring3 tt). cbn. lia.
  - apply (H4 flat3 (4 / 10)%R tt). cbn. lia.
Defined.

Lemma sample_insufficient_data_fails_witness :
  (@sample unit first_fit_gen ring3_empty 1 tt = (inl ValueError, tt) /\
   @sample unit numpy_gen ring3_empty 1 tt = (inl TypeError, tt)) /\
  (@prio_sample unit first_fit_gen real_pow flat3_empty 1 (4 / 10) tt
   = (inl ValueError, tt) /\
   @prio_sample unit numpy_gen real_pow flat3_empty 1 (4 / 10) tt
   = (inl TypeError, tt)) /\
  @per_sample unit first_fit_gen real_pow 100 1000 tree4 5 (4 / 10) tt
  = (inl (AssertionError "Not enough in buffer"), tt).
Proof.
  destruct (@sample_insufficient_data_fails unit first_fit_gen first_fit_laws real_pow)
    as (H1 & H2 & H3).
  destruct (@sample_insufficient_data_fails unit numpy_gen numpy_laws real_pow)
    as (K1 & K2 & _).
  split; [| split].
  - split.
    + destruct (H1 ring3_empty 1 tt ltac:(cbn; lia)) as (e & g' & Hd & Hs).
      assert (He : (@inl exn (list Z) ValueError, tt) = (inl e, g')) by exact Hd.
      injection He as <- <-. exact Hs.
    + destruct (K1 ring3_empty 1 tt ltac:(cbn; lia)) as (e & g' & Hd & Hs).
      assert (He : (@inl exn (list Z) TypeError, tt) = (inl e, g')) by exact Hd.
      injection He as <- <-. exact Hs.
  - split.
    + destruct (H2 flat3_empty 1 (4 / 10)%R tt ltac:(cbn; lia))
        as (e & g' & Hd & Hs).
      assert (He : (@inl exn (list Z) ValueError, tt) = (inl e, g')) by exact Hd.
      injection He as <- <-. exact Hs.
    + destruct (K2 flat3_empty 1 (4 / 10)%R tt ltac:(cbn; lia))
        as (e & g' & Hd & Hs).
      assert (He : (@inl exn (list Z) TypeError, tt) = (inl e, g')) by exact Hd.
      injection He as <- <-. exact Hs.
  - apply H3. cbn. lia.
Defined.

Lemma per_update_leaf_changes_total_witness :
  exists self',
    per_update_priorities 3 [3] [10%R] tree4 = (inr tt, self') /\
    node (tree (per_tree self')) 3 = float_pow (10 + eps6) (6 / 10) /\
    total (per_tree self')
    = inr (4 + (float_pow (10 + eps6) (6 / 10) - 1))%R.
Proof.
  exact (per_update_leaf_changes_total 3 tree4 eq_refl eq_refl (le_n 3)).
Defined.

(** On the capacity-4 buffer, [update_priorities([0], [10.0])] addresses
    the root of the tree: the call ends in [RecursionError], and the
    total it leaves is not the old total plus the new priority minus the
    priority of slot 0. *)
Lemma per_update_root_index_counterexample :
  exists b',
    per_update_priorities 1000 [0] [10%R] tree4 = (inl RecursionError, b') /\
    node (tree (per_tree b')) 0
    <> (node (tree (per_tree tree4)) 0
        + (tree_priority tree4 10 - node (tree (per_tree tree4)) 3))%R.
Proof.
  set (p := tree_priority tree4 10).
  destruct (propagate_root_recursion 1000 (p - node (tree (per_tree tree4)) 0)%R 0
              (set_tree (list_set (tree (per_tree tree4)) (Z.to_nat 0) p)
                        (per_tree tree4)))
    as (t' & Hrun & Hroot).
  { now left. }
  { cbn. lia. }
  assert (Hup : update 1000 0 p (per_tree tree4) = (inl RecursionError, t')).
  { rewrite update_unfold by (cbn; lia). exact Hrun. }
  eexists. split.
  - unfold per_update_priorities. cbn [combine].
    apply for_each_fails. unfold per_update_one, bind, get_self, on_tree.
    cbn [fst snd]. fold p. rewrite Hup. reflexivity.
  - cbn [per_tree set_per_tree]. rewrite Hroot by (cbn; lia).
    clearbody p. unfold node. simpl. lra.
Qed.

Lemma update_priorities_sets_entries_witness :
  (exists self',
      prio_update_priorities [0; 2] [(1 / 2)%R; (-3)%R] flat3 = (inr tt, self') /\
      node (priorities self') 0 = clamp_priority (1 / 2) /\
      node (priorities self') 1 = 1%R /\
      node (priorities self') 2 = clamp_priority (-3) /\
      (eps6 <= clamp_priority (-3) <= 1)%R) /\
  (exists self',
      per_update_priorities 3 [3; 6] [10%R; 2%R] tree4 = (inr tt, self') /\
      node (tree (per_tree self')) 3 = float_pow (Rabs 10 + eps6) (6 / 10) /\
      node (tree (per_tree self')) 6 = float_pow (Rabs 2 + eps6) (6 / 10)) /\
  (exists b0 b',
      PERBufferSumTree_init 1 (6 / 10) = inr b0 /\
      per_update_priorities 1000 [0] [10%R] b0 = (inl RecursionError, b') /\
      per_max_priority b' = per_max_priority b0).
Proof.
  destruct (@update_priorities_sets_entries real_pow) as (Hflat & Htree & Hone).
  split; [| split].
  - destruct (Hflat flat3 [0; 2] [(1 / 2)%R; (-3)%R] eq_refl)
      as (self' & Hrun & Hnode & Hrange & _).
    { repeat constructor; cbn; lia. }
    exists self'. split; [exact Hrun |].
    split; [exact (Hnode 0 ltac:(cbn; lia)) |].
    split; [exact (Hnode 1 ltac:(cbn; lia)) |].
    split; [exact (Hnode 2 ltac:(cbn; lia)) |].
    exact (proj2 (Hrange (-3)%R)).
  - destruct (Htree 3%nat tree4 [3; 6] [10%R; 2%R])
      as (self' & Hrun & Hnode & _).
    { cbn. lia. }
    { cbn. lia. }
    { reflexivity. }
    { repeat constructor; cbn; lia. }
    exists self'. split; [exact Hrun |].
    split; [exact (Hnode 3 ltac:(cbn; lia)) | exact (Hnode 6 ltac:(cbn; lia))].
  - destruct (Hone 1000%nat (6 / 10)%R 10%R) as (b0 & b' & H0 & H1 & _ & H3).
    exists b0, b'. split; [exact H0 |]. split; [exact H1 | exact H3].
Defined.


Lemma update_priorities_outside_array_witness :
  prio_update_priorities [0; 3; 1] [(1 / 2)%R; 1%R; 1%R] flat3
  = (inl IndexError, snd (prio_update_priorities [0] [(1 / 2)%R] flat3)) /\
  per_update_priorities 3 [3; 7; 4] [10%R; 1%R; 1%R] tree4
  = (inl IndexError, snd (per_update_priorities 3 [3] [10%R] tree4)).
Proof.
  destruct (@update_priorities_outside_array real_pow) as (Hflat & Htree).
  split.
  - apply (Hflat flat3 _ [0] [1] [(1 / 2)%R] [1%R] 3 1%R);
      [reflexivity | reflexivity | reflexivity | right; cbn; lia].
  - apply (Htree 3%nat tree4 _ [3] [4] [10%R] [1%R] 7 1%R);
      [reflexivity | reflexivity | reflexivity | right; cbn; lia].
Defined.

(** Index 5 lies outside [[0, 4)], yet on the capacity-4 tree it is the
    leaf of slot 2 and the call returns after writing it; index -1 lies
    outside [[0, 3)], and the flat variant writes the last slot through
    it and returns. *)
Lemma update_priorities_out_of_range_counterexample :
  (exists b',
      per_update_priorities 3 [5] [1%R] tree4 = (inr tt, b') /\
      node (tree (per_tree b')) 5 = tree_priority tree4 1 /\
      ~ (0 <= 5 < st_capacity (per_tree tree4))) /\
  (exists b',
      prio_update_priorities [-1] [(1 / 2)%R] flat3 = (inr tt, b') /\
      node (priorities b') 2 = clamp_priority (1 / 2) /\
      node (priorities flat3) 2 = 1%R /\
      ~ (0 <= -1 < capacity (base flat3))).
Proof.
  split.
  - eexists. split; [reflexivity |]. split; [reflexivity | cbn; lia].
  - eexists. split; [reflexivity |]. split; [reflexivity |].
    split; [reflexivity | cbn; lia].
Qed.

Lemma max_priority_never_below_one_witness :
  (PrioritizedReplayBuffer_init 2 (6 / 10) = inr flat2_fresh /\
   prio_push (Single (demo_transition 7)) flat2_fresh = (inr tt, flat2_pushed) /\
   max_priority flat2_fresh = 1%R /\
   (1 <= max_priority flat2_pushed)%R /\ (0 < prob_sum flat2_pushed)%R /\
   node (priorities flat2_pushed) 0 = 1%R) /\
  (PERBufferSumTree_init 4 (6 / 10) = inr tree4_fresh /\
   per_push 1000 (demo_transition 7) tree4_fresh = (inr tt, tree4_pushed) /\
   per_max_priority tree4_fresh = 1%R /\
   (1 <= per_max_priority tree4_pushed)%R /\
   node (tree (per_tree tree4_pushed)) 3 = 1%R) /\
  (exists b', per_push 3 (demo_transition 8) tree4_fresh = (inr tt, b')) /\
  (exists b0 b1 b2,
      PERBufferSumTree_init 1 (6 / 10) = inr b0 /\
      per_push 1000 (demo_transition 7) b0 = (inl RecursionError, b1) /\
      per_push 1000 (demo_transition 8) b1 = (inl RecursionError, b2) /\
      data (per_tree b2) = [Some (demo_transition 8)] /\
      (node (tree (per_tree b2)) 0 < 1)%R).
Proof.
  destruct (@max_priority_never_below_one real_pow real_pow_laws)
    as (A1 & A2 & A3 & _ & B1 & B2 & B3 & _ & _ & C2 & _ & C4).
  assert (F0 : PrioritizedReplayBuffer_init 2 (6 / 10) = inr flat2_fresh)
    by reflexivity.
  assert (F1 : prio_push (Single (demo_transition 7)) flat2_fresh
               = (inr tt, flat2_pushed)) by reflexivity.
  assert (T0 : PERBufferSumTree_init 4 (6 / 10) = inr tree4_fresh)
    by reflexivity.
  assert (T1 : per_push 1000 (demo_transition 7) tree4_fresh
               = (inr tt, tree4_pushed)) by reflexivity.
  pose proof (flat_init _ _ _ F0) as R0.
  pose proof (flat_push _ _ _ _ R0 F1) as R1.
  pose proof (per_init _ _ _ T0) as P0.
  pose proof (per_pushed _ _ _ _ _ P0 T1) as P1.
  split; [| split; [| split]].
  - split; [exact F0 |]. split; [exact F1 |].
    split; [exact (A1 _ _ _ F0) |].
    split; [exact (proj1 (A2 _ R1)) |].
    split; [exact (proj1 (proj2 (A2 _ R1) eq_refl)) |].
    exact (proj1 (proj2 (A3 _ _ _ _ R0 F1) eq_refl 0
                        (conj (Z.le_refl 0) eq_refl))).
  - split; [exact T0 |]. split; [exact T1 |].
    split; [exact (B1 _ _ _ T0) |].
    split; [exact (B2 _ P1) |].
    exact (proj1 (proj2 (B3 _ _ _ _ _ P0 T1) eq_refl)).
  - destruct (C2 3%nat tree4_fresh (demo_transition 8) P0)
      as (b' & Hrun & _); [cbn; lia | cbn; lia |].
    exists b'. exact Hrun.
  - destruct (C4 999%nat (6 / 10)%R (demo_transition 7) (demo_transition 8))
      as (b0 & b1 & b2 & H0 & H1 & H2 & H3 & H4 & _).
    exists b0, b1, b2. repeat (split; [assumption |]). exact H4.
Defined.

(** * Further properties *)

(** ** Batched pushes *)

Lemma put_scatter {A} (a : list A) (idx : list Z) (vals : list A) :
  Forall (fun i => 0 <= i < Z.of_nat (length a)) idx ->
  put a idx vals = inr (scatter a idx vals).
Proof.
  intros Hidx. unfold put, scatter.
  assert (Hall : forallb (fun i => match norm_index (length a) i with
                                   | Some _ => true | None => false end) idx = true).
  { apply forallb_forall. intros i Hi. rewrite Forall_forall in Hidx.
    rewrite norm_index_in_range by auto. reflexivity. }
  now rewrite Hall.
Qed.

Lemma scatter_length {A} (a : list A) (idx : list Z) (vals : list A) :
  length (scatter a idx vals) = length a.
Proof. apply fold_list_set_length. Qed.

Lemma scatter_nil {A} (a : list A) (vals : list A) : scatter a [] vals = a.
Proof. reflexivity. Qed.

Lemma scatter_cons {A} (a : list A) (i : Z) (idx : list Z) (v : A)
      (vals : list A) :
  0 <= i < Z.of_nat (length a) ->
  scatter a (i :: idx) (v :: vals)
  = scatter (list_set a (Z.to_nat i) v) idx vals.
Proof.
  intros Hi. unfold scatter. cbn [combine fold_left fst snd].
  rewrite norm_index_in_range by assumption.
  now rewrite list_set_length.
Qed.

Lemma arange_succ (n : nat) :
  arange (Z.of_nat (S n)) = 0 :: map (fun k => k + 1) (arange (Z.of_nat n)).
Proof.
  unfold arange. rewrite !Nat2Z.id. cbn [seq map]. f_equal.
  rewrite <- seq_shift, !map_map. apply map_ext. intros k. lia.
Qed.

Lemma push_indices_succ (pos cap : Z) (n : nat) :
  0 < cap -> 0 <= pos < cap ->
  map (fun k => np_mod (k + pos) cap) (arange (Z.of_nat (S n)))
  = pos :: map (fun k => np_mod (k + (pos + 1) mod cap) cap)
               (arange (Z.of_nat n)).
Proof.
  intros Hcap Hpos. rewrite arange_succ. cbn [map]. f_equal.
  - unfold np_mod. destruct (cap =? 0) eqn:E; [apply Z.eqb_eq in E; lia |].
    apply Z.mod_small. lia.
  - rewrite map_map. apply map_ext. intros k. unfold np_mod.
    destruct (cap =? 0) eqn:E; [reflexivity |].
    rewrite Zplus_mod_idemp_r. f_equal. lia.
Qed.

(** [push] of any batch, in closed form. *)
Lemma push_closed_form (b : ReplayBuffer) (arg : PushArg) :
  ring_shape b -> 0 < capacity b ->
  let batch := expand_dims arg in
  let B := Z.of_nat (length batch) in
  let idx := map (fun k => np_mod (k + position b) (capacity b)) (arange B) in
  push arg b
  = (inr tt,
     mkReplayBuffer (capacity b)
       (scatter (states b) idx (map (fun t => astype_uint8 (t_state t)) batch))
       (scatter (actions b) idx (map (fun t => astype_int64 (t_action t)) batch))
       (scatter (rewards b) idx (map t_reward batch))
       (scatter (next_states b) idx
                (map (fun t => astype_uint8 (t_next_state t)) batch))
       (scatter (dones b) idx (map (fun t => float_of_bool (t_done t)) batch))
       ((position b + B) mod capacity b)
       (Z.min (size b + B) (capacity b))).
Proof.
  intros [H1 H2 H3 H4 H5 H6 H7] Hcap batch B idx.
  assert (Hidx : Forall (fun i => 0 <= i < capacity b) idx)
    by (apply push_indices_in_range; exact Hcap).
  unfold push, bind, get_self, lift, modify.
  fold batch. fold B. fold idx.
  rewrite (put_scatter (states b)) by now rewrite H1.
  rewrite (put_scatter (actions b)) by now rewrite H2.
  rewrite (put_scatter (rewards b)) by now rewrite H3.
  rewrite (put_scatter (next_states b)) by now rewrite H4.
  rewrite (put_scatter (dones b)) by now rewrite H5.
  unfold py_mod. destruct (capacity b =? 0) eqn:E; [apply Z.eqb_eq in E; lia |].
  reflexivity.
Qed.

Lemma push_batched_cons (b : ReplayBuffer) (t : Transition)
      (ts : list Transition) :
  ring_shape b -> 0 < capacity b ->
  push (Batched (t :: ts)) b = (push (Single t) ;;; push (Batched ts)) b.
Proof.
  intros Hs Hcap. pose proof Hs as [H1 H2 H3 H4 H5 H6 H7].
  assert (Hpos : 0 <= position b < capacity b) by lia.
  destruct (push_run_ok b (Single t) Hs Hcap) as (b1 & Hrun1 & Hs1 & Hc1 & Hp1 & Hz1).
  unfold bind at 1. rewrite Hrun1.
  rewrite (push_closed_form b1 (Batched ts) Hs1) by lia.
  rewrite (push_closed_form b (Batched (t :: ts)) Hs Hcap).
  rewrite (push_single_run b t Hs Hcap) in Hrun1.
  inversion Hrun1; subst b1; clear Hrun1.
  cbn [expand_dims length map capacity states actions rewards next_states
       dones position size].
  rewrite push_indices_succ by lia.
  rewrite !scatter_cons by lia.
  f_equal. f_equal.
  - rewrite Zplus_mod_idemp_l. f_equal. lia.
  - lia.
Qed.

Lemma push_batched_nil (b : ReplayBuffer) :
  ring_shape b -> 0 < capacity b -> push (Batched []) b = (inr tt, b).
Proof.
  intros Hs Hcap. rewrite (push_closed_form b (Batched []) Hs Hcap).
  destruct Hs as [H1 H2 H3 H4 H5 H6 H7].
  cbn [expand_dims length Z.of_nat]. change (arange 0) with (@nil Z).
  cbn [map]. rewrite !scatter_nil.
  rewrite !Z.add_0_r, Z.mod_small, Z.min_l by lia.
  destruct b; reflexivity.
Qed.

(** X1: on a ring with room for at least one entry, one [push] of a
    batch does what pushing its transitions one at a time does, also when
    the batch is longer than the ring. *)
Theorem push_batched_is_push_all (b : ReplayBuffer) (ts : list Transition) :
  ring_shape b -> 0 < capacity b ->
  push (Batched ts) b = push_all ts b.
Proof.
  revert b. induction ts as [| t ts IH]; intros b Hs Hcap.
  - now apply push_batched_nil.
  - rewrite push_batched_cons by assumption.
    unfold push_all. cbn [for_each]. unfold bind.
    destruct (push_run_ok b (Single t) Hs Hcap) as (b1 & Hrun1 & Hs1 & Hc1 & _).
    rewrite Hrun1. apply IH; [exact Hs1 | lia].
Qed.

Lemma prio_push_closed_form (b : PrioritizedReplayBuffer) (arg : PushArg) :
  prio_shape b -> 0 < capacity (base b) ->
  let B := Z.of_nat (length (expand_dims arg)) in
  let idxs := map (fun k => np_mod (k + position (base b)) (capacity (base b)))
                  (arange B) in
  prio_push arg b
  = (inr tt,
     mkPrioritizedReplayBuffer (snd (push arg (base b))) (alpha b)
       (scatter (priorities b) idxs (repeat (max_priority b) (length idxs)))
       (max_priority b)).
Proof.
  intros (Hring & Hlen) Hcap B idxs.
  destruct (push_run_ok (base b) arg Hring Hcap) as (b1 & Hrun & _).
  unfold prio_push, bind, get_self, super, lift, modify.
  rewrite push_batch_size. fold B. fold idxs.
  rewrite Hrun. cbn [set_base priorities max_priority snd].
  rewrite put_scatter.
  - reflexivity.
  - rewrite Hlen. apply push_indices_in_range. exact Hcap.
Qed.

Lemma prio_push_shape (b b' : PrioritizedReplayBuffer) (arg : PushArg) :
  prio_shape b -> 0 < capacity (base b) ->
  prio_push arg b = (inr tt, b') ->
  prio_shape b' /\ capacity (base b') = capacity (base b) /\
  max_priority b' = max_priority b.
Proof.
  intros Hs Hcap Hrun. pose proof Hs as (Hring & Hlen).
  rewrite (prio_push_closed_form b arg Hs Hcap) in Hrun.
  destruct (push_run_ok (base b) arg Hring Hcap) as (b1 & Hrun1 & Hs1 & Hc1 & _).
  rewrite Hrun1 in Hrun. cbn [snd] in Hrun.
  inversion Hrun; subst b'; clear Hrun. cbn.
  split; [| split; [exact Hc1 | reflexivity]].
  split; [exact Hs1 |]. cbn. rewrite scatter_length. lia.
Qed.

(** X2: the same for the flat priority buffer: one [push] of a batch
    leaves the ring, the priorities and [max_priority] as pushing its
    transitions one at a time does. *)
Theorem prio_push_batched_is_push_all (b : PrioritizedReplayBuffer)
        (ts : list Transition) :
  prio_shape b -> 0 < capacity (base b) ->
  prio_push (Batched ts) b = prio_push_all ts b.
Proof.
  revert b. induction ts as [| t ts IH]; intros b Hs Hcap.
  - pose proof Hs as (Hring & Hlen).
    rewrite (prio_push_closed_form b (Batched []) Hs Hcap).
    rewrite push_batched_nil by assumption.
    cbn [expand_dims length Z.of_nat snd]. change (arange 0) with (@nil Z).
    cbn [map length repeat]. rewrite scatter_nil.
    destruct b; reflexivity.
  - pose proof Hs as (Hring & Hlen).
    assert (Hpos : 0 <= position (base b) < capacity (base b))
      by (destruct Hring; lia).
    unfold prio_push_all. cbn [for_each]. unfold bind.
    destruct (push_run_ok (base b) (Single t) Hring Hcap)
      as (b1 & Hrun1 & Hs1 & Hc1 & Hp1 & Hz1).
    pose proof (prio_push_closed_form b (Single t) Hs Hcap) as Hone.
    rewrite Hrun1 in Hone. cbn [snd expand_dims length] in Hone.
    change (Z.of_nat 1) with (Z.of_nat (S 0)) in Hone.
    rewrite push_indices_succ in Hone by lia.
    change (arange (Z.of_nat 0)) with (@nil Z) in Hone.
    cbn [map length repeat] in Hone. rewrite scatter_cons in Hone by lia.
    rewrite scatter_nil in Hone. rewrite Hone.
    fold (prio_push_all ts). rewrite <- IH.
    + rewrite (prio_push_closed_form b (Batched (t :: ts)) Hs Hcap).
      match goal with
      | |- _ = prio_push (Batched ts) ?s =>
          assert (Hs' : prio_shape s)
      end.
      { split; [exact Hs1 |]. cbn. rewrite list_set_length. lia. }
      rewrite (prio_push_closed_form _ (Batched ts) Hs') by (cbn; lia).
      cbn [base alpha priorities max_priority expand_dims].
      rewrite push_batched_cons by assumption.
      unfold bind at 1. rewrite Hrun1.
      cbn [length]. rewrite push_indices_succ by lia.
      rewrite Hc1. cbn [Z.add] in Hp1.
      replace (position b1) with ((position (base b) + 1) mod capacity (base b))
        by (rewrite Hp1; reflexivity).
      rewrite length_map. cbn [length map repeat].
      rewrite !length_map.
      rewrite scatter_cons by lia. reflexivity.
    + split; [exact Hs1 |]. cbn. rewrite list_set_length. lia.
    + cbn. lia.
Qed.

(** X3: a ring of capacity zero can be built, but nothing can be pushed
    into it: a non-empty push raises [IndexError] at the first array
    write, an empty batch raises [ZeroDivisionError] at the cursor update,
    and the ring stays as built. *)
Theorem push_capacity_zero_raises (arg : PushArg) :
  exists b0,
    ReplayBuffer_init 0 = inr b0 /\ len b0 = 0 /\
    push arg b0
    = (inl (match expand_dims arg with
            | [] => ZeroDivisionError
            | _ :: _ => IndexError
            end), b0).
Proof.
  eexists. split; [reflexivity |]. split; [reflexivity |].
  unfold push, bind, get_self, lift, modify.
  destruct (expand_dims arg) as [| t ts].
  - reflexivity.
  - unfold arange. rewrite Nat2Z.id. reflexivity.
Qed.

(** ** What [sample] reads *)

Lemma astype_uint8_frame (f : Frame) : uint8_frame (astype_uint8 f).
Proof.
  unfold uint8_frame, astype_uint8. apply Forall_map, Forall_forall.
  intros x _. apply Z.mod_pos_bound. lia.
Qed.

Lemma list_set_Forall {A} (P : A -> Prop) (a : list A) (k : nat) (x : A) :
  Forall P a -> P x -> Forall P (list_set a k x).
Proof.
  intros Ha Hx. revert k. induction Ha as [| y a Hy Ha IH]; intros [| k];
    cbn; constructor; auto.
Qed.

Lemma scatter_Forall {A} (P : A -> Prop) (a : list A) (idx : list Z)
      (vals : list A) :
  Forall P a -> Forall P vals -> Forall P (scatter a idx vals).
Proof.
  intros Ha Hvals. unfold scatter. generalize (length a) as n. intros n.
  assert (Hc : Forall (fun iv => P (snd iv)) (combine idx vals)).
  { apply Forall_forall. intros [i v] Hin. apply in_combine_r in Hin.
    rewrite Forall_forall in Hvals. now apply Hvals. }
  revert a Ha. induction Hc as [| [i v] l Hv _ IH]; intros a Ha; cbn.
  - exact Ha.
  - apply IH. destruct (norm_index n i); [| exact Ha].
    now apply list_set_Forall.
Qed.

Lemma ring_reachable_inv (b : ReplayBuffer) :
  ring_reachable b -> ring_shape b /\ uint8_frames b.
Proof.
  induction 1 as [N b Hinit | b b' arg r _ (Hs & Hu1 & Hu2) Hrun].
  - destruct (ReplayBuffer_init_shape N b Hinit) as (Hs & _).
    split; [exact Hs |]. unfold ReplayBuffer_init in Hinit.
    destruct (N <? 0); [discriminate |]. inversion Hinit; subst; clear Hinit.
    assert (Hz : uint8_frame zero_frame).
    { unfold uint8_frame, zero_frame. apply Forall_forall. intros x Hx.
      apply repeat_spec in Hx. lia. }
    split; cbn; apply Forall_forall; intros f Hf; apply repeat_spec in Hf;
      now subst.
  - assert (Hcap : capacity b = 0 \/ 0 < capacity b) by (destruct Hs; lia).
    destruct Hcap as [Hcap | Hcap].
    + destruct (push_zero_capacity b arg Hs Hcap)
        as (e & b1 & Hpush & Hs1 & Hc1 & _).
      rewrite Hpush in Hrun. inversion Hrun; subst; clear Hrun.
      split; [exact Hs1 |]. destruct Hs1 as [L1 _ _ L4 _ _ _].
      rewrite Hc1 in L1, L4. unfold uint8_frames.
      destruct (states b') ; [| cbn in L1; lia].
      destruct (next_states b'); [| cbn in L4; lia].
      split; constructor.
    + destruct (push_run_ok b arg Hs Hcap) as (b1 & Hpush & Hs1 & _).
      pose proof Hpush as Hform.
      rewrite (push_closed_form b arg Hs Hcap) in Hform.
      rewrite Hpush in Hrun. inversion Hrun; subst b1; clear Hrun.
      split; [exact Hs1 |]. inversion Hform as [Hb']. 
      split; cbn; apply scatter_Forall; try assumption;
        apply Forall_map, Forall_forall; intros t _; apply astype_uint8_frame.
Qed.

Lemma take_nth {A} (a : list A) (idx : list Z) (xs : list A) (d : A) :
  Forall (fun i => 0 <= i) idx ->
  take a idx = inr xs ->
  xs = map (fun i => nth (Z.to_nat i) a d) idx /\
  Forall (fun i => i < Z.of_nat (length a)) idx.
Proof.
  intros Hidx. revert xs. induction Hidx as [| i idx Hi _ IH]; intros xs Hxs.
  - cbn in Hxs. inversion Hxs. split; [reflexivity | constructor].
  - cbn [take] in Hxs.
    destruct (getitem a i) as [e | x] eqn:Eg; [discriminate |].
    destruct (take a idx) as [e | xs'] eqn:Et; [discriminate |].
    inversion Hxs; subst; clear Hxs.
    destruct (IH xs' eq_refl) as (-> & Hall).
    pose proof (getitem_inr_nonneg _ _ _ Hi Eg) as Hlt.
    unfold getitem in Eg. rewrite norm_index_in_range in Eg by lia.
    destruct (nth_error a (Z.to_nat i)) as [y |] eqn:En; [| discriminate].
    inversion Eg; subst. cbn [map].
    rewrite (nth_error_nth _ _ d En).
    split; [reflexivity | constructor; assumption].
Qed.

Lemma to_float_frame_unit (f : Frame) :
  uint8_frame f ->
  Forall (fun v => (0 <= v <= 1)%R) (to_float_frame f).
Proof.
  intros Hf. unfold to_float_frame. apply Forall_map.
  eapply Forall_impl; [| exact Hf]. cbv beta. intros x Hx.
  assert (H0 : (0 <= IZR x)%R) by (apply IZR_le; lia).
  assert (H1 : (IZR x <= 255)%R) by (apply IZR_le; lia).
  split.
  - apply Rmult_le_pos; [exact H0 | lra].
  - apply (Rmult_le_reg_r 255); [lra |].
    unfold Rdiv. rewrite Rmult_assoc, Rinv_l by lra. lra.
Qed.

Lemma Forall_nth_in_range {A} (P : A -> Prop) (a : list A) (i : Z) (d : A) :
  Forall P a -> 0 <= i < Z.of_nat (length a) -> P (nth (Z.to_nat i) a d).
Proof.
  intros Ha Hi. rewrite Forall_forall in Ha. apply Ha, nth_In. lia.
Qed.

(** X4: on any ring that the constructor and [push] produce, a [sample]
    that returns hands out, for the distinct indices of its draw (all
    below [size - 1]), the stored action, reward and done flag of each
    slot and its two frames divided by 255; every frame value handed out
    lies in [[0, 1]]. *)
Theorem sample_reads_stored_rows {G : Type} `{RandomGenLaws G}
        (self : ReplayBuffer) (n : Z) (g g' : G) (batch : Batch bool) :
  ring_reachable self ->
  sample self n g = (inr batch, g') ->
  exists idx,
    sample_indices self n g = (inr idx, g') /\
    NoDup idx /\ Z.of_nat (length idx) = Z.max 0 n /\
    Forall (fun i => 0 <= i < size self - 1) idx /\
    b_states batch
    = map (fun i => to_float_frame (nth (Z.to_nat i) (states self) [])) idx /\
    b_actions batch = map (fun i => nth (Z.to_nat i) (actions self) 0) idx /\
    b_rewards batch = map (fun i => nth (Z.to_nat i) (rewards self) 0%R) idx /\
    b_next_states batch
    = map (fun i => to_float_frame (nth (Z.to_nat i) (next_states self) [])) idx /\
    b_dones batch
    = map (fun i => nonzero (nth (Z.to_nat i) (dones self) 0%R)) idx /\
    Forall (Forall (fun v => (0 <= v <= 1)%R)) (b_states batch) /\
    Forall (Forall (fun v => (0 <= v <= 1)%R)) (b_next_states batch).
Proof.
  intros Hreach Hrun.
  destruct (ring_reachable_inv self Hreach) as (Hs & Hu1 & Hu2).
  unfold sample in Hrun. apply bind_inr in Hrun.
  destruct Hrun as (idx & g1 & Hidx & Hgather).
  unfold lift in Hgather. inversion Hgather as [[Hg Hgg]]; subst g1.
  destruct (draw_then_shuffle _ _ _ _ _ _ _ Hidx) as (Hlen & Hall & Hnd).
  assert (Hnn : Forall (fun i => 0 <= i) idx).
  { eapply Forall_impl; [| exact Hall]. cbv beta. intros i Hi. lia. }
  unfold gather in Hg.
  destruct (take (states self) idx) as [e | st] eqn:E1; [discriminate |].
  destruct (take (actions self) idx) as [e | ac] eqn:E2; [discriminate |].
  destruct (take (rewards self) idx) as [e | rw] eqn:E3; [discriminate |].
  destruct (take (next_states self) idx) as [e | ns] eqn:E4; [discriminate |].
  destruct (take (dones self) idx) as [e | dn] eqn:E5; [discriminate |].
  inversion Hg; subst batch; clear Hg. cbn.
  destruct (take_nth _ _ _ [] Hnn E1) as (-> & R1).
  destruct (take_nth _ _ _ 0 Hnn E2) as (-> & _).
  destruct (take_nth _ _ _ 0%R Hnn E3) as (-> & _).
  destruct (take_nth _ _ _ [] Hnn E4) as (-> & R4).
  destruct (take_nth _ _ _ 0%R Hnn E5) as (-> & _).
  exists idx. rewrite !map_map.
  repeat (split; [first [exact Hidx | exact Hnd | exact Hlen | exact Hall
                        | reflexivity] |]).
  split; apply Forall_map, Forall_forall; intros i Hi;
    apply to_float_frame_unit.
  - apply Forall_nth_in_range; [exact Hu1 |].
    rewrite Forall_forall in Hnn, R1. specialize (Hnn i Hi).
    specialize (R1 i Hi). lia.
  - apply Forall_nth_in_range; [exact Hu2 |].
    rewrite Forall_forall in Hnn, R4. specialize (Hnn i Hi).
    specialize (R4 i Hi). lia.
Qed.

Lemma nonzero_float_of_bool (d : bool) : nonzero (float_of_bool d) = d.
Proof.
  destruct d; unfold nonzero, float_of_bool;
    destruct (Req_dec_T _ 0) as [Hz | Hnz]; try reflexivity; lra.
Qed.

Lemma astype_int64_in_range (x : Z) :
  - 2 ^ 63 <= x < 2 ^ 63 -> astype_int64 x = x.
Proof.
  intros Hx. unfold astype_int64. rewrite Z.mod_small by lia. lia.
Qed.

Lemma take_one {A} (a : list A) (i : nat) (x : A) :
  nth_error a i = Some x -> take a [Z.of_nat i] = inr [x].
Proof.
  intros Hx. assert (Hlt : (i < length a)%nat).
  { apply nth_error_Some. congruence. }
  cbn [take]. unfold getitem.
  rewrite norm_index_in_range by lia. rewrite Nat2Z.id, Hx. reflexivity.
Qed.

(** X5: push and read back.  After any number of single pushes into a
    fresh ring of capacity [N >= 1], reading the slot [j mod N] of a push
    [j] that is still retained gives back that transition as the arrays
    hold it: its action wrapped to 64 signed bits (the action itself when
    it fits), its reward (a real number here) and its done flag, its
    frames wrapped to 8 bits and divided by 255. *)
Theorem push_then_read_back (N : Z) (ts : list Transition) (j : Z) :
  0 < N ->
  Z.max 0 (Z.of_nat (length ts) - N) <= j < Z.of_nat (length ts) ->
  exists b0 b t,
    ReplayBuffer_init N = inr b0 /\
    push_all ts b0 = (inr tt, b) /\
    nth_error ts (Z.to_nat j) = Some t /\
    gather nonzero b [j mod N]
    = inr (mkBatch [to_float_frame (astype_uint8 (t_state t))]
                   [astype_int64 (t_action t)] [t_reward t]
                   [to_float_frame (astype_uint8 (t_next_state t))]
                   [t_done t]) /\
    (- 2 ^ 63 <= t_action t < 2 ^ 63 -> astype_int64 (t_action t) = t_action t).
Proof.
  intros HN Hj.
  destruct (push_all_from_init N ts HN) as (b0 & b & H0 & Hrun & Hring).
  destruct Hring as (_ & _ & _ & _ & Hrows).
  specialize (Hrows j Hj).
  destruct (nth_error ts (Z.to_nat j)) as [t |] eqn:Et;
    [| apply nth_error_None in Et; lia].
  rewrite nth_error_map, Et in Hrows. cbn [option_map] in Hrows.
  unfold store_row in Hrows.
  exists b0, b, t. split; [exact H0 |]. split; [exact Hrun |].
  split; [reflexivity |]. split; [| apply astype_int64_in_range].
  unfold row_at in Hrows.
  destruct (nth_error (states b) _) as [st |] eqn:E1; [| discriminate].
  destruct (nth_error (actions b) _) as [ac |] eqn:E2; [| discriminate].
  destruct (nth_error (rewards b) _) as [rw |] eqn:E3; [| discriminate].
  destruct (nth_error (next_states b) _) as [ns |] eqn:E4; [| discriminate].
  destruct (nth_error (dones b) _) as [dn |] eqn:E5; [| discriminate].
  inversion Hrows; subst; clear Hrows.
  assert (Hm : j mod N = Z.of_nat (Z.to_nat (j mod N))).
  { pose proof (Z.mod_pos_bound j N HN). lia. }
  unfold gather. rewrite Hm.
  rewrite (take_one _ _ _ E1), (take_one _ _ _ E2), (take_one _ _ _ E3),
    (take_one _ _ _ E4), (take_one _ _ _ E5).
  cbn [map]. now rewrite nonzero_float_of_bool.
Qed.

(** ** The sampling distribution of the flat variant *)

Lemma sum_R_map_div (l : list R) (c : R) :
  sum_R (map (fun p => (p / c)%R) l) = (sum_R l / c)%R.
Proof.
  induction l as [| x l IH]; cbn.
  - unfold Rdiv. now rewrite Rmult_0_l.
  - rewrite IH. unfold Rdiv. ring.
Qed.

Lemma sum_R_repeat (c : R) (n : nat) : sum_R (repeat c n) = (INR n * c)%R.
Proof.
  induction n as [| n IH].
  - cbn. ring.
  - rewrite S_INR. cbn [repeat sum_R]. rewrite IH. ring.
Qed.

(** X6: on a non-empty, well-shaped flat buffer the distribution that
    [sample] hands to its draw has one entry per occupied slot and sums
    to 1, on the normalising branch and on the uniform fallback alike. *)
Theorem sample_probs_sum_to_one `{FloatPow} (self : PrioritizedReplayBuffer) :
  prio_shape self -> 0 < size (base self) ->
  Z.of_nat (length (sample_probs self)) = size (base self) /\
  sum_R (sample_probs self) = 1%R.
Proof.
  intros Hshape Hsz. split.
  - rewrite (sample_probs_length self Hshape). lia.
  - pose proof Hshape as (Hring & Hlen).
    destruct Hring as [_ _ _ _ _ _ Hsize].
    unfold sample_probs.
    set (probs := map (fun p => float_pow p (alpha self))
                      (firstn (Z.to_nat (size (base self))) (priorities self))).
    destruct (Req_dec_T (sum_R probs) 0) as [Hz | Hnz].
    + rewrite map_const_repeat, sum_R_repeat.
      unfold probs. rewrite length_map, length_firstn.
      replace (Nat.min (Z.to_nat (size (base self))) (length (priorities self)))
        with (Z.to_nat (size (base self))) by lia.
      rewrite INR_IZR_INZ, Z2Nat.id by lia.
      field. apply not_0_IZR. lia.
    + rewrite sum_R_map_div. now field.
Qed.

(** ** Priorities of the flat variant *)

Lemma put_is_scatter {A} (a a' : list A) (idx : list Z) (vals : list A) :
  put a idx vals = inr a' -> a' = scatter a idx vals.
Proof.
  unfold put, scatter. destruct (forallb _ idx); [| discriminate].
  intros Ha. now inversion Ha.
Qed.

Lemma flat_reachable_bounded (b : PrioritizedReplayBuffer) :
  flat_reachable b ->
  max_priority b = 1%R /\
  Forall (fun p => p = 0%R \/ (eps6 <= p <= 1)%R) (priorities b).
Proof.
  induction 1 as [N a b Hinit | b b' arg r _ (Hmax & Hall) Hrun
                  | b b' idx tds r _ IH Hrun].
  - unfold PrioritizedReplayBuffer_init in Hinit.
    destruct (ReplayBuffer_init N); [discriminate |].
    inversion Hinit; subst; clear Hinit. cbn. split; [reflexivity |].
    apply Forall_forall. intros p Hp. apply repeat_spec in Hp. now left.
  - unfold prio_push, bind, get_self, super, lift, modify in Hrun.
    destruct (push arg (base b)) as [[e | []] b1].
    + inversion Hrun; subst; clear Hrun. cbn. auto.
    + cbn [set_base priorities max_priority] in Hrun.
      destruct (put (priorities b) _ _) as [e | v] eqn:Ep.
      * inversion Hrun; subst; clear Hrun. cbn. auto.
      * inversion Hrun; subst; clear Hrun. cbn. split; [exact Hmax |].
        rewrite (put_is_scatter _ _ _ _ Ep).
        apply scatter_Forall; [exact Hall |].
        apply Forall_forall. intros p Hp. apply repeat_spec in Hp.
        subst p. right. rewrite Hmax. unfold eps6. lra.
  - unfold prio_update_priorities in Hrun.
    eapply (for_each_preserves
              (fun s => max_priority s = 1%R /\
                        Forall (fun p => p = 0%R \/ (eps6 <= p <= 1)%R)
                               (priorities s)));
      [| exact IH | exact Hrun].
    intros ip s r0 s0 (Hmax & Hall) Hone.
    unfold prio_update_one, bind, get_self, lift, modify, setitem in Hone.
    pose proof (clamp_priority_range (snd ip)) as Hc.
    destruct (norm_index (length (priorities s)) (fst ip)) as [k |];
      inversion Hone; subst; clear Hone; cbn.
    + split.
      * rewrite Hmax. apply Rmax_left. lra.
      * apply list_set_Forall; [exact Hall | now right].
    + auto.
Qed.

(** X7: in every state of the flat variant that the methods produce,
    [max_priority] is exactly 1 (a TD error never raises it, because the
    stored priority is capped at 1), so every push seeds its slots with
    priority 1, and the priority of every occupied slot lies in
    [[1e-6, 1]]. *)
Theorem flat_priorities_stay_bounded (b : PrioritizedReplayBuffer) :
  flat_reachable b ->
  max_priority b = 1%R /\
  forall i, 0 <= i < size (base b) ->
            (eps6 <= node (priorities b) i <= 1)%R.
Proof.
  intros Hb. destruct (flat_reachable_bounded b Hb) as (Hmax & Hall).
  destruct (flat_reachable_inv b Hb) as ((Hring & Hlen) & _ & Hpos & _).
  split; [exact Hmax |]. intros i Hi.
  assert (Hsz : 0 <= size (base b) <= capacity (base b))
    by (destruct Hring; assumption).
  specialize (Hpos i Hi).
  assert (Hin : node (priorities b) i = 0%R
                \/ (eps6 <= node (priorities b) i <= 1)%R).
  { unfold node.
    apply (Forall_nth_in_range _ (priorities b) i 0%R Hall). lia. }
  destruct Hin as [Hz | Hr]; [lra | exact Hr].
Qed.

(** ** Descent in the sum tree *)

Lemma retrieve_at_leaf (d : nat) (t : SumTree) (i : Z) (s : R) :
  Z.of_nat (length (tree t)) <= 2 * i + 1 -> _retrieve (S d) t i s = inr i.
Proof.
  intros Hl. cbn [_retrieve]. cbv zeta.
  destruct (Z.leb_spec (Z.of_nat (length (tree t))) (2 * i + 1)); [reflexivity | lia].
Qed.

Lemma retrieve_step (d : nat) (t : SumTree) (i : Z) (s : R) :
  0 <= i -> 2 * i + 1 < Z.of_nat (length (tree t)) ->
  _retrieve (S d) t i s =
  if Rle_dec s (node (tree t) (2 * i + 1))
  then _retrieve d t (2 * i + 1) s
  else _retrieve d t (2 * i + 1 + 1) (s - node (tree t) (2 * i + 1))%R.
Proof.
  intros Hi Hl. cbn [_retrieve]. cbv zeta.
  destruct (Z.leb_spec (Z.of_nat (length (tree t))) (2 * i + 1)); [lia |].
  rewrite getitem_node by lia. reflexivity.
Qed.

Lemma pow2_succ (d : nat) : 2 ^ Z.of_nat (S d) = 2 * 2 ^ Z.of_nat d.
Proof. rewrite Nat2Z.inj_succ. apply Z.pow_succ_r. lia. Qed.

Lemma pow2_pos (d : nat) : 0 < 2 ^ Z.of_nat d.
Proof. apply Z.pow_pos_nonneg; lia. Qed.

(** The descent from any node ends on a leaf below it, whatever the
    value searched for. *)
Lemma retrieve_descends (N : Z) (t : SumTree) :
  Z.of_nat (length (tree t)) = 2 * N - 1 ->
  forall (d : nat) (i : Z) (s : R),
    0 <= i <= 2 * N - 2 -> N <= (i + 1) * 2 ^ Z.of_nat d ->
    exists idx, _retrieve (S d) t i s = inr idx /\
                N - 1 <= idx <= 2 * N - 2 /\ i <= idx.
Proof.
  intros Hlen. induction d as [| d IH]; intros i s Hi Hd.
  - cbn in Hd. exists i. split; [apply retrieve_at_leaf; lia | lia].
  - destruct (Z_le_gt_dec (2 * N - 1) (2 * i + 1)) as [Hleaf | Hint].
    + exists i. split; [apply retrieve_at_leaf; lia | lia].
    + rewrite retrieve_step by lia. rewrite pow2_succ in Hd.
      pose proof (pow2_pos d) as Hp.
      destruct (Rle_dec s (node (tree t) (2 * i + 1))).
      * destruct (IH (2 * i + 1) s) as (idx & Hrun & Hr & Hle); [lia | nia |].
        exists idx. split; [exact Hrun | lia].
      * destruct (IH (2 * i + 1 + 1) (s - node (tree t) (2 * i + 1))%R)
          as (idx & Hrun & Hr & Hle); [lia | nia |].
        exists idx. split; [exact Hrun | lia].
Qed.

(** [get] once the descent has ended on a leaf. *)
Lemma get_at_leaf (depth : nat) (t : SumTree) (s : R) (idx : Z) :
  tree_shape t ->
  _retrieve depth t 0 s = inr idx ->
  st_capacity t - 1 <= idx <= 2 * st_capacity t - 2 ->
  exists dat,
    get depth t s = inr (idx, node (tree t) idx, dat) /\
    nth_error (data t) (Z.to_nat (idx - st_capacity t + 1)) = Some dat.
Proof.
  intros (Hc & Hlt & Hld & Hw) Hrun Hr.
  destruct (nth_error (data t) (Z.to_nat (idx - st_capacity t + 1)))
    as [dat |] eqn:Ed; [| apply nth_error_None in Ed; lia].
  exists dat. split; [| reflexivity].
  unfold get. rewrite Hrun. rewrite getitem_node by lia.
  unfold getitem. rewrite norm_index_in_range by lia. now rewrite Ed.
Qed.

(** X8: [get] never fails and never stops on an internal node.  On a
    tree of capacity [N >= 1], with recursion depth for its height, it
    returns for every value searched for (inside [[0, total]] or not) the
    position of a leaf, in [[N - 1, 2N - 2]], the priority stored there
    and the payload slot of that leaf. *)
Theorem get_returns_a_leaf (d : nat) (t : SumTree) (s : R) :
  tree_shape t -> st_capacity t <= 2 ^ Z.of_nat d ->
  exists idx dat,
    get (S d) t s = inr (idx, node (tree t) idx, dat) /\
    st_capacity t - 1 <= idx <= 2 * st_capacity t - 2 /\
    nth_error (data t) (Z.to_nat (idx - st_capacity t + 1)) = Some dat.
Proof.
  intros Hs Hd. pose proof Hs as (Hc & Hlt & _).
  destruct (retrieve_descends (st_capacity t) t Hlt d 0 s)
    as (idx & Hrun & Hr & _); [lia | lia |].
  destruct (get_at_leaf (S d) t s idx Hs Hrun Hr) as (dat & Hget & Hdat).
  exists idx, dat. split; [exact Hget |]. split; [exact Hr | exact Hdat].
Qed.

Lemma sum_R_app (l l' : list R) : sum_R (l ++ l') = (sum_R l + sum_R l')%R.
Proof. induction l as [| x l IH]; cbn; [lra | rewrite IH; lra]. Qed.

Lemma leaves_under_step (d : nat) (n i : Z) :
  leaves_under (S d) n i =
  if n <=? 2 * i + 1 then [i]
  else leaves_under d n (2 * i + 1) ++ leaves_under d n (2 * i + 2).
Proof. reflexivity. Qed.

Lemma leaves_under_range (N : Z) (d : nat) :
  forall i, 0 <= i <= 2 * N - 2 ->
            Forall (fun x => N - 1 <= x <= 2 * N - 2) (leaves_under d (2 * N - 1) i).
Proof.
  induction d as [| d IH]; intros i Hi; [constructor |].
  rewrite leaves_under_step.
  destruct (Z.leb_spec (2 * N - 1) (2 * i + 1)).
  - constructor; [lia | constructor].
  - apply Forall_app. split; apply IH; lia.
Qed.

(** Under the invariant every node is the sum of the leaves below it. *)
Lemma node_sums_leaves (N : Z) (t : list R) :
  sum_invariant N t ->
  forall (d : nat) (i : Z),
    0 <= i <= 2 * N - 2 -> N <= (i + 1) * 2 ^ Z.of_nat d ->
    node t i = sum_R (map (node t) (leaves_under (S d) (2 * N - 1) i)).
Proof.
  intros (Hlen & Hnodes & _). induction d as [| d IH]; intros i Hi Hd.
  - cbn in Hd. rewrite leaves_under_step.
    destruct (Z.leb_spec (2 * N - 1) (2 * i + 1)); [| lia]. cbn. lra.
  - rewrite leaves_under_step.
    destruct (Z.leb_spec (2 * N - 1) (2 * i + 1)); [cbn; lra |].
    rewrite pow2_succ in Hd. pose proof (pow2_pos d) as Hp.
    rewrite map_app, sum_R_app.
    rewrite <- (IH (2 * i + 1)) by (lia || nia).
    rewrite <- (IH (2 * i + 2)) by (lia || nia).
    apply Hnodes. lia.
Qed.

(** The descent for a value inside the mass of a node ends on the leaf
    whose interval of prefix sums contains the value. *)
Lemma retrieve_prefix (N : Z) (t : SumTree) :
  sum_invariant N (tree t) ->
  forall (d : nat) (i : Z) (s : R),
    0 <= i <= 2 * N - 2 -> N <= (i + 1) * 2 ^ Z.of_nat d ->
    (0 < s <= node (tree t) i)%R ->
    exists idx pre post,
      _retrieve (S d) t i s = inr idx /\
      leaves_under (S d) (2 * N - 1) i = pre ++ idx :: post /\
      (sum_R (map (node (tree t)) pre) < s
       <= sum_R (map (node (tree t)) pre) + node (tree t) idx)%R.
Proof.
  intros Hinv. pose proof Hinv as (Hlen & Hnodes & _).
  induction d as [| d IH]; intros i s Hi Hd Hs.
  - cbn in Hd. exists i, [], []. rewrite leaves_under_step.
    destruct (Z.leb_spec (2 * N - 1) (2 * i + 1)); [| lia].
    split; [apply retrieve_at_leaf; lia |]. split; [reflexivity |]. cbn. lra.
  - rewrite leaves_under_step.
    destruct (Z.leb_spec (2 * N - 1) (2 * i + 1)) as [Hleaf | Hint].
    + exists i, [], [].
      split; [apply retrieve_at_leaf; lia |]. split; [reflexivity |]. cbn. lra.
    + rewrite retrieve_step by lia. rewrite pow2_succ in Hd.
      pose proof (pow2_pos d) as Hp.
      assert (Hsplit : node (tree t) i
                       = (node (tree t) (2 * i + 1) + node (tree t) (2 * i + 2))%R)
        by (apply Hnodes; lia).
      destruct (Rle_dec s (node (tree t) (2 * i + 1))) as [Hl | Hr].
      * destruct (IH (2 * i + 1) s) as (idx & pre & post & Hrun & HL & Hb);
          [lia | nia | lra |].
        exists idx, pre, (post ++ leaves_under (S d) (2 * N - 1) (2 * i + 2)).
        split; [exact Hrun |]. split; [| exact Hb].
        rewrite HL, <- app_assoc. reflexivity.
      * replace (2 * i + 1 + 1) with (2 * i + 2) by lia.
        destruct (IH (2 * i + 2) (s - node (tree t) (2 * i + 1))%R)
          as (idx & pre & post & Hrun & HL & Hb); [lia | nia | lra |].
        exists idx, (leaves_under (S d) (2 * N - 1) (2 * i + 1) ++ pre), post.
        split; [exact Hrun |]. split.
        -- rewrite HL, <- app_assoc. reflexivity.
        -- rewrite map_app, sum_R_app.
           rewrite <- (node_sums_leaves N (tree t) Hinv d (2 * i + 1))
             by (lia || nia).
           lra.
Qed.

(** *** The leaves in traversal order *)

Lemma pow2_gt_lin (n : Z) : 0 <= n -> n < 2 ^ n.
Proof. intros Hn. apply Z.pow_gt_lin_r; lia. Qed.

(** A tree that satisfies the invariant and holds 1 at one leaf and 0 at
    every other. *)
Lemma indicator_tree (N j0 : Z) :
  2 <= N -> N - 1 <= j0 <= 2 * N - 2 ->
  exists t, sum_invariant N t /\ node t 0 = 1%R /\
            forall j, N - 1 <= j <= 2 * N - 2 ->
                      node t j = if j =? j0 then 1%R else 0%R.
Proof.
  intros HN Hj0.
  destruct (SumTree_init_invariant N ltac:(lia)) as (t0 & Hinit & Hinv0 & Hcap).
  assert (Hzero : forall j, node (tree t0) j = 0%R).
  { intros j. unfold SumTree_init in Hinit.
    destruct (2 * N - 1 <? 0); [discriminate |].
    inversion Hinit; subst; clear Hinit. cbn [tree]. apply node_zeros. }
  pose proof Hinv0 as (Hlen & _).
  destruct (update_run (Z.to_nat (2 * N)) j0 1%R t0)
    as (t1 & Hrun & _ & Hroot & Hleaf & Hrest).
  { lia. }
  { rewrite Z2Nat.id by lia. pose proof (pow2_gt_lin (2 * N)). lia. }
  exists (tree t1). split; [| split].
  - eapply update_keeps_invariant; [exact Hinv0 | | | exact Hrun]; lia.
  - rewrite Hroot, !Hzero. lra.
  - intros j Hj. destruct (Z.eqb_spec j j0) as [-> | Hne]; [exact Hleaf |].
    rewrite Hrest; [apply Hzero | | exact Hne].
    Z.div_mod_to_equations; lia.
Qed.

Lemma sum_R_indicator (t : list R) (l : list Z) (j0 : Z) :
  Forall (fun j => node t j = if j =? j0 then 1%R else 0%R) l ->
  sum_R (map (node t) l) = INR (count_occ Z.eq_dec l j0).
Proof.
  induction 1 as [| j l Hj _ IH]; [reflexivity |].
  cbn [map sum_R count_occ]. rewrite IH, Hj.
  destruct (Z.eq_dec j j0) as [-> | Hne].
  - rewrite Z.eqb_refl, S_INR. lra.
  - destruct (Z.eqb_spec j j0); [contradiction | lra].
Qed.

(** The traversal from the root meets every leaf exactly once. *)
Lemma leaves_under_root_count (N : Z) (d : nat) (j0 : Z) :
  1 <= N -> N <= 2 ^ Z.of_nat d -> N - 1 <= j0 <= 2 * N - 2 ->
  count_occ Z.eq_dec (leaves_under (S d) (2 * N - 1) 0) j0 = 1%nat.
Proof.
  intros HN Hd Hj0. destruct (Z.eq_dec N 1) as [-> | HN1].
  - assert (j0 = 0) by lia. subst j0. reflexivity.
  - destruct (indicator_tree N j0 ltac:(lia) Hj0) as (t & Hinv & Hroot & Hind).
    pose proof (node_sums_leaves N t Hinv d 0 ltac:(lia) ltac:(lia)) as Hsum.
    rewrite (sum_R_indicator t _ j0) in Hsum.
    + rewrite Hroot in Hsum. apply INR_eq. now rewrite <- Hsum.
    + eapply Forall_impl; [| apply (leaves_under_range N (S d) 0); lia].
      intros j Hj. now apply Hind.
Qed.

Lemma leaves_under_root_perm (N : Z) (d : nat) :
  1 <= N -> N <= 2 ^ Z.of_nat d ->
  Permutation (leaves_under (S d) (2 * N - 1) 0)
              (map (fun k => N - 1 + k) (arange N)).
Proof.
  intros HN Hd.
  pose proof (leaves_under_range N (S d) 0 ltac:(lia)) as Hrange.
  rewrite Forall_forall in Hrange.
  apply NoDup_Permutation.
  - apply (NoDup_count_occ Z.eq_dec). intros x.
    destruct (in_dec Z.eq_dec x (leaves_under (S d) (2 * N - 1) 0)) as [Hin | Hout].
    + rewrite leaves_under_root_count by (try apply Hrange; assumption). lia.
    + apply (count_occ_not_In Z.eq_dec) in Hout. lia.
  - apply Finite.Injective_map_NoDup; [| apply arange_NoDup].
    intros x y Hxy. lia.
  - intros x. split.
    + intros Hin. apply Hrange in Hin. apply in_map_iff.
      exists (x - (N - 1)). split; [lia |]. apply arange_In. lia.
    + intros Hin. apply in_map_iff in Hin. destruct Hin as (k & <- & Hk).
      apply arange_In in Hk.
      apply (count_occ_In Z.eq_dec).
      rewrite leaves_under_root_count by (assumption || lia). lia.
Qed.

(** X9: [_retrieve] inverts the prefix sums of the leaves.  On a tree of
    capacity [N >= 1] that satisfies the sum invariant, the leaves in the
    order of the traversal (left child first) are a rearrangement of the
    [N] leaf positions, and for a value [0 < s <= total] the descent from
    the root returns the leaf [idx] at which the running sum of the
    leaves first reaches [s]: the leaves before it sum to less than [s],
    together with it to at least [s]; so its priority is positive. *)
Theorem retrieve_inverts_prefix_sums (N : Z) (d : nat) (t : SumTree) (s : R) :
  1 <= N -> N <= 2 ^ Z.of_nat d ->
  sum_invariant N (tree t) ->
  (0 < s <= node (tree t) 0)%R ->
  Permutation (leaves_under (S d) (2 * N - 1) 0)
              (map (fun k => N - 1 + k) (arange N)) /\
  exists idx pre post,
    _retrieve (S d) t 0 s = inr idx /\
    leaves_under (S d) (2 * N - 1) 0 = pre ++ idx :: post /\
    (sum_R (map (node (tree t)) pre) < s
     <= sum_R (map (node (tree t)) pre) + node (tree t) idx)%R /\
    (0 < node (tree t) idx)%R.
Proof.
  intros HN Hd Hinv Hs. split; [now apply leaves_under_root_perm |].
  destruct (retrieve_prefix N t Hinv d 0 s ltac:(lia) ltac:(lia) Hs)
    as (idx & pre & post & Hrun & HL & Hb).
  exists idx, pre, post. repeat split; try assumption; lra.
Qed.

(** ** Pushes into the sum-tree buffer *)

Lemma mod_slots_differ (N j k : Z) :
  0 < N -> 0 < k - j < N -> j mod N <> k mod N.
Proof.
  intros HN Hjk Heq.
  assert (Hd : (k - j) mod N = 0).
  { rewrite Zminus_mod, Heq, Z.sub_diag. apply Z.mod_0_l. lia. }
  rewrite Z.mod_small in Hd by lia. lia.
Qed.

Lemma tree_holds_init (N : Z) (a : R) :
  1 <= N ->
  exists b0, PERBufferSumTree_init N a = inr b0 /\ tree_holds N [] b0.
Proof.
  intros HN.
  destruct (SumTree_init_invariant N HN) as (t0 & Hinit & Hinv & Hcap).
  unfold PERBufferSumTree_init. rewrite Hinit. eexists. split; [reflexivity |].
  unfold SumTree_init in Hinit.
  destruct (2 * N - 1 <? 0); [discriminate |].
  assert (Ht0 : t0 = mkSumTree N (repeat 0%R (Z.to_nat (2 * N - 1)))
                               (repeat None (Z.to_nat N)) 0 0) by congruence.
  unfold tree_holds. cbn [per_tree per_max_priority length Z.of_nat].
  rewrite Ht0 in *. cbn [st_capacity tree data write n_entries] in *.
  rewrite repeat_length.
  split; [reflexivity |]. split; [lia |]. split; [exact Hinv |].
  split; [symmetry; apply Z.mod_0_l; lia |]. split; [lia |].
  split; [reflexivity |]. split; [| split].
  - rewrite node_zeros. replace (Z.min 0 N) with 0 by lia. reflexivity.
  - intros j Hj. lia.
  - intros s Hs. split; [| apply node_zeros].
    rewrite nth_error_repeat by lia. reflexivity.
Qed.

Lemma tree_holds_step (N : Z) (depth : nat) (ts : list Transition)
      (b : PERBufferSumTree) (d : Transition) :
  2 <= N -> 2 * N <= 2 ^ Z.of_nat depth -> tree_holds N ts b ->
  exists b', per_push depth d b = (inr tt, b') /\ tree_holds N (ts ++ [d]) b'.
Proof.
  intros HN Hdepth (Hcap & Hld & Hinv & Hw & Hn & Hmax & Hroot & Hfull & Hfree).
  set (k := Z.of_nat (length ts)) in *.
  pose proof Hinv as (Hlt & _).
  assert (Hkm : 0 <= k mod N < N) by (apply Z.mod_pos_bound; lia).
  assert (Hk0 : 0 <= k) by (unfold k; lia).
  set (t0 := set_data (list_set (data (per_tree b)) (Z.to_nat (k mod N)) (Some d))
                      (per_tree b)).
  destruct (update_run depth (k mod N + N - 1) 1%R t0)
    as (t1 & Hup & Hsame & Hroot1 & Hleaf1 & Hrest1).
  { unfold t0. cbn [tree set_data]. lia. }
  { lia. }
  assert (Hinv1 : sum_invariant N (tree t1)).
  { eapply (update_keeps_invariant N depth (k mod N + N - 1) 1%R t0 t1);
      [exact Hinv | lia | lia | exact Hup]. }
  destruct Hsame as (S1 & S2 & S3 & S4 & S5).
  unfold t0 in S1, S2, S3, S4. cbn [st_capacity data write n_entries set_data] in S1, S2, S3, S4.
  assert (Hold : node (tree (per_tree b)) (k mod N + N - 1)
                 = if k <? N then 0%R else 1%R).
  { destruct (Z.ltb_spec k N) as [Hlt' | Hge].
    - rewrite Z.mod_small by lia.
      replace (k + N - 1) with (N - 1 + k) by lia. apply Hfree. lia.
    - destruct (Hfull (k - N) ltac:(lia)) as (_ & Hone).
      replace ((k - N) mod N) with (k mod N) in Hone.
      + replace (k mod N + N - 1) with (N - 1 + k mod N) by lia. exact Hone.
      + replace (k - N) with (k + (-1) * N) by lia.
        now rewrite Z.mod_add by lia. }
  exists (set_per_tree
            (set_n_entries (Z.min (n_entries t1 + 1) (st_capacity t1))
               (set_write ((write t1 + 1) mod st_capacity t1) t1)) b).
  split.
  { unfold per_push, bind, get_self, on_tree.
    unfold add, bind, get_self, lift, modify.
    rewrite Hw, Hcap, Hmax. rewrite setitem_in_range by lia.
    fold t0. rewrite Hup. unfold py_mod.
    destruct (st_capacity t1 =? 0) eqn:E; [apply Z.eqb_eq in E; lia |].
    reflexivity. }
  assert (Hk' : Z.of_nat (length (ts ++ [d])) = k + 1).
  { rewrite length_app. cbn. unfold k. lia. }
  unfold tree_holds. rewrite Hk'.
  cbn [per_tree set_per_tree per_max_priority st_capacity data tree write
       n_entries set_n_entries set_write].
  rewrite S1, S2, S3, S4, Hcap, Hw, Hn.
  split; [reflexivity |]. split; [rewrite list_set_length; exact Hld |].
  split; [exact Hinv1 |].
  split; [now rewrite Zplus_mod_idemp_l |].
  split; [lia |]. split; [exact Hmax |]. split; [| split].
  - rewrite Hroot1. unfold t0. cbn [tree set_data]. rewrite Hroot, Hold.
    destruct (Z.ltb_spec k N).
    + replace (Z.min k N) with k by lia.
      replace (Z.min (k + 1) N) with (k + 1) by lia.
      rewrite plus_IZR. lra.
    + replace (Z.min k N) with N by lia.
      replace (Z.min (k + 1) N) with N by lia. lra.
  - intros j Hj. destruct (Z.eq_dec j k) as [-> | Hne].
    + split.
      * rewrite nth_error_list_set_eq by lia.
        rewrite nth_error_app2 by (unfold k; lia).
        replace (Z.to_nat k - length ts)%nat with 0%nat by (unfold k; lia).
        reflexivity.
      * replace (N - 1 + k mod N) with (k mod N + N - 1) by lia. exact Hleaf1.
    + assert (Hdiff : j mod N <> k mod N) by (apply mod_slots_differ; lia).
      assert (Hjm : 0 <= j mod N < N) by (apply Z.mod_pos_bound; lia).
      destruct (Hfull j ltac:(lia)) as (Hdat & Hone). split.
      * rewrite nth_error_list_set_neq by lia.
        rewrite Hdat. rewrite nth_error_app1 by (unfold k in *; lia).
        reflexivity.
      * rewrite Hrest1; [exact Hone | | lia].
        Z.div_mod_to_equations; lia.
  - intros s Hs. destruct (Hfree s ltac:(lia)) as (Hdat & Hzero).
    assert (Hks : k mod N = k) by (apply Z.mod_small; lia). split.
    + rewrite nth_error_list_set_neq by lia. exact Hdat.
    + rewrite Hrest1; [exact Hzero | | lia].
      Z.div_mod_to_equations; lia.
Qed.

Lemma per_push_all_holds (N : Z) (depth : nat) (ts pre : list Transition)
      (b : PERBufferSumTree) :
  2 <= N -> 2 * N <= 2 ^ Z.of_nat depth -> tree_holds N pre b ->
  exists b', per_push_all depth ts b = (inr tt, b') /\
             tree_holds N (pre ++ ts) b'.
Proof.
  intros HN Hdepth. revert pre b.
  induction ts as [| d ts IH]; intros pre b Hb.
  - exists b. rewrite app_nil_r. split; [reflexivity | assumption].
  - destruct (tree_holds_step N depth pre b d HN Hdepth Hb) as (b1 & Hrun & Hb1).
    destruct (IH (pre ++ [d]) b1 Hb1) as (b2 & Hrun2 & Hb2).
    exists b2. split.
    + unfold per_push_all in *. cbn [for_each]. unfold bind at 1.
      rewrite Hrun. exact Hrun2.
    + rewrite <- app_assoc in Hb2. exact Hb2.
Qed.

(** X10: the sum-tree buffer as a ring.  Any number [k] of pushes into a
    fresh buffer of capacity [N >= 2] all return (given recursion depth
    for the height of the tree); afterwards [len()] is [min(k, N)], the
    write cursor is [k mod N], the tree satisfies the sum invariant with
    [total() = min(k, N)], [max_priority] is still 1, the retained push
    [j] (with [k - N <= j < k]) lies in payload slot [j mod N] under a
    leaf of priority 1, and the slots not yet written are empty with
    priority 0. *)
Theorem per_push_all_fills_ring (N : Z) (a : R) (depth : nat)
        (ts : list Transition) :
  2 <= N -> 2 * N <= 2 ^ Z.of_nat depth ->
  exists b0 b,
    PERBufferSumTree_init N a = inr b0 /\
    per_push_all depth ts b0 = (inr tt, b) /\
    let k := Z.of_nat (length ts) in
    per_len b = Z.min k N /\
    write (per_tree b) = k mod N /\
    per_max_priority b = 1%R /\
    sum_invariant N (tree (per_tree b)) /\
    total (per_tree b) = inr (IZR (Z.min k N)) /\
    (forall j, Z.max 0 (k - N) <= j < k ->
               nth_error (data (per_tree b)) (Z.to_nat (j mod N))
               = Some (nth_error ts (Z.to_nat j)) /\
               node (tree (per_tree b)) (N - 1 + j mod N) = 1%R) /\
    (forall s, k <= s < N ->
               nth_error (data (per_tree b)) (Z.to_nat s) = Some None /\
               node (tree (per_tree b)) (N - 1 + s) = 0%R).
Proof.
  intros HN Hdepth.
  destruct (tree_holds_init N a ltac:(lia)) as (b0 & Hinit & H0).
  destruct (per_push_all_holds N depth ts [] b0 HN Hdepth H0) as (b & Hrun & Hb).
  cbn [app] in Hb.
  destruct Hb as (Hcap & Hld & Hinv & Hw & Hn & Hmax & Hroot & Hfull & Hfree).
  exists b0, b. split; [exact Hinit |]. split; [exact Hrun |]. cbv zeta.
  split; [exact Hn |]. split; [exact Hw |]. split; [exact Hmax |].
  split; [exact Hinv |]. split; [| split; assumption].
  unfold total. destruct Hinv as (Hlt & _).
  rewrite getitem_node by lia. now rewrite Hroot.
Qed.

(** ** Reading the sum-tree buffer after pushes *)

(** X11: pushes followed by [get].  After any pushes into a fresh
    sum-tree buffer of capacity [N >= 2], [get(s)] for a value
    [0 < s <= total()] returns a transition that was pushed and is still
    retained, the push [j] found at the leaf [N - 1 + j mod N], with the
    seed priority 1: a draw inside the mass never lands on an empty
    slot. *)
Theorem get_after_pushes_returns_retained (N : Z) (a : R) (depth d : nat)
        (ts : list Transition) (b0 b : PERBufferSumTree) (s : R) :
  2 <= N -> 2 * N <= 2 ^ Z.of_nat depth -> N <= 2 ^ Z.of_nat d ->
  PERBufferSumTree_init N a = inr b0 ->
  per_push_all depth ts b0 = (inr tt, b) ->
  (0 < s <= IZR (Z.min (Z.of_nat (length ts)) N))%R ->
  exists j tr,
    Z.max 0 (Z.of_nat (length ts) - N) <= j < Z.of_nat (length ts) /\
    nth_error ts (Z.to_nat j) = Some tr /\
    get (S d) (per_tree b) s = inr (N - 1 + j mod N, 1%R, Some tr).
Proof.
  intros HN Hdepth Hd Hinit Hrun Hs.
  destruct (tree_holds_init N a ltac:(lia)) as (b0' & Hinit' & H0).
  assert (b0' = b0) by congruence. subst b0'.
  destruct (per_push_all_holds N depth ts [] b0 HN Hdepth H0) as (b' & Hrun' & Hb).
  assert (b' = b) by congruence. subst b'. cbn [app] in Hb.
  destruct Hb as (Hcap & Hld & Hinv & Hw & Hn & Hmax & Hroot & Hfull & Hfree).
  set (k := Z.of_nat (length ts)) in *.
  destruct (retrieve_prefix N (per_tree b) Hinv d 0 s ltac:(lia) ltac:(lia))
    as (idx & pre & post & Hret & HL & Hb).
  { now rewrite Hroot. }
  assert (Hidx : N - 1 <= idx <= 2 * N - 2).
  { pose proof (leaves_under_range N (S d) 0 ltac:(lia)) as Hr.
    rewrite Forall_forall in Hr. apply Hr. rewrite HL.
    apply in_or_app. right. now left. }
  assert (Hpos : (0 < node (tree (per_tree b)) idx)%R) by lra.
  set (slot := idx - (N - 1)).
  assert (Hslot : slot < k).
  { destruct (Z_lt_ge_dec slot k) as [Hlt | Hge]; [exact Hlt |].
    destruct (Hfree slot ltac:(unfold slot; lia)) as (_ & Hz).
    replace (N - 1 + slot) with idx in Hz by (unfold slot; lia). lra. }
  set (base := Z.max 0 (k - N)).
  set (j := base + (slot - base) mod N).
  assert (Hm : 0 <= (slot - base) mod N < N) by (apply Z.mod_pos_bound; lia).
  assert (Hj : base <= j < k).
  { unfold j. split; [lia |].
    destruct (Z_le_gt_dec k N) as [Hle | Hgt].
    - assert (base = 0) by (unfold base; lia).
      replace (slot - base) with slot in * by lia.
      rewrite Z.mod_small by (unfold slot in *; lia). lia.
    - unfold base in *. lia. }
  assert (Hjm : j mod N = slot).
  { unfold j. rewrite Zplus_mod_idemp_r.
    replace (base + (slot - base)) with slot by lia.
    apply Z.mod_small. unfold slot. lia. }
  destruct (Hfull j Hj) as (Hdat & Hone).
  destruct (nth_error ts (Z.to_nat j)) as [tr |] eqn:Etr;
    [| apply nth_error_None in Etr; unfold k in *; lia].
  exists j, tr. split; [exact Hj |]. split; [exact Etr |].
  pose proof Hinv as (Hlt & _).
  unfold get. rewrite Hret, Hcap. rewrite getitem_node by lia.
  unfold getitem. rewrite norm_index_in_range by lia.
  rewrite Hjm in *.
  replace (idx - N + 1) with slot by (unfold slot; lia).
  rewrite Hdat.
  replace (N - 1 + slot) with idx in * by (unfold slot; lia).
  now rewrite Hone.
Qed.

(** ** Sampling from the sum-tree buffer *)

Lemma sample_loop_done {G} `{RandomGen G} (rounds depth : nat) (t : SumTree)
      (batch_size : Z) (acc : list (Z * R * Transition)) (g : G) :
  batch_size <= Z.of_nat (length acc) ->
  sample_loop rounds depth t batch_size acc g = (inr (Some acc), g).
Proof.
  intros Hle. destruct rounds; cbn [sample_loop];
    destruct (Z.leb_spec batch_size (Z.of_nat (length acc))); try lia; reflexivity.
Qed.

Lemma sample_loop_round {G} `{RandomGen G} (rounds depth : nat) (t : SumTree)
      (batch_size : Z) (acc : list (Z * R * Transition)) (g g' : G)
      (tot s : R) (idx : Z) (p : R) (dat : option Transition) :
  Z.of_nat (length acc) < batch_size ->
  total t = inr tot ->
  random_uniform 0 tot g = (inr s, g') ->
  get depth t s = inr (idx, p, dat) ->
  sample_loop (S rounds) depth t batch_size acc g =
  sample_loop rounds depth t batch_size
              (match dat with Some d => acc ++ [(idx, p, d)] | None => acc end) g'.
Proof.
  intros Hlt Htot Hs Hget. cbn [sample_loop].
  destruct (Z.leb_spec batch_size (Z.of_nat (length acc))); [lia |].
  unfold bind, lift. rewrite Htot, Hs, Hget. destruct dat; reflexivity.
Qed.

Lemma sample_loop_full {G} `{RandomGenLaws G} (d : nat) (t : SumTree)
      (batch_size : Z) (P : Z * R * Transition -> Prop) :
  tree_shape t -> st_capacity t <= 2 ^ Z.of_nat d ->
  Forall (fun x => x <> None) (data t) ->
  (forall idx tr, st_capacity t - 1 <= idx <= 2 * st_capacity t - 2 ->
                  nth_error (data t) (Z.to_nat (idx - st_capacity t + 1))
                  = Some (Some tr) ->
                  P (idx, node (tree t) idx, tr)) ->
  forall (rounds : nat) (acc : list (Z * R * Transition)) (g : G),
    Z.of_nat (length acc) <= batch_size ->
    batch_size - Z.of_nat (length acc) <= Z.of_nat rounds ->
    Forall P acc ->
    exists picked g',
      sample_loop rounds (S d) t batch_size acc g = (inr (Some picked), g') /\
      Z.of_nat (length picked) = batch_size /\ Forall P picked.
Proof.
  intros Hs Hd Hfull HP. pose proof Hs as (Hc & Hlt & Hld & Hw).
  induction rounds as [| rounds IH]; intros acc g Hacc Hrounds Hall.
  - exists acc, g. split; [apply sample_loop_done; lia |]. split; [lia | exact Hall].
  - destruct (Z_le_gt_dec batch_size (Z.of_nat (length acc))) as [Hle | Hgt].
    + exists acc, g. split; [apply sample_loop_done; lia |].
      split; [lia | exact Hall].
    + destruct (uniform_range 0%R (node (tree t) 0) g) as (s & g1 & Hu & _).
      destruct (retrieve_descends (st_capacity t) t Hlt d 0 s)
        as (idx & Hret & Hr & _); [lia | lia |].
      destruct (get_at_leaf (S d) t s idx Hs Hret Hr) as (dat & Hget & Hdat).
      destruct dat as [tr |].
      * destruct (IH (acc ++ [(idx, node (tree t) idx, tr)]) g1)
          as (picked & g' & Hrun & Hlen & Hpicked).
        { rewrite length_app. cbn. lia. }
        { rewrite length_app. cbn. lia. }
        { apply Forall_app. split; [exact Hall |].
          constructor; [now apply HP | constructor]. }
        exists picked, g'. split; [| split; assumption].
        rewrite (sample_loop_round rounds (S d) t batch_size acc g g1
                   (node (tree t) 0) s idx (node (tree t) idx) (Some tr));
          try assumption; try lia.
        unfold total. apply getitem_node. lia.
      * exfalso. rewrite Forall_forall in Hfull.
        apply (Hfull None); [| reflexivity].
        eapply nth_error_In. exact Hdat.
Qed.

(** X12: [sample] on a buffer whose payload slots are all filled.  For
    every generator, [sample(batch_size, beta)] with
    [1 <= batch_size <= n_entries] leaves its loop after exactly
    [batch_size] draws and returns [batch_size] transitions, weights and
    indices; every index is a leaf position in [[N - 1, 2N - 2]] and the
    transition returned with it is the payload of that leaf. *)
Theorem per_sample_full_buffer {G} `{RandomGenLaws G} `{FloatPow}
        (rounds d : nat) (b : PERBufferSumTree) (batch_size : Z) (beta : R)
        (g : G) :
  tree_shape (per_tree b) ->
  st_capacity (per_tree b) <= 2 ^ Z.of_nat d ->
  Forall (fun x => x <> None) (data (per_tree b)) ->
  1 <= batch_size <= n_entries (per_tree b) ->
  batch_size <= Z.of_nat rounds ->
  exists tb g',
    per_sample rounds (S d) b batch_size beta g = (inr (Some tb), g') /\
    Z.of_nat (length (tb_idxs tb)) = batch_size /\
    Z.of_nat (length (tb_transitions tb)) = batch_size /\
    Z.of_nat (length (tb_weights tb)) = batch_size /\
    Forall (fun idx => st_capacity (per_tree b) - 1 <= idx
                       <= 2 * st_capacity (per_tree b) - 2) (tb_idxs tb) /\
    map (fun idx => nth_error (data (per_tree b))
                              (Z.to_nat (idx - st_capacity (per_tree b) + 1)))
        (tb_idxs tb)
    = map (fun tr => Some (Some tr)) (tb_transitions tb).
Proof.
  intros Hs Hd Hfull Hb Hrounds. pose proof Hs as (Hc & Hlt & Hld & Hw).
  set (t := per_tree b) in *. set (N := st_capacity t) in *.
  destruct (sample_loop_full d t batch_size
              (fun x => N - 1 <= fst (fst x) <= 2 * N - 2 /\
                        nth_error (data t) (Z.to_nat (fst (fst x) - N + 1))
                        = Some (Some (snd x)))
              Hs Hd Hfull ltac:(intros; cbn; auto) rounds [] g)
    as (picked & g' & Hrun & Hlen & Hpicked);
    [cbn; lia | cbn; lia | constructor |].
  unfold per_sample. fold t.
  destruct (Z.ltb_spec (n_entries t) batch_size); [lia |].
  unfold bind at 1. rewrite Hrun.
  destruct picked as [| x picked]; [cbn in Hlen; lia |].
  set (pk := x :: picked) in *.
  unfold bind, lift, ret, total. rewrite getitem_node by lia.
  unfold tree_weights.
  set (ws := map _ (map (fun x0 => snd (fst x0)) pk)).
  assert (Hws : length ws = length pk) by (unfold ws; now rewrite !length_map).
  destruct ws as [| w ws]; [cbn in Hws; discriminate |]. cbn [np_max].
  eexists. exists g'. split; [reflexivity |].
  cbn [tb_idxs tb_transitions tb_weights].
  rewrite !length_map. rewrite Hws.
  split; [exact Hlen |]. split; [exact Hlen |]. split; [exact Hlen |]. split.
  - apply Forall_map. eapply Forall_impl; [| exact Hpicked].
    intros y (Hy & _). exact Hy.
  - rewrite !map_map. apply map_ext_Forall.
    eapply Forall_impl; [| exact Hpicked].
    intros y (_ & Hy). exact Hy.
Qed.

(** X13: the loop of [sample] has no bound of its own.  When the draw
    for the value 0 ends on a leaf whose payload slot is empty, a
    generator whose uniform draw returns the lower end of its range,
    which [random.uniform] may return, makes every round of the loop
    discard its draw, and [sample] is still in its loop after any number
    of rounds, although the occupancy check passed. *)
Theorem per_sample_redraws_on_empty_slot {G} `{RandomGen G} `{FloatPow}
        (rounds depth : nat) (b : PERBufferSumTree) (batch_size : Z)
        (beta : R) (g : G) (tot : R) (idx : Z) (p : R) :
  (forall (lo hi : R) (g0 : G), random_uniform lo hi g0 = (inr lo, g0)) ->
  1 <= batch_size <= n_entries (per_tree b) ->
  total (per_tree b) = inr tot ->
  get depth (per_tree b) 0 = inr (idx, p, None) ->
  per_sample rounds depth b batch_size beta g = (inr None, g).
Proof.
  intros Hlow Hb Htot Hget. unfold per_sample.
  destruct (Z.ltb_spec (n_entries (per_tree b)) batch_size); [lia |].
  assert (Hloop : sample_loop rounds depth (per_tree b) batch_size [] g
                  = (inr None, g)).
  { induction rounds as [| rounds IH].
    - cbn [sample_loop length Z.of_nat].
      destruct (Z.leb_spec batch_size 0); [lia | reflexivity].
    - rewrite (sample_loop_round rounds depth (per_tree b) batch_size [] g g
                 tot 0%R idx p None);
        [exact IH | cbn; lia | exact Htot | apply Hlow | exact Hget]. }
  unfold bind at 1. rewrite Hloop. reflexivity.
Qed.

(** ** Updates that are not on a leaf *)

(** X14: [update] does not check that its position is a leaf.  On a tree
    that satisfies the sum invariant, [update(idx, p)] on an internal
    node below the root returns, overwrites that node with [p] and
    leaves its two children as they were, so that for [p] different from
    the old value the node is no longer the sum of its children and the
    invariant is lost; [update_priorities] passes its indices to [update]
    unchanged. *)
Theorem update_internal_node_breaks_invariant (N : Z) (depth : nat) (idx : Z)
        (p : R) (t : SumTree) :
  sum_invariant N (tree t) ->
  1 <= idx < N - 1 -> idx + 1 < 2 ^ Z.of_nat depth ->
  p <> node (tree t) idx ->
  exists t',
    update depth idx p t = (inr tt, t') /\
    node (tree t') idx = p /\
    node (tree t') (2 * idx + 1) = node (tree t) (2 * idx + 1) /\
    node (tree t') (2 * idx + 2) = node (tree t) (2 * idx + 2) /\
    node (tree t') 0 = (node (tree t) 0 + (p - node (tree t) idx))%R /\
    ~ sum_invariant N (tree t').
Proof.
  intros (Hlen & Hnodes & Hroot) Hidx Hd Hp.
  destruct (update_run depth idx p t ltac:(lia) Hd)
    as (t' & Hrun & _ & Hroot' & Hleaf & Hrest).
  assert (Hpar : (idx - 1) / 2 < idx) by (Z.div_mod_to_equations; lia).
  assert (Hl : node (tree t') (2 * idx + 1) = node (tree t) (2 * idx + 1))
    by (apply Hrest; lia).
  assert (Hr : node (tree t') (2 * idx + 2) = node (tree t) (2 * idx + 2))
    by (apply Hrest; lia).
  exists t'. repeat (split; [assumption |]).
  intros (_ & Hnodes' & _).
  specialize (Hnodes idx ltac:(lia)). specialize (Hnodes' idx ltac:(lia)).
  rewrite Hleaf, Hl, Hr in Hnodes'. apply Hp. lra.
Qed.

(** ** What [update_priorities] leaves alone *)

(** X15: [update_priorities] changes priorities and [max_priority] and
    nothing else, whether it returns or raises: in the flat variant the
    ring (transitions, cursor, size), [alpha] and the length of the
    priority array are as before; in the tree variant the payload slots,
    the write cursor, [n_entries], the capacity, the number of tree
    nodes, [alpha] and [epsilon] are as before. *)
Theorem update_priorities_keeps_transitions `{FloatPow} :
  (forall (b : PrioritizedReplayBuffer) (indices : list Z) (tds : list R),
      let b' := snd (prio_update_priorities indices tds b) in
      base b' = base b /\ alpha b' = alpha b /\
      length (priorities b') = length (priorities b)) /\
  (forall (depth : nat) (b : PERBufferSumTree) (indices : list Z) (tds : list R),
      let b' := snd (per_update_priorities depth indices tds b) in
      data (per_tree b') = data (per_tree b) /\
      write (per_tree b') = write (per_tree b) /\
      n_entries (per_tree b') = n_entries (per_tree b) /\
      st_capacity (per_tree b') = st_capacity (per_tree b) /\
      length (tree (per_tree b')) = length (tree (per_tree b)) /\
      per_alpha b' = per_alpha b /\ per_epsilon b' = per_epsilon b).
Proof.
  split.
  - intros b indices tds. cbv zeta. unfold prio_update_priorities.
    destruct (for_each (combine indices tds) prio_update_one b) as [r b'] eqn:E.
    destruct (prio_update_shape _ _ _ _ E) as (H1 & H2 & H3 & _). cbn. auto.
  - intros depth b indices tds. cbv zeta. unfold per_update_priorities.
    destruct (for_each (combine indices tds) (per_update_one depth) b)
      as [r b'] eqn:E.
    destruct (per_update_shape _ _ _ _ _ E) as ((A1 & A2 & A3 & A4 & A5) & H2 & H3 & _).
    cbn. repeat split; assumption.
Qed.

(** ** Sampling before any priority update *)

Lemma retained_slot (N k slot : Z) :
  0 < N -> 0 <= slot < N -> slot < k ->
  exists j, Z.max 0 (k - N) <= j < k /\ j mod N = slot.
Proof.
  intros HN Hslot Hk.
  set (base := Z.max 0 (k - N)).
  exists (base + (slot - base) mod N).
  assert (Hm : 0 <= (slot - base) mod N < N) by (apply Z.mod_pos_bound; lia).
  split.
  - split; [lia |]. destruct (Z_le_gt_dec k N) as [Hle | Hgt].
    + assert (Hb : base = 0) by (unfold base; lia). rewrite Hb in *.
      rewrite Z.sub_0_r, Z.mod_small by lia. lia.
    + unfold base in *. lia.
  - rewrite Zplus_mod_idemp_r.
    replace (base + (slot - base)) with slot by lia.
    now apply Z.mod_small.
Qed.

Lemma fold_Rmax_same (w : R) (l : list R) :
  Forall (fun x => x = w) l -> fold_left Rmax l w = w.
Proof.
  induction 1 as [| x l Hx _ IH]; [reflexivity |].
  cbn. rewrite Hx. unfold Rmax at 2.
  destruct (Rle_dec w w); exact IH.
Qed.

Lemma tree_weights_equal_priorities `{FloatPowLaws} (n : Z) (tot p : R)
      (ps : list R) (beta : R) :
  ps <> [] -> Forall (fun x => x = p) ps -> (0 < IZR n * (p / tot))%R ->
  tree_weights n tot ps beta = inr (repeat 1%R (length ps)).
Proof.
  intros Hne Hall Hpos. unfold tree_weights.
  set (w := float_pow (IZR n * (p / tot)) (- beta)).
  assert (Hw : (0 < w)%R) by now apply float_pow_pos.
  assert (Hraw : map (fun q => float_pow (IZR n * (q / tot)) (- beta)) ps
                 = repeat w (length ps)).
  { clear Hne. induction Hall as [| x l Hx _ IH]; [reflexivity |].
    cbn. rewrite IH, Hx. reflexivity. }
  rewrite Hraw. destruct ps as [| x ps]; [contradiction |].
  cbn [length repeat np_max].
  rewrite fold_Rmax_same
    by (apply Forall_forall; intros y Hy; now apply repeat_spec in Hy).
  f_equal. cbn [map]. rewrite map_repeat.
  replace (w / w)%R with 1%R by (field; lra). reflexivity.
Qed.

(** X16: sampling before any priority update.  Once [k >= N] pushes
    have filled a fresh sum-tree buffer of capacity [N >= 2], and before
    any [update_priorities], [sample(batch_size, beta)] with
    [1 <= batch_size <= N] returns, for every generator, after exactly
    [batch_size] draws; every transition returned is one of the pushed
    ones and every importance weight is exactly 1. *)
Theorem per_sample_after_pushes_has_unit_weights
        {G} `{RandomGenLaws G} `{FloatPowLaws}
        (N : Z) (a : R) (depth d rounds : nat) (ts : list Transition)
        (b0 b : PERBufferSumTree) (batch_size : Z) (beta : R) (g : G) :
  2 <= N -> 2 * N <= 2 ^ Z.of_nat depth -> N <= 2 ^ Z.of_nat d ->
  PERBufferSumTree_init N a = inr b0 ->
  per_push_all depth ts b0 = (inr tt, b) ->
  N <= Z.of_nat (length ts) ->
  1 <= batch_size <= N -> batch_size <= Z.of_nat rounds ->
  exists tb g',
    per_sample rounds (S d) b batch_size beta g = (inr (Some tb), g') /\
    tb_weights tb = repeat 1%R (Z.to_nat batch_size) /\
    Z.of_nat (length (tb_transitions tb)) = batch_size /\
    Forall (fun tr => In tr ts) (tb_transitions tb).
Proof.
  intros HN Hdepth Hd Hinit Hrun Hk Hb Hrounds.
  destruct (tree_holds_init N a ltac:(lia)) as (b0' & Hinit' & Hfresh).
  assert (b0' = b0) by congruence. subst b0'.
  destruct (per_push_all_holds N depth ts [] b0 HN Hdepth Hfresh) as (b' & Hrun' & Hh).
  assert (b' = b) by congruence. subst b'. cbn [app] in Hh.
  destruct Hh as (Hcap & Hld & Hinv & Hw & Hn & Hmax & Hroot & Hfull & _).
  set (k := Z.of_nat (length ts)) in *. set (t := per_tree b) in *.
  pose proof Hinv as (Hlt & _).
  assert (Hshape : tree_shape t).
  { unfold tree_shape. rewrite Hcap, Hw.
    repeat split; try lia; apply Z.mod_pos_bound; lia. }
  assert (Hslot : forall slot, 0 <= slot < N ->
                    exists tr, nth_error (data t) (Z.to_nat slot) = Some (Some tr) /\
                               In tr ts /\ node (tree t) (N - 1 + slot) = 1%R).
  { intros slot Hslot.
    destruct (retained_slot N k slot ltac:(lia) Hslot ltac:(lia)) as (j & Hj & Hjm).
    destruct (Hfull j Hj) as (Hdat & Hone). rewrite Hjm in Hdat, Hone.
    destruct (nth_error ts (Z.to_nat j)) as [tr |] eqn:Etr;
      [| apply nth_error_None in Etr; unfold k in *; lia].
    exists tr. split; [exact Hdat |]. split; [| exact Hone].
    eapply nth_error_In. exact Etr. }
  assert (Hallsome : Forall (fun x => x <> None) (data t)).
  { apply Forall_forall. intros x Hx.
    apply In_nth_error in Hx. destruct Hx as (n & Hn').
    assert (Hlt' : (n < length (data t))%nat) by (apply nth_error_Some; congruence).
    destruct (Hslot (Z.of_nat n) ltac:(lia)) as (tr & Hdat & _).
    rewrite Nat2Z.id in Hdat. congruence. }
  destruct (sample_loop_full d t batch_size
              (fun x => snd (fst x) = 1%R /\ In (snd x) ts)
              Hshape ltac:(lia) Hallsome) with (rounds := rounds) (acc := @nil (Z * R * Transition)) (g := g)
    as (picked & g' & Hloop & Hlen & Hpicked).
  { intros idx tr Hidx Hdat. rewrite Hcap in *. cbn [fst snd].
    destruct (Hslot (idx - N + 1) ltac:(lia)) as (tr' & Hdat' & Hin & Hone).
    replace (N - 1 + (idx - N + 1)) with idx in Hone by lia.
    split; [exact Hone |]. congruence. }
  { cbn. lia. }
  { cbn. lia. }
  { constructor. }
  unfold per_sample. fold t. rewrite Hn.
  destruct (Z.ltb_spec (Z.min k N) batch_size); [lia |].
  unfold bind at 1. rewrite Hloop.
  destruct picked as [| x picked]; [cbn in Hlen; lia |].
  set (pk := x :: picked) in *.
  unfold bind, lift, ret, total. rewrite getitem_node by lia. rewrite Hroot.
  replace (Z.min k N) with N by lia.
  rewrite (tree_weights_equal_priorities N (IZR N) 1%R).
  - eexists. exists g'. split; [reflexivity |].
    cbn [tb_weights tb_transitions]. rewrite !length_map.
    split; [f_equal; lia |]. split; [exact Hlen |].
    apply Forall_map. eapply Forall_impl; [| exact Hpicked].
    intros y (_ & Hy). exact Hy.
  - unfold pk. discriminate.
  - apply Forall_map. eapply Forall_impl; [| exact Hpicked].
    intros y (Hy & _). exact Hy.
  - assert (HNr : (0 < IZR N)%R) by (apply IZR_lt; lia).
    replace (IZR N * (1 / IZR N))%R with 1%R by (field; lra). lra.
Qed.

(** ** The exploration rate of the training loop *)

Lemma train_epsilon_value (es em : R) (D f : Z) :
  D <> 0 ->
  train_epsilon es em D f
  = inr (Rmax em (es - (es - em) * Rmin (IZR f / IZR D) 1))%R.
Proof.
  intros HD. unfold train_epsilon.
  destruct (Z.eqb_spec D 0); [contradiction | reflexivity].
Qed.

Lemma frames_ratio (D f f' : Z) :
  0 < D -> f <= f' -> (IZR f / IZR D <= IZR f' / IZR D)%R.
Proof.
  intros HD Hf. unfold Rdiv. apply Rmult_le_compat_r.
  - left. apply Rinv_0_lt_compat. apply IZR_lt. lia.
  - now apply IZR_le.
Qed.

(** X17: the exploration rate of [train].  With
    [epsilon_min <= epsilon_start] and a positive number of decay
    frames, the rate computed at frame count [f >= 0] lies in
    [[epsilon_min, epsilon_start]], is [epsilon_start] at frame 0, falls
    linearly up to the decay frames, is [epsilon_min] from there on, and
    never increases with the frame count. *)
Theorem train_epsilon_schedule (es em : R) (D : Z) :
  (em <= es)%R -> 0 < D ->
  train_epsilon es em D 0 = inr es /\
  (forall f, 0 <= f <= D ->
             train_epsilon es em D f
             = inr (es - (es - em) * (IZR f / IZR D))%R) /\
  (forall f, D <= f -> train_epsilon es em D f = inr em) /\
  (forall f, 0 <= f ->
             exists e, train_epsilon es em D f = inr e /\ (em <= e <= es)%R) /\
  (forall f f' e e', 0 <= f <= f' ->
                     train_epsilon es em D f = inr e ->
                     train_epsilon es em D f' = inr e' -> (e' <= e)%R).
Proof.
  intros He HD.
  assert (HDr : (0 < IZR D)%R) by (apply IZR_lt; lia).
  assert (Hone : (IZR D / IZR D = 1)%R) by (field; lra).
  assert (Hzero : (IZR 0 / IZR D = 0)%R) by (unfold Rdiv; apply Rmult_0_l).
  assert (Hlin : forall f, 0 <= f <= D ->
             train_epsilon es em D f
             = inr (es - (es - em) * (IZR f / IZR D))%R).
  { intros f Hf. rewrite train_epsilon_value by lia.
    pose proof (frames_ratio D 0 f HD ltac:(lia)) as H0.
    pose proof (frames_ratio D f D HD ltac:(lia)) as H1.
    rewrite Hzero in H0. rewrite Hone in H1.
    rewrite Rmin_left by exact H1. rewrite Rmax_right; [reflexivity | nra]. }
  assert (Hflat : forall f, D <= f -> train_epsilon es em D f = inr em).
  { intros f Hf. rewrite train_epsilon_value by lia.
    pose proof (frames_ratio D D f HD Hf) as H1. rewrite Hone in H1.
    rewrite Rmin_right by exact H1. rewrite Rmax_left; [reflexivity | lra]. }
  assert (Hrange : forall f, 0 <= f ->
             exists e, train_epsilon es em D f = inr e /\ (em <= e <= es)%R).
  { intros f Hf. destruct (Z_le_gt_dec D f) as [Hge | Hlt].
    - exists em. split; [now apply Hflat | lra].
    - eexists. split; [apply Hlin; lia |].
      pose proof (frames_ratio D 0 f HD ltac:(lia)) as H0.
      pose proof (frames_ratio D f D HD ltac:(lia)) as H1.
      rewrite Hzero in H0. rewrite Hone in H1. nra. }
  split; [| split; [exact Hlin | split; [exact Hflat | split; [exact Hrange |]]]].
  - rewrite Hlin by lia. rewrite Hzero. f_equal. ring.
  - intros f f' e e' Hf Hrun Hrun'.
    destruct (Z_le_gt_dec D f') as [Hge | Hlt].
    + rewrite Hflat in Hrun' by exact Hge.
      destruct (Hrange f ltac:(lia)) as (e0 & Hrun0 & Hb).
      assert (e0 = e) by congruence. assert (em = e') by congruence. subst. lra.
    + rewrite Hlin in Hrun, Hrun' by lia.
      pose proof (frames_ratio D f f' HD ltac:(lia)) as Hr.
      inversion Hrun; inversion Hrun'; subst. nra.
Qed.

(** ** The batch of the flat priority sampler *)

Lemma sample_probs_positive `{FloatPowLaws} (b : PrioritizedReplayBuffer) :
  flat_inv b -> 0 < size (base b) ->
  Forall (fun p => (0 < p)%R) (sample_probs b).
Proof.
  intros Hinv Hsz.
  destruct (flat_inv_prob_sum b Hinv Hsz) as (Hsum & ->).
  destruct Hinv as ((Hring & Hlen) & _ & Hpos & _).
  assert (Hsize : 0 <= size (base b) <= capacity (base b))
    by (destruct Hring; assumption).
  apply Forall_map, Forall_map.
  eapply Forall_impl;
    [| apply (firstn_all_positive (priorities b) (Z.to_nat (size (base b))))].
  - cbv beta. intros x Hx. apply Rdiv_lt_0_compat; [| exact Hsum].
    now apply float_pow_pos.
  - lia.
  - intros i Hi. apply Hpos. lia.
Qed.

(** X18: the importance weights of the flat sampler.  In every state
    of the flat variant that the methods produce, a [sample] that returns
    has drawn at least one index, hands out one weight per index, and
    over exact reals every weight is positive and below 1: the batch
    maximum is divided by itself plus [1e-8]. *)
Theorem prio_sample_weights_in_unit_interval
        {G : Type} `{RandomGenLaws G} `{FloatPowLaws}
        (self : PrioritizedReplayBuffer) (n : Z) (beta : R) (g g' : G)
        (wb : WeightedBatch) :
  flat_reachable self ->
  prio_sample self n beta g = (inr wb, g') ->
  1 <= n /\
  length (wb_weights wb) = length (wb_indices wb) /\
  Forall (fun w => (0 < w < 1)%R) (wb_weights wb).
Proof.
  intros Hreach Hrun.
  pose proof (flat_reachable_inv self Hreach) as Hinv.
  destruct (prio_sample_indices self n beta g g' wb Hrun) as (Hlen & Hall & _).
  unfold prio_sample in Hrun.
  apply bind_inr in Hrun. destruct Hrun as (l0 & g1 & _ & Hrun).
  apply bind_inr in Hrun. destruct Hrun as (l & g2 & _ & Hrun).
  apply bind_inr in Hrun. destruct Hrun as (batch & g3 & _ & Hrun).
  apply bind_inr in Hrun. destruct Hrun as (ws & g4 & Hw & Hrun).
  unfold ret in Hrun. inversion Hrun; subst; clear Hrun.
  cbn [wb_indices wb_weights] in *.
  unfold lift in Hw.
  destruct (flat_weights (len (base self)) (sample_probs self) l beta)
    as [e | ws'] eqn:Ew; [discriminate |].
  inversion Hw; subst ws'; clear Hw.
  assert (Hnn : Forall (fun i => 0 <= i) l).
  { eapply Forall_impl; [| exact Hall]. cbv beta. intros i Hi. lia. }
  pose proof Ew as Ew'. unfold flat_weights in Ew'.
  destruct (take (sample_probs self) l) as [e | ps] eqn:Et; [discriminate |].
  destruct (take_nth _ _ _ 0%R Hnn Et) as (Hps & Hin).
  destruct l as [| i l].
  { subst ps. cbn in Ew'. discriminate. }
  assert (Hsz : 1 < size (base self)).
  { inversion Hall; subst. lia. }
  assert (Hn : 1 <= n).
  { cbn [length] in Hlen. lia. }
  assert (Hpos : Forall (fun p => (0 < IZR (len (base self)) * p)%R) ps).
  { rewrite Hps. apply Forall_map, Forall_forall. intros j Hj.
    rewrite Forall_forall in Hnn, Hin. specialize (Hnn j Hj). specialize (Hin j Hj).
    apply Rmult_lt_0_compat; [apply IZR_lt; unfold len; lia |].
    apply (Forall_nth_in_range (fun p => (0 < p)%R)); [| lia].
    apply sample_probs_positive; [exact Hinv | lia]. }
  destruct (flat_weights_max _ _ _ _ ps ws Et Hpos Ew)
    as (m & Hm & Hmax & Hlt & Hwpos).
  destruct (np_max_spec _ _ Hmax) as (_ & Hle).
  split; [exact Hn |]. split.
  - destruct (np_max _) as [e | m'] in Ew'; [discriminate |].
    inversion Ew'; subst ws. rewrite !length_map. rewrite Hps.
    now rewrite length_map.
  - rewrite Forall_forall in *. intros w Hw.
    specialize (Hwpos w Hw). specialize (Hle w Hw). lra.
Qed.

(** ** Importance weights of a sample that returned *)








(** ** Further examples *)

Lemma tree4_shape : tree_shape (per_tree tree4).
Proof. unfold tree_shape. cbn. lia. Qed.

Lemma tree4_invariant : sum_invariant 4 (tree (per_tree tree4)).
Proof.
  split; [reflexivity |]. split.
  - intros i Hi.
    assert (Hcases : i = 0 \/ i = 1 \/ i = 2) by lia.
    destruct Hcases as [-> | [-> | ->]]; unfold node; simpl; lra.
  - unfold leaf_sum, node. simpl. lra.
Qed.

Lemma tree4_full : Forall (fun x => x <> None) (data (per_tree tree4)).
Proof. cbn. repeat constructor; discriminate. Qed.

Lemma ring_reachable_push_all (ts : list Transition) :
  forall (b b' : ReplayBuffer) (r : exn + unit),
    ring_reachable b -> push_all ts b = (r, b') -> ring_reachable b'.
Proof.
  induction ts as [| t ts IH]; intros b b' r Hb Hrun.
  - cbn in Hrun. inversion Hrun; subst. exact Hb.
  - unfold push_all in Hrun. cbn [for_each] in Hrun. unfold bind in Hrun.
    destruct (push (Single t) b) as [[e | []] b1] eqn:E.
    + inversion Hrun; subst. eapply ring_push; eassumption.
    + eapply IH; [| exact Hrun]. eapply ring_push; eassumption.
Qed.

Lemma sample_returns {G : Type} `{RandomGenLaws G} (self : ReplayBuffer)
      (n : Z) (g g' : G) (idx : list Z) :
  ring_shape self -> sample_indices self n g = (inr idx, g') ->
  exists batch, sample self n g = (inr batch, g').
Proof.
  intros Hs Hidx.
  destruct (draw_then_shuffle _ _ _ _ _ _ _ Hidx) as (_ & Hall & _).
  assert (Hsize : 0 <= size self <= capacity self) by (destruct Hs; assumption).
  destruct (gather_ok nonzero self idx Hs) as (batch & Hbatch).
  { eapply Forall_impl; [| exact Hall]. cbv beta. intros i Hi. lia. }
  exists batch. unfold sample. rewrite (bind_step _ _ _ _ _ Hidx).
  unfold lift. now rewrite Hbatch.
Qed.

(** One push into a fresh sum-tree buffer of capacity 3: the leaf of
    slot 0 is the right child of the root, and the descent for the value
    0 keeps left and ends on the leaf of the empty slot 1. *)
Lemma one_push_of_three :
  exists b0 b,
    PERBufferSumTree_init 3 (6 / 10) = inr b0 /\
    per_push_all 3 [demo_transition 0] b0 = (inr tt, b) /\
    n_entries (per_tree b) = 1 /\
    total (per_tree b) = inr 1%R /\
    get 3 (per_tree b) 0 = inr (3, 0%R, None).
Proof.
  destruct (tree_holds_init 3 (6 / 10)%R ltac:(lia)) as (b0 & Hinit & Hfresh).
  destruct (per_push_all_holds 3 3 [demo_transition 0] [] b0
              ltac:(lia) ltac:(cbn; lia) Hfresh) as (b & Hrun & Hb).
  cbn [app] in Hb.
  destruct Hb as (Hcap & Hld & Hinv & Hw & Hn & Hmax & Hroot & Hfull & Hfree).
  change (Z.of_nat (length [demo_transition 0])) with 1 in *.
  change (Z.min 1 3) with 1 in *.
  pose proof Hinv as (Hlt & Hnodes & _).
  destruct (Hfree 1 ltac:(lia)) as (Hd1 & Hn3).
  destruct (Hfree 2 ltac:(lia)) as (_ & Hn4).
  change (3 - 1 + 1) with 3 in Hn3. change (3 - 1 + 2) with 4 in Hn4.
  pose proof (Hnodes 1 ltac:(lia)) as Hn1.
  change (2 * 1 + 1) with 3 in Hn1. change (2 * 1 + 2) with 4 in Hn1.
  rewrite Hn3, Hn4 in Hn1.
  exists b0, b. split; [exact Hinit |]. split; [exact Hrun |].
  split; [exact Hn |]. split.
  - unfold total. rewrite getitem_node by lia. now rewrite Hroot.
  - assert (Hret : _retrieve 3 (per_tree b) 0 0 = inr 3).
    { rewrite retrieve_step by lia. change (2 * 0 + 1) with 1.
      destruct (Rle_dec 0 (node (tree (per_tree b)) 1)) as [_ | Hc]; [| lra].
      rewrite retrieve_step by lia. change (2 * 1 + 1) with 3.
      destruct (Rle_dec 0 (node (tree (per_tree b)) 3)) as [_ | Hc]; [| lra].
      apply retrieve_at_leaf. lia. }
    unfold get. rewrite Hret, Hcap. rewrite getitem_node by lia.
    change (3 - 3 + 1) with 1. unfold getitem.
    rewrite norm_index_in_range by lia. rewrite Hd1, Hn3. reflexivity.
Qed.

Lemma push_batched_is_push_all_witness :
  push (Batched demo3) ring3 = push_all demo3 ring3.
Proof.
  apply (push_batched_is_push_all ring3 demo3 ring3_shape). cbn. lia.
Defined.

Lemma prio_push_batched_is_push_all_witness :
  prio_push (Batched demo3) flat3 = prio_push_all demo3 flat3.
Proof.
  apply (prio_push_batched_is_push_all flat3 demo3 flat3_shape). cbn. lia.
Defined.

Lemma sample_reads_stored_rows_witness :
  exists b batch idx,
    ring_reachable b /\
    @sample unit first_fit_gen b 1 tt = (inr batch, tt) /\
    @sample_indices unit first_fit_gen b 1 tt = (inr idx, tt) /\
    NoDup idx /\
    b_actions batch = map (fun i => nth (Z.to_nat i) (actions b) 0) idx.
Proof.
  destruct (push_all_from_init 2 demo3 ltac:(lia)) as (b0 & b & H0 & Hrun & Hring).
  pose proof (ring_reachable_push_all demo3 b0 b (inr tt) (ring_init 2 b0 H0) Hrun)
    as Hreach.
  destruct Hring as (Hshape & _ & _ & Hsize & _).
  change (Z.min (Z.of_nat (length demo3)) 2) with 2 in Hsize.
  assert (Hidx : @sample_indices unit first_fit_gen b 1 tt = (inr [0], tt)).
  { unfold sample_indices, bind. cbn [np_random_randint np_random_shuffle first_fit_gen].
    unfold first_fit_randint. rewrite Hsize. reflexivity. }
  destruct (@sample_returns unit first_fit_gen first_fit_laws b 1 tt tt [0] Hshape Hidx)
    as (batch & Hbatch).
  destruct (@sample_reads_stored_rows unit first_fit_gen first_fit_laws
              b 1 tt tt batch Hreach Hbatch)
    as (idx & K1 & K2 & _ & _ & _ & K6 & _).
  exists b, batch, idx. repeat (split; [assumption |]). exact K6.
Defined.

Lemma push_then_read_back_witness :
  exists b0 b t,
    ReplayBuffer_init 2 = inr b0 /\
    push_all demo3 b0 = (inr tt, b) /\
    nth_error demo3 (Z.to_nat 2) = Some t /\
    gather nonzero b [2 mod 2]
    = inr (mkBatch [to_float_frame (astype_uint8 (t_state t))]
                   [astype_int64 (t_action t)] [t_reward t]
                   [to_float_frame (astype_uint8 (t_next_state t))]
                   [t_done t]) /\
    (- 2 ^ 63 <= t_action t < 2 ^ 63 -> astype_int64 (t_action t) = t_action t).
Proof.
  apply (push_then_read_back 2 demo3 2); [lia | cbn; lia].
Defined.

Lemma sample_probs_sum_to_one_witness :
  Z.of_nat (length (@sample_probs real_pow flat3)) = size (base flat3) /\
  sum_R (@sample_probs real_pow flat3) = 1%R.
Proof.
  apply (@sample_probs_sum_to_one real_pow flat3 flat3_shape). cbn. lia.
Defined.

Lemma flat_priorities_stay_bounded_witness :
  max_priority flat2_pushed = 1%R /\
  (eps6 <= node (priorities flat2_pushed) 0 <= 1)%R.
Proof.
  assert (F0 : PrioritizedReplayBuffer_init 2 (6 / 10) = inr flat2_fresh)
    by reflexivity.
  assert (F1 : prio_push (Single (demo_transition 7)) flat2_fresh
               = (inr tt, flat2_pushed)) by reflexivity.
  pose proof (flat_push _ _ _ _ (flat_init _ _ _ F0) F1) as R1.
  destruct (flat_priorities_stay_bounded flat2_pushed R1) as (A & B).
  split; [exact A |]. exact (B 0 (conj (Z.le_refl 0) eq_refl)).
Defined.

Lemma get_returns_a_leaf_witness :
  exists idx dat,
    get 3 (per_tree tree4) (5 / 2) = inr (idx, node (tree (per_tree tree4)) idx, dat) /\
    st_capacity (per_tree tree4) - 1 <= idx <= 2 * st_capacity (per_tree tree4) - 2 /\
    nth_error (data (per_tree tree4))
              (Z.to_nat (idx - st_capacity (per_tree tree4) + 1)) = Some dat.
Proof.
  apply (get_returns_a_leaf 2 (per_tree tree4) (5 / 2)%R tree4_shape). cbn. lia.
Defined.

Lemma retrieve_inverts_prefix_sums_witness :
  Permutation (leaves_under 3 (2 * 4 - 1) 0)
              (map (fun k => 4 - 1 + k) (arange 4)) /\
  exists idx pre post,
    _retrieve 3 (per_tree tree4) 0 (5 / 2) = inr idx /\
    leaves_under 3 (2 * 4 - 1) 0 = pre ++ idx :: post /\
    (sum_R (map (node (tree (per_tree tree4))) pre) < 5 / 2
     <= sum_R (map (node (tree (per_tree tree4))) pre)
        + node (tree (per_tree tree4)) idx)%R /\
    (0 < node (tree (per_tree tree4)) idx)%R.
Proof.
  apply (retrieve_inverts_prefix_sums 4 2 (per_tree tree4) (5 / 2)%R);
    [lia | cbn; lia | exact tree4_invariant | unfold node; simpl; lra].
Defined.

Lemma per_push_all_fills_ring_witness :
  exists b0 b,
    PERBufferSumTree_init 4 (6 / 10) = inr b0 /\
    per_push_all 3 demo3 b0 = (inr tt, b) /\
    per_len b = 3 /\ write (per_tree b) = 3 /\
    total (per_tree b) = inr 3%R.
Proof.
  destruct (per_push_all_fills_ring 4 (6 / 10)%R 3 demo3 ltac:(lia) ltac:(cbn; lia))
    as (b0 & b & H0 & H1 & H2 & H3 & _ & _ & H6 & _).
  exists b0, b. split; [exact H0 |]. split; [exact H1 |].
  split; [exact H2 |]. split; [exact H3 | exact H6].
Defined.

Lemma get_after_pushes_returns_retained_witness :
  exists b0 b j tr,
    PERBufferSumTree_init 4 (6 / 10) = inr b0 /\
    per_push_all 3 demo3 b0 = (inr tt, b) /\
    nth_error demo3 (Z.to_nat j) = Some tr /\
    get 3 (per_tree b) 1 = inr (4 - 1 + j mod 4, 1%R, Some tr).
Proof.
  destruct (tree_holds_init 4 (6 / 10)%R ltac:(lia)) as (b0 & Hinit & Hfresh).
  destruct (per_push_all_holds 4 3 demo3 [] b0 ltac:(lia) ltac:(cbn; lia) Hfresh)
    as (b & Hrun & _).
  assert (Hs : (0 < 1 <= IZR (Z.min (Z.of_nat (length demo3)) 4))%R).
  { change (0 < 1 <= 3)%R. lra. }
  destruct (get_after_pushes_returns_retained 4 (6 / 10)%R 3 2 demo3 b0 b 1%R
              ltac:(lia) ltac:(cbn; lia) ltac:(cbn; lia) Hinit Hrun Hs)
    as (j & tr & _ & Htr & Hget).
  exists b0, b, j, tr. auto.
Defined.

Lemma per_sample_full_buffer_witness :
  exists tb g',
    @per_sample unit first_fit_gen real_pow 2 3 tree4 2 (4 / 10) tt
    = (inr (Some tb), g') /\
    Z.of_nat (length (tb_idxs tb)) = 2 /\
    Z.of_nat (length (tb_transitions tb)) = 2.
Proof.
  destruct (@per_sample_full_buffer unit first_fit_gen first_fit_laws real_pow
              2 2 tree4 2 (4 / 10)%R tt tree4_shape ltac:(cbn; lia) tree4_full
              ltac:(cbn; lia) ltac:(cbn; lia))
    as (tb & g' & Hrun & Hi & Ht & _).
  exists tb, g'. auto.
Defined.

Lemma per_sample_redraws_on_empty_slot_witness :
  exists b0 b,
    PERBufferSumTree_init 3 (6 / 10) = inr b0 /\
    per_push_all 3 [demo_transition 0] b0 = (inr tt, b) /\
    forall rounds,
      @per_sample unit numpy_gen real_pow rounds 3 b 1 (4 / 10) tt
      = (inr None, tt).
Proof.
  destruct one_push_of_three as (b0 & b & Hinit & Hrun & Hn & Htot & Hget).
  exists b0, b. split; [exact Hinit |]. split; [exact Hrun |].
  intros rounds.
  apply (@per_sample_redraws_on_empty_slot unit numpy_gen real_pow
           rounds 3 b 1 (4 / 10)%R tt 1%R 3 0%R);
    [intros lo hi []; reflexivity | lia | exact Htot | exact Hget].
Defined.

Lemma update_internal_node_breaks_invariant_witness :
  exists t',
    update 3 1 5 (per_tree tree4) = (inr tt, t') /\
    node (tree t') 1 = 5%R /\
    node (tree t') 0 = (node (tree (per_tree tree4)) 0
                        + (5 - node (tree (per_tree tree4)) 1))%R /\
    ~ sum_invariant 4 (tree t').
Proof.
  destruct (update_internal_node_breaks_invariant 4 3 1 5%R (per_tree tree4)
              tree4_invariant ltac:(lia) ltac:(cbn; lia)
              ltac:(unfold node; simpl; lra))
    as (t' & H1 & H2 & _ & _ & H5 & H6).
  exists t'. auto.
Defined.

Lemma per_sample_after_pushes_has_unit_weights_witness :
  exists b0 b tb g',
    PERBufferSumTree_init 2 (6 / 10) = inr b0 /\
    per_push_all 2 [demo_transition 0; demo_transition 1] b0 = (inr tt, b) /\
    @per_sample unit first_fit_gen real_pow 1 2 b 1 (4 / 10) tt
    = (inr (Some tb), g') /\
    tb_weights tb = [1%R].
Proof.
  destruct (tree_holds_init 2 (6 / 10)%R ltac:(lia)) as (b0 & Hinit & Hfresh).
  destruct (per_push_all_holds 2 2 [demo_transition 0; demo_transition 1] [] b0
              ltac:(lia) ltac:(cbn; lia) Hfresh) as (b & Hrun & _).
  destruct (@per_sample_after_pushes_has_unit_weights
              unit first_fit_gen first_fit_laws real_pow real_pow_laws
              2 (6 / 10)%R 2 1 1 [demo_transition 0; demo_transition 1]
              b0 b 1 (4 / 10)%R tt
              ltac:(lia) ltac:(cbn; lia) ltac:(cbn; lia) Hinit Hrun
              ltac:(cbn; lia) ltac:(lia) ltac:(cbn; lia))
    as (tb & g' & Hs & Hw & _).
  exists b0, b, tb, g'. auto.
Defined.

Lemma train_epsilon_schedule_witness :
  train_epsilon 1 (1 / 10) 1000000 0 = inr 1%R /\
  (forall f, 1000000 <= f -> train_epsilon 1 (1 / 10) 1000000 f = inr (1 / 10)%R) /\
  (forall f, 0 <= f ->
             exists e, train_epsilon 1 (1 / 10) 1000000 f = inr e /\
                       (1 / 10 <= e <= 1)%R).
Proof.
  destruct (train_epsilon_schedule 1 (1 / 10) 1000000 ltac:(lra) ltac:(lia))
    as (H1 & _ & H3 & H4 & _).
  auto.
Defined.

Lemma prio_sample_weights_in_unit_interval_witness :
  exists b wb g',
    flat_reachable b /\
    @prio_sample unit first_fit_gen real_pow b 1 (4 / 10) tt = (inr wb, g') /\
    Forall (fun w => (0 < w < 1)%R) (wb_weights wb).
Proof.
  assert (F0 : PrioritizedReplayBuffer_init 2 (6 / 10) = inr flat2_fresh)
    by reflexivity.
  assert (F1 : prio_push (Single (demo_transition 7)) flat2_fresh
               = (inr tt, flat2_pushed)) by reflexivity.
  pose proof (flat_push _ _ _ _ (flat_init _ _ _ F0) F1) as R1.
  pose proof (flat_push _ _ _ _ R1
                (surjective_pairing
                   (prio_push (Single (demo_transition 8)) flat2_pushed))) as R2.
  set (b := snd (prio_push (Single (demo_transition 8)) flat2_pushed)) in *.
  assert (Hsize : size (base b) = 2) by reflexivity.
  destruct (flat_reachable_inv b R2) as (Hshape & _).
  destruct (@prio_sample_returns unit first_fit_gen first_fit_laws real_pow
              b 1 (4 / 10)%R tt tt [0] Hshape ltac:(lia))
    as (wb & g' & Hrun & _).
  { cbn [np_random_randint first_fit_gen]. unfold first_fit_randint.
    rewrite Hsize. reflexivity. }
  exists b, wb, g'. split; [exact R2 |]. split; [exact Hrun |].
  exact (proj2 (proj2 (@prio_sample_weights_in_unit_interval
                         unit first_fit_gen first_fit_laws real_pow real_pow_laws
                         b 1 (4 / 10)%R tt g' wb R2 Hrun))).
Defined.





